(** * UELogParser.js: a shallow embedding and its verified properties

    The development follows [src/UELogParser.js].  JavaScript strings are
    modelled as Rocq [string]s, i.e. sequences of code units in the range
    0..255 (the Latin-1 part of UTF-16); numbers that the program uses as
    counters are integers [Z]; objects used as dictionaries are [gmap]s;
    exceptions are an explicit [Outcome].

    Console and file output done through [logger] carries no data back into
    the program and is not part of the state.  The one exception is
    [logger.error], whose body reads an unbound identifier and therefore
    raises. *)

From Stdlib Require Import ZArith String Ascii List Bool Lia Permutation Sorted.
From stdpp Require Import base option list gmap strings sorting.

Local Open Scope Z_scope.

(** ** Exceptions *)

Inductive JsError : Type :=
| TypeError        (* property read on null/undefined, reduce of an empty array *)
| ReferenceError   (* read of an identifier that is bound nowhere *)
| ENOENT           (* fs.readFileSync: no such file *)
| EISDIR           (* fs.readFileSync: the path is a directory *)
| InvalidArgType.  (* fs.readFileSync(undefined) *)

Inductive Outcome (A : Type) : Type :=
| Ok (a : A)
| Throw (e : JsError)
| OutOfFuel.
Arguments Ok {A} a.
Arguments Throw {A} e.
Arguments OutOfFuel {A}.

#[global] Instance Outcome_ret : MRet Outcome := fun A a => Ok a.

#[global] Instance Outcome_bind : MBind Outcome := fun A B f m =>
  match m with
  | Ok a => f a
  | Throw e => Throw e
  | OutOfFuel => OutOfFuel
  end.

(** ** Characters and built-in string methods *)

Module Char.

Definition code (c : ascii) : N := N_of_ascii c.

Definition between (lo hi : N) (c : ascii) : bool :=
  ((lo <=? code c) && (code c <=? hi))%N.

Definition same (d c : ascii) : bool := Ascii.eqb d c.

(** LineTerminator: LF and CR (U+2028 and U+2029 lie outside the range). *)
Definition line_terminator (c : ascii) : bool :=
  (code c =? 10)%N || (code c =? 13)%N.

(** [.] without the [s] flag. *)
Definition dot (c : ascii) : bool := negb (line_terminator c).

(** [\s]: TAB, LF, VT, FF, CR, SPACE, NBSP. *)
Definition space (c : ascii) : bool :=
  between 9 13 c || (code c =? 32)%N || (code c =? 160)%N.

(** [\w]: [A-Za-z0-9_]. *)
Definition word (c : ascii) : bool :=
  between 65 90 c || between 97 122 c || between 48 57 c || (code c =? 95)%N.

Definition not_colon (c : ascii) : bool := negb (same ":" c).

(** [[^:-\s]]: with a class escape as an end point the dash is a literal,
    so the class excludes the colon, the dash and white space. *)
Definition type_char (c : ascii) : bool :=
  negb (same ":" c || same "-" c || space c).

(** [[^\[\]]] *)
Definition not_bracket (c : ascii) : bool := negb (same "[" c || same "]" c).

Definition word_or_space (c : ascii) : bool := word c || space c.

(** One code unit of [String.prototype.toLowerCase]: A-Z and the Latin-1
    capitals U+00C0..U+00DE without the multiplication sign U+00D7. *)
Definition lower (c : ascii) : ascii :=
  if between 65 90 c || (between 192 222 c && negb (code c =? 215)%N)
  then ascii_of_N (code c + 32) else c.

End Char.

Module Str.

Fixpoint all (p : ascii -> bool) (s : string) : bool :=
  match s with
  | EmptyString => true
  | String c s' => p c && all p s'
  end.

Fixpoint any (p : ascii -> bool) (s : string) : bool :=
  match s with
  | EmptyString => false
  | String c s' => p c || any p s'
  end.

Fixpoint take (n : nat) (s : string) : string :=
  match n, s with
  | S n', String c s' => String c (take n' s')
  | _, _ => EmptyString
  end.

Fixpoint drop (n : nat) (s : string) : string :=
  match n, s with
  | S n', String c s' => drop n' s'
  | _, _ => s
  end.

Fixpoint starts_with (p s : string) : bool :=
  match p, s with
  | EmptyString, _ => true
  | String a p', String b s' => Ascii.eqb a b && starts_with p' s'
  | String _ _, EmptyString => false
  end.

Fixpoint map (f : ascii -> ascii) (s : string) : string :=
  match s with
  | EmptyString => EmptyString
  | String c s' => String (f c) (map f s')
  end.

Definition toLowerCase (s : string) : string := map Char.lower s.

Fixpoint trimStart (s : string) : string :=
  match s with
  | String c s' => if Char.space c then trimStart s' else s
  | EmptyString => EmptyString
  end.

(** Drops the white space at the end: a character is kept when something
    that is not white space follows it or it is not white space itself. *)
Fixpoint trimEnd (s : string) : string :=
  match s with
  | String c s' =>
      match trimEnd s' with
      | EmptyString => if Char.space c then EmptyString else String c EmptyString
      | t => String c t
      end
  | EmptyString => EmptyString
  end.

Definition trim (s : string) : string := trimEnd (trimStart s).

End Str.

(** ** Regular expressions

    A backtracking matcher in continuation-passing style for the fragment of
    the regular expression language that the program uses: literals,
    character classes, greedy repetition of a class, sequence, greedy
    option, named groups and the two lookaheads.  Alternatives are tried in
    the order of the ECMAScript matcher, so the first success is the match
    that [RegExp.prototype.exec] reports. *)

Module Regex.

Inductive regex : Type :=
| Eps
| Chr (c : ascii)
| Class (p : ascii -> bool)
| Star (p : ascii -> bool)           (* greedy [p*] *)
| Seq (r1 r2 : regex)
| Opt (r : regex)                     (* greedy [(?:r)?] *)
| Group (name : string) (r : regex)   (* [(?<name>r)] *)
| Ahead (r : regex)                   (* [(?=r)] *)
| NotAhead (r : regex).               (* [(?!r)] *)

Definition Plus (p : ascii -> bool) : regex := Seq (Class p) (Star p).

Fixpoint Lit (s : string) : regex :=
  match s with
  | EmptyString => Eps
  | String c EmptyString => Chr c
  | String c s' => Seq (Chr c) (Lit s')
  end.

(** Named groups that took part in the match, the latest first. *)
Definition captures : Type := list (string * string).

Fixpoint namedGroup (name : string) (g : captures) : option string :=
  match g with
  | [] => None
  | (n, v) :: g' => if String.eqb n name then Some v else namedGroup name g'
  end.

(** The part of [s] in front of its suffix [rest]. *)
Definition consumed (s rest : string) : string :=
  Str.take (String.length s - String.length rest) s.

Section Matcher.
Context {R : Type}.

Fixpoint star (p : ascii -> bool) (s : string) (k : string -> option R)
  : option R :=
  match s with
  | String c s' =>
      if p c then
        match star p s' k with
        | Some x => Some x
        | None => k s
        end
      else k s
  | EmptyString => k s
  end.
End Matcher.

Fixpoint matchFrom (r : regex) {R : Type} (s : string) (g : captures)
    (k : string -> captures -> option R) {struct r} : option R :=
  match r with
  | Eps => k s g
  | Chr c =>
      match s with
      | String d s' => if Ascii.eqb c d then k s' g else None
      | EmptyString => None
      end
  | Class p =>
      match s with
      | String d s' => if p d then k s' g else None
      | EmptyString => None
      end
  | Star p => star p s (fun s' => k s' g)
  | Seq r1 r2 => matchFrom r1 s g (fun s' g' => matchFrom r2 s' g' k)
  | Opt r1 =>
      match matchFrom r1 s g k with
      | Some x => Some x
      | None => k s g
      end
  | Group name r1 =>
      matchFrom r1 s g (fun s' g' => k s' ((name, consumed s s') :: g'))
  | Ahead r1 =>
      match matchFrom r1 s g (fun _ g' => Some g') with
      | Some g' => k s g'
      | None => None
      end
  | NotAhead r1 =>
      match matchFrom r1 s g (fun _ _ => Some tt) with
      | Some _ => None
      | None => k s g
      end
  end.

Record result : Type := Result {
  before : string;     (* the input in front of the match *)
  matched : string;
  after : string;      (* the input behind the match *)
  groups : captures
}.

(** A match that starts at the first character of [s]. *)
Definition here (r : regex) (s : string) : option result :=
  matchFrom r s [] (fun rest g =>
    Some (Result EmptyString (consumed s rest) rest g)).

Definition shift (c : ascii) (m : result) : result :=
  Result (String c (before m)) (matched m) (after m) (groups m).

(** [RegExp.prototype.exec] without the [g] flag: the leftmost match. *)
Fixpoint exec (r : regex) (s : string) : option result :=
  match here r s with
  | Some m => Some m
  | None =>
      match s with
      | String c s' => option_map (shift c) (exec r s')
      | EmptyString => None
      end
  end.

(** The loop of [String.prototype.match] with the [g] flag: [skip] is the
    number of characters still covered by the previous match. *)
Fixpoint scan (r : regex) (s : string) (skip : nat) : list string :=
  match s with
  | String c s' =>
      match skip with
      | S n => scan r s' n
      | O =>
          match here r s with
          | Some m => matched m :: scan r s' (Nat.pred (String.length (matched m)))
          | None => scan r s' 0
          end
      end
  | EmptyString =>
      match skip, here r EmptyString with
      | O, Some m => [matched m]
      | _, _ => []
      end
  end.

(** [s.match(r)] for a global [r]: [null] when nothing matches. *)
Definition match_global (r : regex) (s : string) : option (list string) :=
  match scan r s 0 with
  | [] => None
  | l => Some l
  end.

(** [s.replace(r, by)] for a [r] without the [g] flag. *)
Definition replace (r : regex) (by_ : string) (s : string) : string :=
  match exec r s with
  | Some m => (before m ++ by_ ++ after m)%string
  | None => s
  end.

(** A match of [r] that covers the whole of [s]: [r] between [^] and [$]. *)
Definition test_whole (r : regex) (s : string) : bool :=
  match matchFrom r s [] (fun rest _ =>
          match rest with EmptyString => Some tt | _ => None end) with
  | Some _ => true
  | None => false
  end.

End Regex.

Import Regex.

(** The extractor pattern [Log .* : .*] with the flags [gm] (the [m] flag
    changes only the anchors, and there are none). *)
Definition logRegex : regex :=
  Seq (Lit "Log") (Seq (Star Char.dot) (Seq (Chr ":") (Star Char.dot))).

(** The decomposer pattern of [parseText]; its tokens, separated by blanks:
    [(?: Log (?<logCategory> [^:]+ ) ) :{1} \s*
     (?: (?<type> [^:-\s]* ) :{1} (?!:) \s* )? (?<message> .* )] *)
Definition parseRegex : regex :=
  Seq (Seq (Lit "Log") (Group "logCategory" (Plus Char.not_colon)))
  (Seq (Chr ":")
  (Seq (Star Char.space)
  (Seq (Opt (Seq (Group "type" (Star Char.type_char))
            (Seq (Chr ":")
            (Seq (NotAhead (Chr ":"))
                 (Star Char.space)))))
       (Group "message" (Star Char.dot))))).

(** The prefix pattern of [processParsedLog]; its tokens, separated by
    blanks: [\[ [^\[\]]* \] \[ [^\[\]]* \] \s* (?=Log)] *)
Definition prefixRegex : regex :=
  Seq (Chr "[") (Seq (Star Char.not_bracket) (Seq (Chr "]")
  (Seq (Chr "[") (Seq (Star Char.not_bracket) (Seq (Chr "]")
  (Seq (Star Char.space) (Ahead (Lit "Log")))))))).

(** The validation pattern [^ [\w\s]* $]; the anchors are those of
    [test_whole]. *)
Definition typeRegex : regex := Star Char.word_or_space.

Definition nl : string := String (ascii_of_N 10) EmptyString.

(** ** JavaScript values used by the program *)

(** A number that is an integer or [NaN]. *)
Inductive JsNumber : Type :=
| NaN
| Num (z : Z).

#[global] Instance JsNumber_eq_dec : EqDecision JsNumber.
Proof. solve_decision. Defined.

Definition jadd (a b : JsNumber) : JsNumber :=
  match a, b with
  | Num x, Num y => Num (x + y)
  | _, _ => NaN
  end.

(** [x++] on a property that may be missing: [undefined] becomes [NaN]. *)
Definition postIncrement (v : option JsNumber) : JsNumber :=
  match v with
  | Some n => jadd n (Num 1)
  | None => NaN
  end.

(** Truthiness of a value that is a string or [undefined]. *)
Definition truthy (v : option string) : bool :=
  match v with
  | Some s => negb (String.eqb s "")
  | None => false
  end.

(** [v === s] for a string literal [s]. *)
Definition strictEq (v : option string) (s : string) : bool :=
  match v with
  | Some t => String.eqb t s
  | None => false
  end.

(** [array.includes(v)] for an array of strings. *)
Definition includes (array : list string) (v : option string) : bool :=
  match v with
  | Some s => bool_decide (s ∈ array)
  | None => false
  end.

(** Objects used as dictionaries.  [Object.keys(o).includes(k)] is the test
    for an own key; an assignment [o[k] = v] of a primitive [v] creates or
    overwrites the own property, except for the key [__proto__], whose
    inherited setter ignores primitives. *)
Section Dictionary.
Context {V : Type}.

Definition hasKey (o : gmap string V) (k : option string) : bool :=
  match k with
  | Some k => bool_decide (is_Some (o !! k))
  | None => false
  end.

Definition assign (k : string) (v : V) (o : gmap string V) : gmap string V :=
  if String.eqb k "__proto__" then o else <[k := v]> o.
End Dictionary.

(** ** Data model *)

Record LogObject : Type := mkLog {
  category : option string;
  type : option string;
  message : option string;
  logText : string;
  count : Z;
  siblings : list string
}.

Record LogInfo : Type := mkInfo {
  totalCount : Z;
  uniqueList : list LogObject;
  categories : gmap string Z;
  typeCounts : gmap string JsNumber;
  general : option JsNumber;      (* created by [logInfo.general++] *)
  sourceFile : option string
}.

(** The global [logData]: a [LogInfo] with the list of the per-file
    reports. *)
Record LogData : Type := mkData {
  self : LogInfo;
  dataList : list LogInfo
}.

(** The settings of [UELogParserSettings.json], a file that is not part of
    the sources: the program is verified for every value of the options it
    reads. *)
Record FilterSettings : Type := mkFilter {
  ignore : bool;
  allowUndefined : bool;
  whitelist : list string;
  blacklist : list string
}.

Inductive Directory : Type :=
| LocalDirectory      (* "local" *)
| FolderDirectory     (* "folder" *)
| OtherDirectory.     (* anything else *)

Record Settings : Type := mkSettings {
  debug : bool;
  writeToFile : bool;
  directory : Directory;       (* textLoading.directory *)
  folderPath : string;         (* textLoading.folderPath *)
  consolidate : bool;          (* textParsing.consolidate *)
  summarize : bool;            (* textParsing.summarize *)
  typeFilter : FilterSettings;     (* display.filters.type *)
  categoryFilter : FilterSettings; (* display.filters.category *)
  logList : bool               (* display.logList *)
}.

(** What the program sees of its surroundings: its own directory and the
    file system. *)
Inductive FsEntry : Type :=
| File (text : string)
| Dir.

Record Env : Type := mkEnv {
  dirname : string;
  files : gmap string FsEntry
}.

(** The module-level variables that the functions mutate. *)
Record State : Type := mkState {
  logData : LogData;
  textContent : gmap string string
}.

Definition fixedBuckets : gmap string JsNumber :=
  <["errors" := Num 0]> (<["warnings" := Num 0]>
  (<["verbose" := Num 0]> (<["general" := Num 0]> ∅))).

Definition initialLogData : LogData :=
  mkData (mkInfo 0 [] ∅ fixedBuckets None None) [].

Definition initialState : State := mkState initialLogData ∅.

(** Field updates. *)
Definition setUniqueList (l : list LogObject) (i : LogInfo) : LogInfo :=
  mkInfo (totalCount i) l (categories i) (typeCounts i) (general i) (sourceFile i).
Definition setTotalCount (n : Z) (i : LogInfo) : LogInfo :=
  mkInfo n (uniqueList i) (categories i) (typeCounts i) (general i) (sourceFile i).
Definition setCategories (c : gmap string Z) (i : LogInfo) : LogInfo :=
  mkInfo (totalCount i) (uniqueList i) c (typeCounts i) (general i) (sourceFile i).
Definition setTypeCounts (t : gmap string JsNumber) (i : LogInfo) : LogInfo :=
  mkInfo (totalCount i) (uniqueList i) (categories i) t (general i) (sourceFile i).
Definition setGeneral (g : option JsNumber) (i : LogInfo) : LogInfo :=
  mkInfo (totalCount i) (uniqueList i) (categories i) (typeCounts i) g (sourceFile i).
Definition setSourceFile (f : option string) (i : LogInfo) : LogInfo :=
  mkInfo (totalCount i) (uniqueList i) (categories i) (typeCounts i) (general i) f.

(** ** [logger] *)

(** [logger.error] ends with [if(printToConsole) console.log(string)], and
    [printToConsole] is neither a parameter of that arrow function nor a
    variable of the module: the read raises. *)
Definition logger_error : Outcome unit := Throw ReferenceError.

(** ** [parseText] *)

(** The record built from one candidate (the body of the loop). *)
Definition parseLine (logString : string) : LogObject :=
  match exec parseRegex logString with
  | None => mkLog None None None logString 1 []
  | Some m =>
      mkLog (Str.trim <$> namedGroup "logCategory" (groups m))
            (Str.trim <$> namedGroup "type" (groups m))
            (Str.trim <$> namedGroup "message" (groups m))
            logString 1 []
  end.

(** The condition of the warning "Match has missing fields". *)
Definition missingFields (log : LogObject) : bool :=
  bool_decide (category log = None) || bool_decide (message log = None).

(** ** [processParsedLog] *)

Definition freshLogInfo (n : Z) : LogInfo :=
  mkInfo n [] (<["general" := 0]> ∅)
    (<["general" := Num 0]> (<["verbose" := Num 0]>
      (<["warnings" := Num 0]> (<["errors" := Num 0]> ∅))))
    None None.

(** [data.logText.replace(prefix pattern, "")] *)
Definition stripPrefix (s : string) : string := replace prefixRegex "" s.

Definition sameLog (info data : LogObject) : Prop :=
  stripPrefix (logText data) = logText info.

#[global] Instance sameLog_dec info data : Decision (sameLog info data).
Proof. unfold sameLog. apply _. Defined.

Definition addSibling (text : string) (data : LogObject) : LogObject :=
  mkLog (category data) (type data) (message data) (logText data)
        (count data + 1) (siblings data ++ [text]).

(** Lines 208-215: the entry of the first match counts one more, or the
    record becomes a new entry. *)
Definition foldUnique (uniqueList : list LogObject) (info : LogObject)
  : list LogObject :=
  match list_find (sameLog info) uniqueList with
  | None => uniqueList ++ [info]
  | Some (firstIndex, _) => alter (addSibling (logText info)) firstIndex uniqueList
  end.

(** Lines 217-225. *)
Definition countCategory (logInfo : LogInfo) (info : LogObject) : LogInfo :=
  if hasKey (categories logInfo) (category info) then
    setCategories (alter Z.succ (default "" (category info)) (categories logInfo)) logInfo
  else if truthy (category info) then
    setCategories (assign (default "" (category info)) 1 (categories logInfo)) logInfo
  else
    setGeneral (Some (postIncrement (general logInfo))) logInfo.

(** Line 228: [info.type && info.type.match(validation pattern) === null]. *)
Definition invalidType (info : LogObject) : bool :=
  truthy (type info) && negb (test_whole typeRegex (default "" (type info))).

Definition processOne (logInfo : LogInfo) (info : LogObject) : Outcome LogInfo :=
  let logInfo := setUniqueList (foldUnique (uniqueList logInfo) info) logInfo in
  let logInfo := countCategory logInfo info in
  if invalidType info then logger_error ;; mret logInfo
  else mret logInfo.

Fixpoint processAll (logInfo : LogInfo) (matchArray : list LogObject)
  : Outcome LogInfo :=
  match matchArray with
  | [] => mret logInfo
  | info :: rest => logInfo' ← processOne logInfo info; processAll logInfo' rest
  end.

(** Lines 234-250, one unique entry. *)
Definition tallyType (counts : gmap string JsNumber) (info : LogObject)
  : gmap string JsNumber :=
  if strictEq (type info) "Error" then
    <["errors" := postIncrement (counts !! "errors")]> counts
  else if strictEq (type info) "Warning" then
    <["warnings" := postIncrement (counts !! "warnings")]> counts
  else if truthy (type info) then
    let modifiedType := Str.toLowerCase (Str.trim (default "" (type info))) in
    if hasKey counts (Some modifiedType) then
      <[modifiedType := postIncrement (counts !! modifiedType)]> counts
    else assign modifiedType (Num 1) counts
  else counts.

(** [Object.values(typeCounts).reduce((aggr, next) => aggr+next, 0)] *)
Definition sumValues (counts : gmap string JsNumber) : JsNumber :=
  map_fold (fun _ next aggr => jadd aggr next) (Num 0) counts.

(** The condition of the warning "type counts do not total". *)
Definition typeCountsMismatch (logInfo : LogInfo) : bool :=
  bool_decide (Num (Z.of_nat (length (uniqueList logInfo))) ≠ sumValues (typeCounts logInfo)).

Definition processParsedLog (settings : Settings) (data : LogData)
    (matchArray : list LogObject) (fileName : option string)
  : Outcome (LogData * LogInfo) :=
  let logInfo :=
    if consolidate settings then
      setTotalCount (totalCount (self data) + Z.of_nat (length matchArray)) (self data)
    else freshLogInfo (Z.of_nat (length matchArray)) in
  logInfo ← processAll logInfo matchArray;
  let logInfo :=
    setTypeCounts (foldl tallyType (typeCounts logInfo) (uniqueList logInfo)) logInfo in
  if consolidate settings then mret (mkData logInfo (dataList data), logInfo)
  else
    let logInfo := if truthy fileName then setSourceFile fileName logInfo else logInfo in
    mret (mkData (self data) (dataList data ++ [logInfo]), logInfo).

(** [parseText]: [input.match] is [null] when there is no candidate, and
    line 127 then reads [length] of [null].  The warnings of lines 152-161
    and the summary of [getParseSummary] only write to the log. *)
Definition extract (input : string) : option (list string) :=
  match_global logRegex input.

Definition parseText (settings : Settings) (data : LogData)
    (input : string) (fileName : option string) : Outcome (LogData * LogInfo) :=
  match extract input with
  | None => Throw TypeError
  | Some matchArray =>
      processParsedLog settings data (parseLine <$> matchArray) fileName
  end.

(** ** [sortLogsByCount] *)

Module Sorter.

(** [list[i]] for the array [arr] that the source calls [list]:
    [undefined] outside the array. *)
Definition get (arr : list Z) (i : Z) : option Z :=
  if i <? 0 then None else arr !! Z.to_nat i.

(** The default [comparer], [(a,b) => a <= b]; a comparison with
    [undefined] is false. *)
Definition defaultComparer (a b : option Z) : bool :=
  match a, b with
  | Some x, Some y => x <=? y
  | _, _ => false
  end.

(** [[list[i], list[j]] = [list[j], list[i]]].  Both indices are inside
    the array wherever [partition] swaps (lemma [partition_loop_spec]). *)
Definition swap (arr : list Z) (i j : Z) : list Z :=
  match get arr i, get arr j with
  | Some a, Some b => <[Z.to_nat j := a]> (<[Z.to_nat i := b]> arr)
  | _, _ => arr
  end.

(** The [for] loop of [partition] with [n] iterations left. *)
Fixpoint partition_loop (n : nat) (arr : list Z) (pivot : option Z)
    (comparer : option Z -> option Z -> bool) (idx pIndex : Z) : list Z * Z :=
  match n with
  | O => (arr, pIndex)
  | S n' =>
      if comparer (get arr idx) pivot
      then partition_loop n' (swap arr idx pIndex) pivot comparer (idx + 1) (pIndex + 1)
      else partition_loop n' arr pivot comparer (idx + 1) pIndex
  end.

Definition partition (arr : list Z) (start end_ : Z)
    (comparer : option Z -> option Z -> bool) : list Z * Z :=
  let pivot := get arr end_ in
  let '(arr, pIndex) :=
    partition_loop (Z.to_nat (end_ - start)) arr pivot comparer start start in
  (swap arr pIndex end_, pIndex).

(** The recursive calls pass no [comparer], so they use the default. *)
Fixpoint quickSort (fuel : nat) (arr : list Z) (start end_ : Z)
    (comparer : option Z -> option Z -> bool) : Outcome (list Z) :=
  if start >=? end_ then mret arr
  else
    match fuel with
    | O => OutOfFuel
    | S fuel' =>
        let '(arr, pivotIndex) := partition arr start end_ comparer in
        arr ← quickSort fuel' arr start (pivotIndex - 1) defaultComparer;
        quickSort fuel' arr (pivotIndex + 1) end_ defaultComparer
    end.

(** Lines 297-307: the counts in the order of their first occurrence and
    the entries of every count.  A count is in [numberArray] exactly when
    it is a key of [countMap], so the [push] always finds its array. *)
Definition group_step (acc : list Z * gmap Z (list LogObject)) (log : LogObject)
  : list Z * gmap Z (list LogObject) :=
  let '(numberArray, countMap) := acc in
  if bool_decide (count log ∈ numberArray)
  then (numberArray, alter (fun bucket => bucket ++ [log]) (count log) countMap)
  else (numberArray ++ [count log], <[count log := [log]]> countMap).

Definition group (uniqueList : list LogObject) : list Z * gmap Z (list LogObject) :=
  foldl group_step ([], ∅) uniqueList.

(** Lines 309 and 320: [map(...).reduce(...)] without an initial value. *)
Definition debugString (uniqueList : list LogObject) : Outcome unit :=
  match uniqueList with
  | [] => Throw TypeError
  | _ :: _ => mret tt
  end.

(** Lines 315-318. *)
Definition collect (countMap : gmap Z (list LogObject)) (numberArray : list Z)
  : list LogObject :=
  foldl (fun newArray count => newArray ++ default [] (countMap !! count)) [] numberArray.

Definition sortLogsByCount (uniqueList : list LogObject) : Outcome (list LogObject) :=
  let '(numberArray, countMap) := group uniqueList in
  debugString uniqueList ;;
  numberArray ← quickSort (length numberArray) numberArray 0
                  (Z.of_nat (length numberArray) - 1) defaultComparer;
  let newArray := collect countMap numberArray in
  debugString uniqueList ;;
  mret newArray.

End Sorter.

Import Sorter.

(** ** [filterLog] and [filterLogList] *)

(** One of the two blocks of [filterLog]: [true] hides the log. *)
Definition filterField (f : FilterSettings) (value : option string) : bool :=
  if negb (ignore f) then
    if bool_decide (value = None) && negb (allowUndefined f) then true
    else if negb (includes (whitelist f) value) || includes (blacklist f) value then true
    else false
  else false.

Definition filterLog (settings : Settings) (log : LogObject) : bool :=
  if filterField (typeFilter settings) (type log) then true
  else if filterField (categoryFilter settings) (category log) then true
  else false.

(** The report that [filterLogList] starts from. *)
Definition emptyInfo : LogInfo := mkInfo 0 [] ∅ fixedBuckets None None.

(** The property name that a category is converted to. *)
Definition propertyKey (v : option string) : string := default "undefined" v.

(** Lines 456-471.  The third branch reads [logInfo], a name that is bound
    neither in [filterLogList] nor in the module. *)
Definition filterTally (newInfo : LogInfo) (log : LogObject) : Outcome LogInfo :=
  if strictEq (type log) "Error" then
    mret (setTypeCounts (<["errors" := postIncrement (typeCounts newInfo !! "errors")]>
                           (typeCounts newInfo)) newInfo)
  else if strictEq (type log) "Warning" then
    mret (setTypeCounts (<["warnings" := postIncrement (typeCounts newInfo !! "warnings")]>
                           (typeCounts newInfo)) newInfo)
  else if truthy (type log) then Throw ReferenceError
  else mret newInfo.

(** Lines 474-475; category names that [Object.prototype] defines
    ([constructor], [toString], ...) are outside this model. *)
Definition filterCategory (newInfo : LogInfo) (log : LogObject) : LogInfo :=
  let key := propertyKey (category log) in
  match categories newInfo !! key with
  | Some n =>
      if n =? 0 then setCategories (assign key (count log) (categories newInfo)) newInfo
      else setCategories (assign key (n + count log) (categories newInfo)) newInfo
  | None => setCategories (assign key (count log) (categories newInfo)) newInfo
  end.

Definition filterStep (settings : Settings) (newInfo : LogInfo) (log : LogObject)
  : Outcome LogInfo :=
  if negb (filterLog settings log) then
    let newInfo := setUniqueList (uniqueList newInfo ++ [log]) newInfo in
    let newInfo := setTotalCount (totalCount newInfo + count log) newInfo in
    newInfo ← filterTally newInfo log;
    mret (filterCategory newInfo log)
  else mret newInfo.

Fixpoint filterLoop (settings : Settings) (newInfo : LogInfo) (logList : list LogObject)
  : Outcome LogInfo :=
  match logList with
  | [] => mret newInfo
  | log :: rest => newInfo' ← filterStep settings newInfo log; filterLoop settings newInfo' rest
  end.

Definition filterLogList (settings : Settings) (logList : list LogObject)
  : Outcome LogInfo :=
  filterLoop settings emptyInfo logList.

(** ** [loadText], [getPathToFile] and [run] *)

Definition backslash : string := String (ascii_of_N 92) EmptyString.

Definition getPathToFile (settings : Settings) (env : Env) (fileName : string)
  : option string :=
  match directory settings with
  | LocalDirectory => Some (dirname env ++ backslash ++ fileName)%string
  | FolderDirectory => Some (folderPath settings ++ backslash ++ fileName)%string
  | OtherDirectory => None
  end.

(** [fs.readFileSync(path, "utf-8")] *)
Definition readFileSync (env : Env) (path : option string) : Outcome string :=
  match path with
  | None => Throw InvalidArgType
  | Some p =>
      match files env !! p with
      | Some (File text) => mret text
      | Some Dir => Throw EISDIR
      | None => Throw ENOENT
      end
  end.

(** [fs.existsSync(path)] *)
Definition existsSync (env : Env) (path : option string) : bool :=
  match path with
  | None => false
  | Some p => bool_decide (is_Some (files env !! p))
  end.

Fixpoint loadText (settings : Settings) (env : Env) (content : gmap string string)
    (fileNames : list string) : Outcome (gmap string string) :=
  match fileNames with
  | [] => mret content
  | fileName :: rest =>
      text ← readFileSync env (getPathToFile settings env fileName);
      loadText settings env (assign fileName text content) rest
  end.

(** Lines 496-502. *)
Fixpoint parseFiles (settings : Settings) (env : Env) (st : State)
    (fileList : list string) : Outcome State :=
  match fileList with
  | [] => mret st
  | fileName :: rest =>
      if existsSync env (getPathToFile settings env fileName) then
        match textContent st !! fileName with
        | None => Throw TypeError
        | Some input =>
            '(data, _) ← parseText settings (logData st) input (Some fileName);
            parseFiles settings env (mkState data (textContent st)) rest
        end
      else logger_error ;; parseFiles settings env st rest
  end.

(** Lines 509-511. *)
Fixpoint sortEach (dataList : list LogInfo) : Outcome (list LogInfo) :=
  match dataList with
  | [] => mret []
  | data :: rest =>
      sorted ← sortLogsByCount (uniqueList data);
      rest' ← sortEach rest;
      mret (setUniqueList sorted data :: rest')
  end.

(** What a run leaves behind: the module state and, in consolidated mode,
    the filtered report that is printed. *)
Record RunResult : Type := mkRun {
  final : State;
  report : option LogInfo
}.

Definition run (settings : Settings) (env : Env) (st : State) (fileList : list string)
  : Outcome RunResult :=
  match fileList with
  | [] => mret (mkRun st None)
  | _ :: _ =>
      content ← loadText settings env (textContent st) fileList;
      st ← parseFiles settings env (mkState (logData st) content) fileList;
      if consolidate settings then
        sorted ← sortLogsByCount (uniqueList (self (logData st)));
        let data := mkData (setUniqueList sorted (self (logData st))) (dataList (logData st)) in
        filtered ← filterLogList settings (uniqueList (self data));
        mret (mkRun (mkState data (textContent st)) (Some filtered))
      else
        lists ← sortEach (dataList (logData st));
        mret (mkRun (mkState (mkData (self (logData st)) lists) (textContent st)) None)
  end.

(** ** Running the model *)

Definition defaultFilter : FilterSettings := mkFilter true true [] [].

Definition perFile : Settings :=
  mkSettings false false LocalDirectory "" false false defaultFilter defaultFilter true.

Definition consolidated : Settings :=
  mkSettings false false LocalDirectory "" true false defaultFilter defaultFilter true.

Definition uniqueOf (r : Outcome (LogData * LogInfo)) : Outcome (list LogObject) :=
  '(_, logInfo) ← r; mret (uniqueList logInfo).

(** ** [getParseSummary] *)

(** [array.reduce(f)] without an initial value: the first element starts the
    fold, and an empty array is a TypeError. *)
Definition reduce1 {A} (f : A -> A -> A) (array : list A) : Outcome A :=
  match array with
  | [] => Throw TypeError
  | first :: rest => mret (foldl f first rest)
  end.

(** The two numbers of the first line of the summary (line 347): the count
    of the entry that [(prev, next) => next.count >= prev.count ? next : prev]
    keeps and the count of the one that the same fold with [<=] keeps.  The
    rest of the function prints one line for every key of the two
    dictionaries. *)
Definition getParseSummary (logInfo : LogInfo) : Outcome (Z * Z) :=
  high ← reduce1 (fun prev next => if count next >=? count prev then next else prev)
           (uniqueList logInfo);
  low ← reduce1 (fun prev next => if count next <=? count prev then next else prev)
          (uniqueList logInfo);
  mret (count high, count low).

(** Lines 166-169 of [parseText] with the call of [getParseSummary] that
    [parseText] above leaves out. *)
Definition parseTextWithSummary (settings : Settings) (data : LogData)
    (input : string) (fileName : option string) : Outcome (LogData * LogInfo) :=
  '(data', logInfo) ← parseText settings data input fileName;
  if summarize settings then getParseSummary logInfo ;; mret (data', logInfo)
  else mret (data', logInfo).

(** * Notions used in the statements *)

(** ** Lines and candidates *)

(** The first line of a text, and what follows it (from the line terminator
    on). *)
Fixpoint lineHead (s : string) : string :=
  match s with
  | String c s' => if Char.dot c then String c (lineHead s') else EmptyString
  | EmptyString => EmptyString
  end.

Fixpoint lineTail (s : string) : string :=
  match s with
  | String c s' => if Char.dot c then lineTail s' else s
  | EmptyString => EmptyString
  end.

(** The lines of a text: the pieces between its line terminators. *)
Fixpoint lines (s : string) : list string :=
  match s with
  | EmptyString => [EmptyString]
  | String c s' =>
      if Char.line_terminator c then EmptyString :: lines s'
      else
        match lines s' with
        | l :: ls => String c l :: ls
        | [] => [String c EmptyString]
        end
  end.

(** [p] occurs somewhere in [s]. *)
Fixpoint contains (p s : string) : bool :=
  Str.starts_with p s ||
  match s with
  | String _ s' => contains p s'
  | EmptyString => false
  end.

(** Nothing, or a line terminator, comes next. *)
Definition endsLine (rest : string) : Prop :=
  match rest with
  | EmptyString => True
  | String c _ => Char.line_terminator c = true
  end.

(** The shape of a candidate: the marker, a colon somewhere behind it, and
    no line terminator. *)
Definition isCandidate (c : string) : Prop :=
  Str.starts_with "Log" c = true /\
  Str.any (Char.same ":") (Str.drop 3 c) = true /\
  Str.all Char.dot c = true.

(** The sequence that the extractor hands to the loop of [parseText]. *)
Definition candidates (input : string) : list string :=
  default [] (extract input).

(** The reading of the extractor that takes whole lines only. *)
Definition extractsWholeLines (input : string) : Prop :=
  forall c, c ∈ candidates input ->
    c ∈ lines input /\ Str.starts_with "Log" c = true.

(** The prefix of two bracketed tokens. *)
Definition bracketPrefix (A B : string) : string :=
  "[" +:+ A +:+ "][" +:+ B +:+ "]".

(** ** The order of the sorter *)

Definition hasCount (c : Z) (e : LogObject) : Prop := count e = c.

#[global] Instance hasCount_dec c e : Decision (hasCount c e).
Proof. unfold hasCount. apply _. Defined.

Definition countLe (a b : LogObject) : Prop := count a <= count b.

(** [sorted] is the stable ascending-by-count permutation of [uniqueList]:
    adjacent entries are in order, nothing is lost or added, and the entries
    of any one count come in their input order. *)
Definition StableByCount (uniqueList sorted : list LogObject) : Prop :=
  Sorted countLe sorted /\
  sorted ≡ₚ uniqueList /\
  forall c, filter (hasCount c) sorted = filter (hasCount c) uniqueList.

(** The entries of [uniqueList] taken count by count. *)
Definition byCounts (uniqueList : list LogObject) (counts : list Z) : list LogObject :=
  counts ≫= (fun c => filter (hasCount c) uniqueList).

(** ** Reports *)

Definition categoryCount (logInfo : LogInfo) (c : string) : Z :=
  default 0 (categories logInfo !! c).

(** The records (raw occurrences) of category [c]. *)
Definition occurrences (c : string) (matchArray : list LogObject) : Z :=
  Z.of_nat (length (filter (fun r => category r = Some c) matchArray)).

(** The unique entries of category [c]. *)
Definition uniqueWithCategory (c : string) (logInfo : LogInfo) : Z :=
  occurrences c (uniqueList logInfo).

(** The reading of the tally that counts unique entries. *)
Definition countedPerUniqueEntry (logInfo : LogInfo) : Prop :=
  forall e c, e ∈ uniqueList logInfo -> category e = Some c ->
    categories logInfo !! c = Some (uniqueWithCategory c logInfo).

(** The entries that [filterLog] lets through. *)
Definition kept (settings : Settings) (logList : list LogObject) : list LogObject :=
  filter (fun log => filterLog settings log = false) logList.

Definition sumCounts (logList : list LogObject) : Z :=
  foldr (fun log n => count log + n) 0 logList.

(** ** Deduplication *)

(** The invariant of a unique entry. *)
Definition wellCounted (e : LogObject) : Prop :=
  count e = 1 + Z.of_nat (length (siblings e)).

(** The state of the first loop of [processParsedLog] after one record whose
    type passes the validation. *)
Definition foldStep (logInfo : LogInfo) (info : LogObject) : LogInfo :=
  countCategory (setUniqueList (foldUnique (uniqueList logInfo) info) logInfo) info.

(** The entry that [n] further copies of the raw text of [r] leave. *)
Definition folded (r : LogObject) (n : nat) : LogObject :=
  mkLog (category r) (type r) (message r) (logText r)
        (count r + Z.of_nat n) (siblings r ++ replicate n (logText r)).

(** ** Sample inputs *)

Definition oneGoodFile : gmap string FsEntry :=
  <[("C:" +:+ backslash +:+ "good.log") := File "LogTemp: Display: Hello"]> ∅.

Definition twoErrors : gmap string FsEntry :=
  <[("C:" +:+ backslash +:+ "a.log") :=
      File ("LogA: Error: x" +:+ nl +:+ "LogA: Error: x")]> ∅.

Definition errorTwice : LogObject :=
  mkLog (Some "A") (Some "Error") (Some "x") "LogA: Error: x" 2 ["LogA: Error: x"].

Definition twoTemp : list LogObject :=
  [parseLine "LogTemp: Display: a"; parseLine "LogTemp: Display: a"].

Definition threeEntries : list LogObject :=
  [ mkLog None None None "c" 3 []; mkLog None None None "a" 1 [];
    mkLog None None None "d" 3 [] ].

(** * Further notions *)

(** ** The extractor, line by line *)

(** The candidate that one line yields: the leftmost match of the extractor
    pattern in that line. *)
Definition lineMatch (l : string) : option string :=
  matched <$> exec logRegex l.

(** ** The decomposer, read as a grammar *)

Fixpoint takeWhile (p : ascii -> bool) (s : string) : string :=
  match s with
  | String c s' => if p c then String c (takeWhile p s') else EmptyString
  | EmptyString => EmptyString
  end.

Fixpoint dropWhile (p : ascii -> bool) (s : string) : string :=
  match s with
  | String c s' => if p c then dropWhile p s' else s
  | EmptyString => EmptyString
  end.

(** Nothing, or a character outside [p], comes next. *)
Definition stops (p : ascii -> bool) (s : string) : Prop :=
  match s with
  | EmptyString => True
  | String c _ => p c = false
  end.

(** What follows the colon of the category: white space, then possibly a
    type token that ends in a single colon.  The result is the token and the
    text behind the colon and the white space after it. *)
Definition typeSplit (rest : string) : option (string * string) :=
  let body := dropWhile Char.space rest in
  match dropWhile Char.type_char body with
  | String c b =>
      if Ascii.eqb ":" c && negb (Str.starts_with ":" b)
      then Some (takeWhile Char.type_char body, dropWhile Char.space b)
      else None
  | EmptyString => None
  end.

Definition typeToken (rest : string) : option string := fst <$> typeSplit rest.

Definition messageText (rest : string) : string :=
  match typeSplit rest with
  | Some (_, text) => lineHead text
  | None => lineHead (dropWhile Char.space rest)
  end.

(** The continuations of the decomposer pattern, from its end to its
    start: the message group, the end of the type group, the optional type
    group, and the colon behind the category. *)
Definition kMessage (full : string) (g : captures) (s : string) : option result :=
  star Char.dot s (fun rest =>
    Some (Result "" (consumed full rest) rest (("message", consumed s rest) :: g))).

Definition kTypeEnd (full : string) (g : captures) (body s : string) : option result :=
  match s with
  | EmptyString => None
  | String d s' =>
      if Ascii.eqb ":" d then
        match match s' with
              | EmptyString => None
              | String d' _ => if Ascii.eqb ":" d' then Some tt else None
              end with
        | Some _ => None
        | None => star Char.space s' (kMessage full (("type", consumed body s) :: g))
        end
      else None
  end.

Definition kBody (full : string) (g : captures) (body : string) : option result :=
  match star Char.type_char body (kTypeEnd full g body) with
  | Some x => Some x
  | None => kMessage full g body
  end.

Definition kColon (full cat : string) (s : string) : option result :=
  match s with
  | EmptyString => None
  | String d s' =>
      if Ascii.eqb ":" d
      then star Char.space s' (kBody full [("logCategory", consumed cat s)])
      else None
  end.

(** ** Outcomes of the parser *)

(** The report that [processParsedLog] starts from. *)
Definition baseInfo (settings : Settings) (data : LogData) : LogInfo :=
  if consolidate settings then self data else freshLogInfo 0.

(** ** Unique entries *)

(** What identifies an entry: the fields that the fold never writes. *)
Definition identity (e : LogObject) : option string * option string * option string * string :=
  (category e, type e, message e, logText e).

(** The invariant of an entry of the unique list: its count is one more
    than the number of its siblings, and every sibling is the stripped text
    of the entry. *)
Definition entryInvariant (e : LogObject) : Prop :=
  count e = 1 + Z.of_nat (length (siblings e)) /\
  Forall (fun text => text = stripPrefix (logText e)) (siblings e).

(** A record as [parseText] builds it. *)
Definition freshRecord (r : LogObject) : Prop := count r = 1 /\ siblings r = [].

(** ** Type buckets *)




(** ** Filters *)

(** A filter lets a value through: it is switched off, or the value is
    there, on the allow-list and not on the deny-list. *)
Definition passes (f : FilterSettings) (value : option string) : Prop :=
  ignore f = true \/
  exists s, value = Some s /\ s ∈ whitelist f /\ s ∉ blacklist f.

(** A type that is neither absent nor empty nor one of the two named
    ones. *)
Definition customType (log : LogObject) : bool :=
  truthy (type log) && negb (strictEq (type log) "Error")
  && negb (strictEq (type log) "Warning").

Definition withType (t : string) (l : list LogObject) : Z :=
  Z.of_nat (length (filter (fun e => type e = Some t) l)).

(** The property names that every object inherits from [Object.prototype]. *)
Definition inheritedNames : list string :=
  ["constructor"; "__defineGetter__"; "__defineSetter__"; "hasOwnProperty";
   "__lookupGetter__"; "__lookupSetter__"; "isPrototypeOf"; "propertyIsEnumerable";
   "toString"; "valueOf"; "__proto__"; "toLocaleString"].

(** ** Sample inputs *)

Definition sampleText : string :=
  "[1][2]LogTemp: Display: Hello world" +:+ nl +:+ "LogTemp: Display: Hello world" +:+ nl
  +:+ "LogCore: Warning: Init failed" +:+ nl +:+ "LogCore: Error: Crash".

Definition sampleFiles : gmap string FsEntry :=
  <[("C:" +:+ backslash +:+ "a.log") := File sampleText]>
  (<[("C:" +:+ backslash +:+ "b.log") := File "LogNet: Error: Timeout"]> ∅).

Definition errorsOnly : string :=
  "LogCore: Error: Crash" +:+ nl +:+ "LogNet: Warning: Slow" +:+ nl +:+ "LogCore: Error: Crash".

Definition errorFiles : gmap string FsEntry :=
  <[("C:" +:+ backslash +:+ "a.log") := File errorsOnly]> ∅.

(** The sum of the counts of the entries whose category becomes the
    property [k]. *)
Definition countsUnder (k : string) (l : list LogObject) : Z :=
  sumCounts (filter (fun e => propertyKey (category e) = k) l).

(** The number of candidates in the text of the file [fileName]. *)
Definition candidateCount (settings : Settings) (env : Env) (fileName : string) : Z :=
  match readFileSync env (getPathToFile settings env fileName) with
  | Ok text => Z.of_nat (length (candidates text))
  | _ => 0
  end.

(** A file that a run can process: its name can be a property of
    [textContent] and of a report, it can be read, its text holds a
    candidate, and the type of every candidate is absent or predefined. *)
Definition processable (settings : Settings) (env : Env) (fileName : string) : Prop :=
  fileName <> "" /\ fileName <> "__proto__" /\
  exists text,
    readFileSync env (getPathToFile settings env fileName) = Ok text /\
    candidates text <> [] /\
    Forall (fun c => invalidType (parseLine c) = false) (candidates text).

(** The number of candidates in the texts of the files of [fileList]. *)
Definition candidateTotal (settings : Settings) (env : Env) (fileList : list string) : Z :=
  foldr (fun fileName n => candidateCount settings env fileName + n) 0 fileList.

(** ** The fold, entry by entry *)

(** The count of the unique entry at position [i]; 0 where there is none. *)
Definition countAt (uniqueList : list LogObject) (i : nat) : Z :=
  from_option count 0 (uniqueList !! i).

(** The unique entries when the loop of [processParsedLog] has taken the
    candidates of the lines [ls]. *)
Definition entriesAfter (settings : Settings) (data : LogData) (ls : list string)
  : list LogObject :=
  foldl foldUnique (uniqueList (baseInfo settings data)) (parseLine <$> omap lineMatch ls).

(** The entry at position [i] is the first whose stripped text is the raw
    text of [info]: the entry that line 208 finds for [info]. *)
Definition firstMatch (info : LogObject) (i : nat) (uniqueList : list LogObject) : Prop :=
  exists e, list_find (sameLog info) uniqueList = Some (i, e).

(** * Properties *)

#[local] Arguments String.append !_ _ / : simpl nomatch.
#[local] Arguments Ascii.eqb : simpl never.
#[local] Arguments Char.dot : simpl never.
#[local] Arguments Char.same : simpl never.
#[local] Arguments Char.line_terminator : simpl never.

(** ** The model at work *)

Example trim_ex : Str.trim "  Init failed  " = "Init failed".
Proof. vm_compute. reflexivity. Qed.

Example toLowerCase_ex : Str.toLowerCase "Display" = "display".
Proof. vm_compute. reflexivity. Qed.

Example parseRegex_ex4 :
  (category (parseLine "LogA: foo-bar: x"), type (parseLine "LogA: foo-bar: x"),
   message (parseLine "LogA: foo-bar: x"))
  = (Some "A", None, Some "foo-bar: x").
Proof. vm_compute. reflexivity. Qed.

Example logRegex_ex1 :
  match_global logRegex ("[1][2]LogTemp: Display: Hi" ++ nl ++ "junk" ++ nl ++ "LogCore: x")%string
  = Some ["LogTemp: Display: Hi"; "LogCore: x"].
Proof. vm_compute. reflexivity. Qed.

Example parseRegex_ex1 :
  option_map groups (exec parseRegex "LogTemp: Display: Hi there")
  = Some [("message", "Hi there"); ("type", "Display"); ("logCategory", "Temp")].
Proof. vm_compute. reflexivity. Qed.

Example parseRegex_ex2 :
  option_map groups (exec parseRegex "LogTemp: std::vector: x")
  = Some [("message", "std::vector: x"); ("logCategory", "Temp")].
Proof. vm_compute. reflexivity. Qed.

Example parseRegex_ex3 :
  option_map groups (exec parseRegex "Log:LogA: b") = Some [("message", "b"); ("logCategory", "A")].
Proof. vm_compute. reflexivity. Qed.

Example prefixRegex_ex1 :
  replace prefixRegex "" "[2021.03.04-12.34.56:789][123]LogTemp: x" = "LogTemp: x".
Proof. vm_compute. reflexivity. Qed.

Example prefixRegex_ex2 :
  replace prefixRegex "" "LogA: [x][y] LogB" = "LogA: LogB".
Proof. vm_compute. reflexivity. Qed.

Example scenario_unique :
  uniqueOf (parseText consolidated initialLogData
     ("LogTemp: Display: Hello world" ++ nl ++ "LogTemp: Display: Hello world" ++ nl
      ++ "LogCore: Warning: Init failed" ++ nl)%string None)
  = Ok [ mkLog (Some "Temp") (Some "Display") (Some "Hello world")
               "LogTemp: Display: Hello world" 2 ["LogTemp: Display: Hello world"];
         mkLog (Some "Core") (Some "Warning") (Some "Init failed")
               "LogCore: Warning: Init failed" 1 [] ].
Proof. vm_compute. reflexivity. Qed.

Example sort_ex :
  sortLogsByCount [ mkLog None None None "c" 3 []; mkLog None None None "a" 1 [];
                    mkLog None None None "d" 3 []; mkLog None None None "b" 2 [] ]
  = Ok [ mkLog None None None "a" 1 []; mkLog None None None "b" 2 [];
         mkLog None None None "c" 3 []; mkLog None None None "d" 3 [] ].
Proof. vm_compute. reflexivity. Qed.

(** ** The sorter on the empty list *)

(** C10: on the empty unique-entry list the sorter throws instead of
    returning an empty ordering.  The [reduce] of line 309 has no initial
    value and runs before [logger.debug] looks at the debug setting, which
    is why the function does not even take the settings. *)
Theorem sortLogsByCount_empty_throws : sortLogsByCount [] = Throw TypeError.
Proof. reflexivity. Qed.

(** ** Missing sources *)

Lemma readFileSync_missing env path :
  existsSync env path = false -> exists e, readFileSync env path = Throw e.
Proof.
  destruct path as [p|]; simpl; [|by eexists].
  intros H. apply bool_decide_eq_false in H.
  destruct (files env !! p) as [[text|]|] eqn:E; try by eexists.
  destruct H. by eexists.
Qed.

Lemma readFileSync_never_stalls env path : readFileSync env path <> OutOfFuel.
Proof.
  destruct path as [p|]; simpl; [|done].
  by destruct (files env !! p) as [[?|]|].
Qed.

Lemma loadText_unreadable settings env fileNames : forall content fileName e0,
  fileName ∈ fileNames ->
  readFileSync env (getPathToFile settings env fileName) = Throw e0 ->
  exists e, loadText settings env content fileNames = Throw e.
Proof.
  induction fileNames as [|f rest IH]; intros content fileName e0 Hin Hread.
  - by apply elem_of_nil in Hin.
  - simpl. destruct (readFileSync env (getPathToFile settings env f)) as [text|e|] eqn:E.
    + apply elem_of_cons in Hin as [->|Hin]; [congruence|].
      simpl. by eapply IH.
    + by exists e.
    + by apply readFileSync_never_stalls in E.
Qed.

(** C4 (the code departs from the claim): a source that cannot be located
    or read aborts the whole run.  [loadText] reads every file before the
    loop of lines 496-502 asks [existsSync], so [readFileSync] throws first;
    no file is parsed and no report is produced. *)
Theorem run_unreadable_source_aborts settings env st fileList fileName e0 :
  fileName ∈ fileList ->
  readFileSync env (getPathToFile settings env fileName) = Throw e0 ->
  exists e, run settings env st fileList = Throw e.
Proof.
  intros Hin Hread. unfold run.
  destruct fileList as [|f rest]; [by apply elem_of_nil in Hin|].
  destruct (loadText_unreadable settings env (f :: rest) (textContent st) fileName e0
              Hin Hread) as [e ->].
  by exists e.
Qed.

Lemma run_unreadable_source_aborts_witness :
  exists e, run perFile (mkEnv "C:" oneGoodFile) initialState ["good.log"; "missing.log"]
            = Throw e.
Proof.
  apply (run_unreadable_source_aborts perFile (mkEnv "C:" oneGoodFile) initialState
           ["good.log"; "missing.log"] "missing.log" ENOENT).
  - apply list_elem_of_In. simpl. auto.
  - vm_compute. reflexivity.
Defined.

(** The guarded branch of the loop cannot keep its promise either:
    [logger.error] raises. *)
Lemma parseFiles_vanished_file settings env st fileName rest :
  existsSync env (getPathToFile settings env fileName) = false ->
  parseFiles settings env st (fileName :: rest) = Throw ReferenceError.
Proof. intros H. simpl. by rewrite H. Qed.

(** ** The type tally *)

Lemma tallyType_absent counts info : type info = None -> tallyType counts info = counts.
Proof. intros H. unfold tallyType. by rewrite H. Qed.

(** C6 (the code departs from the claim): the loop of lines 234-250 has no
    branch for an absent type, so such an entry reaches no bucket: [general]
    stays 0 and the buckets sum to 0 for one unique entry, which is the
    mismatch that line 253 reports. *)
Theorem tally_skips_absent_type :
  exists data logInfo,
    parseText perFile initialLogData "LogTemp: hello" None = Ok (data, logInfo) /\
    type <$> uniqueList logInfo = [None] /\
    typeCounts logInfo !! "general" = Some (Num 0) /\
    sumValues (typeCounts logInfo) = Num 0 /\
    typeCountsMismatch logInfo = true.
Proof. do 2 eexists. split; [vm_compute; reflexivity|]. vm_compute. auto. Qed.

(** ** The filtered report *)

Lemma filterTally_fields newInfo log newInfo' :
  filterTally newInfo log = Ok newInfo' ->
  uniqueList newInfo' = uniqueList newInfo /\ totalCount newInfo' = totalCount newInfo.
Proof.
  unfold filterTally.
  destruct (strictEq (type log) "Error"); [by intros [= <-]|].
  destruct (strictEq (type log) "Warning"); [by intros [= <-]|].
  destruct (truthy (type log)); [done|]. by intros [= <-].
Qed.

Lemma filterCategory_fields newInfo log :
  uniqueList (filterCategory newInfo log) = uniqueList newInfo /\
  totalCount (filterCategory newInfo log) = totalCount newInfo.
Proof.
  unfold filterCategory.
  destruct (categories newInfo !! propertyKey (category log)) as [n|]; [|done].
  by destruct (n =? 0).
Qed.

(** When [filterLogList] returns, its view holds the entries that the filter
    lets through, and its total is the sum of their counts. *)
Lemma filterLoop_total settings logList : forall newInfo newInfo',
  filterLoop settings newInfo logList = Ok newInfo' ->
  uniqueList newInfo' = uniqueList newInfo ++ kept settings logList /\
  totalCount newInfo' = totalCount newInfo + sumCounts (kept settings logList).
Proof.
  induction logList as [|log rest IH]; intros newInfo newInfo' Hrun.
  - injection Hrun as <-. unfold kept. simpl. rewrite app_nil_r. split; [done|lia].
  - simpl in Hrun. unfold filterStep in Hrun. unfold kept. rewrite filter_cons.
    destruct (filterLog settings log) eqn:Hf; simpl in Hrun.
    + rewrite decide_False by done. by apply IH.
    + rewrite decide_True by done.
      destruct (filterTally _ log) as [tallied| |] eqn:Ht; simpl in Hrun; [|done..].
      apply IH in Hrun as [Hu Ht'].
      destruct (filterCategory_fields tallied log) as [Hu1 Ht1].
      destruct (filterTally_fields _ _ _ Ht) as [Hu2 Ht2].
      rewrite Hu1, Hu2 in Hu. rewrite Ht1, Ht2 in Ht'. simpl in Hu, Ht'.
      split.
      * rewrite Hu. by rewrite <- app_assoc.
      * rewrite Ht'. simpl. unfold kept. lia.
Qed.

(** C3 (the code departs from the claim): a kept entry adds its
    [occurrenceCount] to the total but only 1 to the bucket [errors]; the
    branch for the other types would add the count, but it reads the unbound
    name [logInfo] and raises. *)
Theorem filterLogList_error_bucket_by_one :
  (exists result newInfo,
     run consolidated (mkEnv "C:" twoErrors) initialState ["a.log"] = Ok result /\
     report result = Some newInfo /\
     uniqueList newInfo = [errorTwice] /\
     totalCount newInfo = 2 /\
     typeCounts newInfo !! "errors" = Some (Num 1)) /\
  filterLogList consolidated
    [mkLog (Some "A") (Some "Display") (Some "x") "LogA: Display: x" 2 ["LogA: Display: x"]]
  = Throw ReferenceError.
Proof.
  split; [|vm_compute; reflexivity].
  do 2 eexists. split; [vm_compute; reflexivity|]. vm_compute. auto.
Qed.

(** ** Category counts *)

Lemma countCategory_count logInfo info c :
  c <> "" -> c <> "__proto__" ->
  categoryCount (countCategory logInfo info) c
  = categoryCount logInfo c + (if bool_decide (category info = Some c) then 1 else 0).
Proof.
  intros Hne Hproto. unfold countCategory, categoryCount.
  destruct (category info) as [k|] eqn:Ek; simpl.
  - destruct (bool_decide (is_Some (categories logInfo !! k))) eqn:Hk.
    + apply bool_decide_eq_true in Hk as [v Hv]. simpl.
      rewrite lookup_alter. case_bool_decide as Hc.
      * inversion Hc; subst k. rewrite decide_True by done. rewrite Hv. simpl. lia.
      * rewrite decide_False by congruence. lia.
    + apply bool_decide_eq_false in Hk.
      destruct (String.eqb_spec k ""); simpl.
      * subst k. rewrite bool_decide_eq_false_2 by congruence. lia.
      * unfold assign. destruct (String.eqb_spec k "__proto__"); simpl.
        -- rewrite bool_decide_eq_false_2 by congruence. lia.
        -- case_bool_decide as Hc.
           ++ inversion Hc; subst k. rewrite lookup_insert_eq.
              destruct (categories logInfo !! c) eqn:E; [by destruct Hk|]. simpl. lia.
           ++ rewrite lookup_insert_ne by congruence. lia.
  - repeat case_bool_decide; simplify_eq; simpl; lia.
Qed.

Lemma occurrences_cons c r rest :
  occurrences c (r :: rest)
  = (if bool_decide (category r = Some c) then 1 else 0) + occurrences c rest.
Proof.
  unfold occurrences. rewrite filter_cons.
  case_bool_decide; [rewrite decide_True by done|rewrite decide_False by done];
    simpl; lia.
Qed.

Lemma processOne_valid logInfo info :
  invalidType info = false ->
  processOne logInfo info
  = Ok (countCategory (setUniqueList (foldUnique (uniqueList logInfo) info) logInfo) info).
Proof. intros H. unfold processOne. by rewrite H. Qed.

Lemma processAll_categories c matchArray : forall logInfo,
  c <> "" -> c <> "__proto__" ->
  Forall (fun r => invalidType r = false) matchArray ->
  exists logInfo',
    processAll logInfo matchArray = Ok logInfo' /\
    categoryCount logInfo' c = categoryCount logInfo c + occurrences c matchArray.
Proof.
  induction matchArray as [|r rest IH]; intros logInfo Hne Hproto Hvalid.
  - exists logInfo. split; [done|]. unfold occurrences. simpl. lia.
  - apply Forall_cons in Hvalid as [Hr Hrest]. simpl.
    rewrite (processOne_valid _ _ Hr). simpl.
    destruct (IH (countCategory (setUniqueList (foldUnique (uniqueList logInfo) r) logInfo) r)
                Hne Hproto Hrest) as (logInfo' & -> & Hc).
    exists logInfo'. split; [done|].
    rewrite Hc, countCategory_count, occurrences_cons by done.
    unfold categoryCount. simpl. lia.
Qed.

(** C1, as the code has it: the aggregation fold adds to the count of a
    category one for every record (raw occurrence) of that category, so in a
    fresh report the count of a present category is the number of its
    records, and in the consolidated report it is the earlier count plus
    that number.  The category names are the non-empty ones other than
    [__proto__], and the type tokens are those that pass the validation of
    line 228. *)
Theorem category_count_per_occurrence settings data matchArray fileName c :
  c <> "" -> c <> "__proto__" ->
  Forall (fun r => invalidType r = false) matchArray ->
  exists data' logInfo,
    processParsedLog settings data matchArray fileName = Ok (data', logInfo) /\
    categoryCount logInfo c
    = (if consolidate settings then categoryCount (self data) c else 0)
      + occurrences c matchArray.
Proof.
  intros Hne Hproto Hvalid. unfold processParsedLog.
  destruct (consolidate settings).
  - destruct (processAll_categories c matchArray
                (setTotalCount (totalCount (self data) + Z.of_nat (length matchArray)) (self data))
                Hne Hproto Hvalid) as (logInfo' & -> & Hc).
    simpl. do 2 eexists. split; [reflexivity|]. exact Hc.
  - destruct (processAll_categories c matchArray
                (freshLogInfo (Z.of_nat (length matchArray))) Hne Hproto Hvalid)
      as (logInfo' & -> & Hc).
    simpl. do 2 eexists. split; [reflexivity|].
    assert (categoryCount (freshLogInfo (Z.of_nat (length matchArray))) c = 0) as H0.
    { unfold categoryCount, freshLogInfo. simpl.
      destruct (decide (c = "general")) as [->|Hg].
      - by rewrite lookup_insert_eq.
      - rewrite lookup_insert_ne by done. by rewrite lookup_empty. }
    rewrite H0 in Hc.
    destruct (truthy fileName); exact Hc.
Qed.

Lemma category_count_per_occurrence_witness :
  exists data' logInfo,
    processParsedLog perFile initialLogData twoTemp None = Ok (data', logInfo) /\
    categoryCount logInfo "Temp" = 0 + occurrences "Temp" twoTemp.
Proof.
  apply (category_count_per_occurrence perFile initialLogData twoTemp None "Temp").
  - discriminate.
  - discriminate.
  - repeat constructor.
Defined.

(** The two identical lines are one unique entry, and its category is
    counted twice. *)
Lemma category_count_not_per_unique_entry :
  exists data logInfo,
    parseText perFile initialLogData ("LogTemp: a" +:+ nl +:+ "LogTemp: a") None
    = Ok (data, logInfo) /\
    ~ countedPerUniqueEntry logInfo.
Proof.
  do 2 eexists. split; [vm_compute; reflexivity|].
  intros H.
  specialize (H (mkLog (Some "Temp") None (Some "a") "LogTemp: a" 2 ["LogTemp: a"]) "Temp").
  simpl in H.
  assert (Some 2 = Some 1) as Habs; [|discriminate Habs].
  apply H; [|reflexivity]. apply list_elem_of_In. simpl. auto.
Qed.

(** A record without a category leaves the key [general] of the category
    mapping alone: line 224 increments a property [general] of the report
    itself, which [undefined++] turns into [NaN]. *)
Lemma absent_category_misses_general :
  exists data logInfo,
    parseText perFile initialLogData "Log:abc" None = Ok (data, logInfo) /\
    category <$> uniqueList logInfo = [None] /\
    categories logInfo !! "general" = Some 0 /\
    general logInfo = Some NaN.
Proof. do 2 eexists. split; [vm_compute; reflexivity|]. vm_compute. auto. Qed.

(** The category [__proto__] is never counted: line 222 assigns to the
    prototype slot of the mapping, which ignores a number, so no property
    is created. *)
Lemma category_proto_not_counted :
  exists data logInfo,
    parseText perFile initialLogData "Log__proto__: b" None = Ok (data, logInfo) /\
    category <$> uniqueList logInfo = [Some "__proto__"] /\
    categoryCount logInfo "__proto__" = 0.
Proof. do 2 eexists. split; [vm_compute; reflexivity|]. vm_compute. auto. Qed.

(** ** Deduplication *)

(** A type token with a character outside [\w\s] ends the fold: the
    validation of line 228 calls [logger.error]. *)
Lemma invalid_type_aborts_fold :
  parseText perFile initialLogData "LogCore: Bad!Type: msg" None = Throw ReferenceError.
Proof. vm_compute. reflexivity. Qed.

Lemma countCategory_uniqueList logInfo info :
  uniqueList (countCategory logInfo info) = uniqueList logInfo.
Proof.
  unfold countCategory.
  destruct (hasKey _ _); [done|]. by destruct (truthy _).
Qed.

Lemma processAll_valid matchArray : forall logInfo,
  Forall (fun r => invalidType r = false) matchArray ->
  processAll logInfo matchArray = Ok (foldl foldStep logInfo matchArray).
Proof.
  induction matchArray as [|r rest IH]; intros logInfo Hvalid; [done|].
  apply Forall_cons in Hvalid as [Hr Hrest]. simpl.
  rewrite (processOne_valid _ _ Hr). simpl. by apply IH.
Qed.

Lemma foldStep_uniqueList matchArray : forall logInfo,
  uniqueList (foldl foldStep logInfo matchArray)
  = foldl foldUnique (uniqueList logInfo) matchArray.
Proof.
  induction matchArray as [|r rest IH]; intros logInfo; [done|].
  simpl. rewrite IH. unfold foldStep. by rewrite countCategory_uniqueList.
Qed.

(** The unique entries that [processParsedLog] reports, for records whose
    types pass the validation. *)
Lemma processParsedLog_uniqueList settings data matchArray fileName :
  Forall (fun r => invalidType r = false) matchArray ->
  exists data' logInfo,
    processParsedLog settings data matchArray fileName = Ok (data', logInfo) /\
    uniqueList logInfo
    = foldl foldUnique (if consolidate settings then uniqueList (self data) else [])
        matchArray.
Proof.
  intros Hvalid. unfold processParsedLog.
  rewrite (processAll_valid _ _ Hvalid). simpl.
  destruct (consolidate settings); simpl.
  - do 2 eexists. split; [reflexivity|]. simpl. by rewrite foldStep_uniqueList.
  - do 2 eexists. split; [reflexivity|].
    destruct (truthy fileName); simpl; by rewrite foldStep_uniqueList.
Qed.

Lemma foldUnique_wellCounted uniqueList info :
  Forall wellCounted uniqueList -> wellCounted info ->
  Forall wellCounted (foldUnique uniqueList info).
Proof.
  intros Hall Hinfo. unfold foldUnique.
  destruct (list_find (sameLog info) uniqueList) as [[firstIndex found]|].
  - apply Forall_alter; [done|].
    intros e _ He. unfold wellCounted, addSibling in *. simpl.
    rewrite length_app. simpl. lia.
  - apply Forall_app. split; [done|]. by constructor.
Qed.

Lemma foldUnique_again r n :
  stripPrefix (logText r) = logText r ->
  foldUnique [folded r n] r = [folded r (S n)].
Proof.
  intros Hstrip. unfold foldUnique. simpl.
  rewrite decide_True by (unfold sameLog; simpl; exact Hstrip).
  simpl. unfold addSibling, folded. simpl. f_equal. f_equal.
  - lia.
  - rewrite <- app_assoc. f_equal.
    change (logText r :: replicate n (logText r)) with (replicate (S n) (logText r)).
    by rewrite replicate_S_end.
Qed.

Lemma foldUnique_first r :
  count r = 1 -> siblings r = [] -> foldUnique [] r = [folded r 0].
Proof.
  intros Hcount Hsib. destruct r as [c t m x n sib]. simpl in *. subst.
  reflexivity.
Qed.

Lemma foldUnique_replicate r m : forall n,
  stripPrefix (logText r) = logText r ->
  foldl foldUnique [folded r n] (replicate m r) = [folded r (n + m)].
Proof.
  induction m as [|m IH]; intros n Hstrip; simpl.
  - by rewrite Nat.add_0_r.
  - rewrite foldUnique_again by done. rewrite IH by done. do 2 f_equal. lia.
Qed.

(** Copies of one record whose raw text survives the prefix stripping. *)
Lemma processParsedLog_replicate settings data r N fileName :
  (1 <= N)%nat ->
  uniqueList (self data) = [] ->
  count r = 1 -> siblings r = [] ->
  stripPrefix (logText r) = logText r ->
  invalidType r = false ->
  exists data' logInfo,
    processParsedLog settings data (replicate N r) fileName = Ok (data', logInfo) /\
    uniqueList logInfo
    = [mkLog (category r) (type r) (message r) (logText r)
             (Z.of_nat N) (replicate (N - 1) (logText r))].
Proof.
  intros HN Hempty Hcount Hsib Hstrip Hvalid.
  destruct (processParsedLog_uniqueList settings data (replicate N r) fileName)
    as (data' & logInfo & Hrun & Hunique).
  { apply Forall_replicate. exact Hvalid. }
  exists data', logInfo. split; [exact Hrun|].
  rewrite Hunique, Hempty.
  replace (if consolidate settings then [] else []) with (@nil LogObject)
    by (by destruct (consolidate settings)).
  destruct N as [|N]; [lia|].
  rewrite replicate_S. cbn [foldl].
  rewrite (foldUnique_first r Hcount Hsib), foldUnique_replicate by done.
  unfold folded. rewrite Hcount, Hsib. cbn [app].
  replace (S N - 1)%nat with (0 + N)%nat by lia.
  do 2 f_equal. lia.
Qed.

(** C8, as the code has it: [N >= 1] records with the same raw text, folded
    into an empty report, leave exactly one unique entry with
    [occurrenceCount = N] and [N-1] sibling texts, when the prefix stripping
    of line 208 leaves that raw text as it is and its type passes the
    validation; and every fold step keeps
    [occurrenceCount = 1 + length siblingTexts] for every unique entry. *)
Theorem identical_lines_fold_into_one settings data r N fileName :
  (1 <= N)%nat ->
  uniqueList (self data) = [] ->
  count r = 1 -> siblings r = [] ->
  stripPrefix (logText r) = logText r ->
  invalidType r = false ->
  (exists data' logInfo,
     processParsedLog settings data (replicate N r) fileName = Ok (data', logInfo) /\
     uniqueList logInfo
     = [mkLog (category r) (type r) (message r) (logText r)
              (Z.of_nat N) (replicate (N - 1) (logText r))]) /\
  (forall uniqueList info,
     Forall wellCounted uniqueList -> wellCounted info ->
     Forall wellCounted (foldUnique uniqueList info)).
Proof.
  intros HN Hempty Hcount Hsib Hstrip Hvalid.
  split; [by apply processParsedLog_replicate|apply foldUnique_wellCounted].
Qed.

Lemma identical_lines_fold_into_one_witness :
  (exists data' logInfo,
     processParsedLog consolidated initialLogData
       (replicate 3 (parseLine "LogTemp: Display: Hello world")) None = Ok (data', logInfo) /\
     uniqueList logInfo
     = [mkLog (Some "Temp") (Some "Display") (Some "Hello world")
              "LogTemp: Display: Hello world" 3
              (replicate 2 "LogTemp: Display: Hello world")]) /\
  (forall uniqueList info,
     Forall wellCounted uniqueList -> wellCounted info ->
     Forall wellCounted (foldUnique uniqueList info)).
Proof.
  apply (identical_lines_fold_into_one consolidated initialLogData
           (parseLine "LogTemp: Display: Hello world") 3 None).
  - lia.
  - reflexivity.
  - reflexivity.
  - reflexivity.
  - vm_compute. reflexivity.
  - vm_compute. reflexivity.
Defined.

(** A line with a bracketed pair in front of a later [Log] differs from its
    own stripped form, so its second copy finds no entry to join. *)
Lemma identical_lines_stay_apart :
  exists data logInfo,
    processParsedLog perFile initialLogData
      (replicate 2 (parseLine "LogA: [x][y]LogB")) None = Ok (data, logInfo) /\
    logText <$> uniqueList logInfo = ["LogA: [x][y]LogB"; "LogA: [x][y]LogB"] /\
    count <$> uniqueList logInfo = [1; 1].
Proof. do 2 eexists. split; [vm_compute; reflexivity|]. vm_compute. auto. Qed.


(** ** Strings *)

Lemma append_nil_r (s : string) : s +:+ "" = s.
Proof. induction s as [|c s IH]; simpl; [done|]. by rewrite IH. Qed.

Lemma append_assoc (x y z : string) : (x +:+ y) +:+ z = x +:+ (y +:+ z).
Proof. induction x as [|c x IH]; simpl; [done|]. by rewrite IH. Qed.

Lemma length_append (x y : string) :
  String.length (x +:+ y) = (String.length x + String.length y)%nat.
Proof. induction x as [|c x IH]; simpl; [done|]. by rewrite IH. Qed.

Lemma take_append (x y : string) : Str.take (String.length x) (x +:+ y) = x.
Proof. induction x as [|c x IH]; simpl; [by destruct y|]. by rewrite IH. Qed.

Lemma consumed_append (x y : string) : consumed (x +:+ y) y = x.
Proof.
  unfold consumed. rewrite length_append.
  replace (String.length x + String.length y - String.length y)%nat
    with (String.length x) by lia.
  apply take_append.
Qed.

Lemma lineHead_lineTail s : lineHead s +:+ lineTail s = s.
Proof.
  induction s as [|c s IH]; simpl; [done|].
  destruct (Char.dot c); simpl; [by rewrite IH|done].
Qed.

Lemma lineHead_all_dot s : Str.all Char.dot (lineHead s) = true.
Proof.
  induction s as [|c s IH]; simpl; [done|].
  destruct (Char.dot c) eqn:E; simpl; [by rewrite E|done].
Qed.

Lemma lineTail_endsLine s : endsLine (lineTail s).
Proof.
  induction s as [|c s IH]; simpl; [done|].
  destruct (Char.dot c) eqn:E; [done|].
  simpl. unfold Char.dot in E. by destruct (Char.line_terminator c).
Qed.

Lemma lineHead_append x y :
  Str.all Char.dot x = true -> endsLine y -> lineHead (x +:+ y) = x.
Proof.
  induction x as [|c x IH]; simpl; intros Hx Hy.
  - destruct y as [|d y]; simpl; [done|].
    simpl in Hy. unfold Char.dot. by rewrite Hy.
  - apply andb_true_iff in Hx as [Hc Hx]. rewrite Hc. by rewrite IH.
Qed.

Lemma lineTail_append x y :
  Str.all Char.dot x = true -> endsLine y -> lineTail (x +:+ y) = y.
Proof.
  induction x as [|c x IH]; simpl; intros Hx Hy.
  - destruct y as [|d y]; simpl; [done|].
    simpl in Hy. unfold Char.dot. by rewrite Hy.
  - apply andb_true_iff in Hx as [Hc Hx]. rewrite Hc. by apply IH.
Qed.

(** ** The extractor pattern *)

Lemma star_total {R} p s (f : string -> R) :
  star p s (fun rest => Some (f rest))
  = Some (f ((fix dropWhile s := match s with
                                 | String c s' => if p c then dropWhile s' else s
                                 | EmptyString => EmptyString
                                 end) s)).
Proof.
  induction s as [|c s IH]; simpl; [done|].
  destruct (p c); [|done]. by rewrite IH.
Qed.

Lemma star_dot_total {R} s (f : string -> R) :
  star Char.dot s (fun rest => Some (f rest)) = Some (f (lineTail s)).
Proof. by rewrite star_total. Qed.

Lemma star_dot_colon {R} s (f : string -> R) :
  star Char.dot s
    (fun s' => match s' with
               | String d s'' =>
                   if Ascii.eqb ":" d then star Char.dot s'' (fun rest => Some (f rest))
                   else None
               | EmptyString => None
               end)
  = if Str.any (Char.same ":") (lineHead s) then Some (f (lineTail s)) else None.
Proof.
  induction s as [|c s IH]; simpl; [done|].
  destruct (Char.dot c) eqn:Hdot; simpl.
  - rewrite IH. destruct (Str.any (Char.same ":") (lineHead s)).
    + by rewrite orb_true_r.
    + rewrite orb_false_r. unfold Char.same.
      destruct (Ascii.eqb ":" c); [|done]. apply star_dot_total.
  - destruct (Ascii.eqb_spec ":" c) as [<-|]; [|done]. discriminate Hdot.
Qed.

(** The extractor pattern at the start of [s]: the marker has to be there
    and a colon has to follow on the same line; the match is the rest of the
    line. *)
Lemma here_logRegex s :
  here logRegex s
  = if Str.starts_with "Log" s && Str.any (Char.same ":") (lineHead (Str.drop 3 s))
    then Some (Result "" (lineHead s) (lineTail s) [])
    else None.
Proof.
  unfold here, logRegex.
  destruct s as [|a [|b [|c s]]]; simpl;
    repeat (match goal with
            | |- context [Ascii.eqb ?x ?y] => destruct (Ascii.eqb_spec x y); subst; simpl
            end); try done.
  rewrite (star_dot_colon s
             (fun rest => Result "" (consumed (String "L" (String "o" (String "g" s))) rest)
                            rest [])).
  destruct (Str.any (Char.same ":") (lineHead s)); [|done].
  do 2 f_equal.
  transitivity (consumed (("Log" +:+ lineHead s) +:+ lineTail s) (lineTail s));
    [by rewrite append_assoc, lineHead_lineTail|].
  apply consumed_append.
Qed.

Lemma starts_with_Log s :
  Str.starts_with "Log" s = true -> exists s3, s = "Log" +:+ s3.
Proof.
  destruct s as [|a [|b [|c s]]]; simpl;
    repeat (match goal with
            | |- context [Ascii.eqb ?x ?y] => destruct (Ascii.eqb_spec x y); subst; simpl
            end); try done.
  intros _. by exists s.
Qed.

Lemma here_logRegex_Some s m :
  here logRegex s = Some m -> matched m = lineHead s /\ isCandidate (lineHead s).
Proof.
  rewrite here_logRegex.
  destruct (Str.starts_with "Log" s) eqn:Hlog; [|done].
  destruct (Str.any (Char.same ":") (lineHead (Str.drop 3 s))) eqn:Hcolon; [|done].
  simpl. intros [= <-]. split; [done|].
  apply starts_with_Log in Hlog as [s3 ->].
  change (lineHead ("Log" +:+ s3)) with ("Log" +:+ lineHead s3).
  split; [done|]. split.
  - exact Hcolon.
  - change (Str.all Char.dot ("Log" +:+ lineHead s3))
      with (Str.all Char.dot (lineHead s3)).
    apply lineHead_all_dot.
Qed.

Lemma here_logRegex_empty : here logRegex "" = None.
Proof. reflexivity. Qed.

(** Every candidate is a piece of the input: it starts at a marker and runs
    to the end of that line. *)
Lemma scan_candidates s : forall skip c,
  c ∈ scan logRegex s skip ->
  exists pre post, s = pre +:+ c +:+ post /\ isCandidate c /\ endsLine post.
Proof.
  induction s as [|a s IH]; intros skip c Hc.
  - cbn [scan] in Hc. rewrite here_logRegex_empty in Hc.
    destruct skip; by apply elem_of_nil in Hc.
  - cbn [scan] in Hc. destruct skip as [|n].
    + destruct (here logRegex (String a s)) as [m|] eqn:Hm.
      * apply elem_of_cons in Hc as [->|Hc].
        -- apply here_logRegex_Some in Hm as [-> Hcand].
           exists "", (lineTail (String a s)). split; [|split].
           ++ by rewrite lineHead_lineTail.
           ++ exact Hcand.
           ++ apply lineTail_endsLine.
        -- destruct (IH _ _ Hc) as (pre & post & -> & H1 & H2).
           by exists (String a pre), post.
      * destruct (IH _ _ Hc) as (pre & post & -> & H1 & H2).
        by exists (String a pre), post.
    + destruct (IH _ _ Hc) as (pre & post & -> & H1 & H2).
      by exists (String a pre), post.
Qed.

Lemma candidates_scan input : candidates input = scan logRegex input 0.
Proof.
  unfold candidates, extract, match_global.
  by destruct (scan logRegex input 0).
Qed.

(** C5, as the code has it: every candidate begins with the marker [Log],
    holds a colon behind the marker and no line terminator, and is the part
    of one line of the input that runs from that marker to the end of the
    line; what stands in front of the marker on the same line is dropped,
    it does not keep the line out. *)
Theorem candidates_are_line_tails input c :
  c ∈ candidates input ->
  exists pre post,
    input = pre +:+ c +:+ post /\
    Str.starts_with "Log" c = true /\
    Str.any (Char.same ":") (Str.drop 3 c) = true /\
    Str.all Char.dot c = true /\
    endsLine post.
Proof.
  rewrite candidates_scan. intros Hc.
  destruct (scan_candidates _ _ _ Hc) as (pre & post & -> & (H1 & H2 & H3) & H4).
  by exists pre, post.
Qed.

Lemma candidates_are_line_tails_witness :
  exists pre post,
    "[1][2]LogTemp: x" +:+ nl +:+ "junk" = pre +:+ "LogTemp: x" +:+ post /\
    Str.starts_with "Log" "LogTemp: x" = true /\
    Str.any (Char.same ":") (Str.drop 3 "LogTemp: x") = true /\
    Str.all Char.dot "LogTemp: x" = true /\
    endsLine post.
Proof.
  apply (candidates_are_line_tails ("[1][2]LogTemp: x" +:+ nl +:+ "junk") "LogTemp: x").
  apply list_elem_of_In. vm_compute. auto.
Defined.

(** The candidate of a line with a prefix is not a line of the input. *)
Lemma extractor_takes_part_of_line : ~ extractsWholeLines "[1][2]LogTemp: x".
Proof.
  intros H. destruct (H "LogTemp: x") as [Hline _].
  - apply list_elem_of_In. vm_compute. auto.
  - apply list_elem_of_In in Hline. vm_compute in Hline.
    destruct Hline as [Heq|[]]. discriminate Heq.
Qed.

(** ** Texts without a candidate *)

Lemma dot_line_terminator c : Char.dot c = negb (Char.line_terminator c).
Proof. reflexivity. Qed.

Lemma lines_head s : exists ls, lines s = lineHead s :: ls.
Proof.
  induction s as [|c s [ls IH]]; simpl; [by eexists|].
  rewrite dot_line_terminator. destruct (Char.line_terminator c); simpl; [by eexists|].
  rewrite IH. by eexists.
Qed.

Lemma starts_with_lineHead p : forall s,
  Str.all Char.dot p = true ->
  Str.starts_with p (lineHead s) = Str.starts_with p s.
Proof.
  induction p as [|c p IH]; intros s Hp; [done|].
  simpl in Hp. apply andb_true_iff in Hp as [Hc Hp].
  destruct s as [|d s]; [done|]. simpl.
  destruct (Char.dot d) eqn:Hd; simpl.
  - by rewrite IH.
  - destruct (Ascii.eqb_spec c d) as [->|]; [congruence|done].
Qed.

Lemma lineHead_idem s : lineHead (lineHead s) = lineHead s.
Proof.
  rewrite <- (append_nil_r (lineHead s)) at 1.
  apply lineHead_append; [apply lineHead_all_dot|done].
Qed.

(** Whether the pattern matches at the start of a text depends on the first
    line only. *)
Lemma here_logRegex_lineHead s :
  here logRegex (lineHead s) = None -> here logRegex s = None.
Proof.
  rewrite !here_logRegex.
  rewrite (starts_with_lineHead "Log" s) by done.
  destruct (Str.starts_with "Log" s) eqn:Hlog; [|done].
  apply starts_with_Log in Hlog as [s3 ->].
  change (lineHead ("Log" +:+ s3)) with ("Log" +:+ lineHead s3).
  change (Str.drop 3 ("Log" +:+ lineHead s3)) with (lineHead s3).
  change (Str.drop 3 ("Log" +:+ s3)) with s3.
  rewrite lineHead_idem.
  by destruct (Str.any (Char.same ":") (lineHead s3)).
Qed.

Lemma exec_None_here r s : exec r s = None -> here r s = None.
Proof. destruct s; simpl; by destruct (here r _). Qed.

Lemma exec_None_tail r c s : exec r (String c s) = None -> exec r s = None.
Proof.
  simpl. destruct (here r (String c s)); [done|].
  by destruct (exec r s).
Qed.

Lemma lines_tail c s l :
  (forall l', l' ∈ lines (String c s) -> exec logRegex l' = None) ->
  l ∈ lines s -> exec logRegex l = None.
Proof.
  intros H Hl. simpl in H.
  destruct (Char.line_terminator c).
  - apply H. by apply list_elem_of_further.
  - destruct (lines s) as [|l0 ls]; [by apply elem_of_nil in Hl|].
    apply elem_of_cons in Hl as [->|Hl].
    + apply (exec_None_tail _ c). apply H. apply list_elem_of_here.
    + apply H. by apply list_elem_of_further.
Qed.

Lemma scan_no_match s : forall skip,
  (forall l, l ∈ lines s -> exec logRegex l = None) ->
  scan logRegex s skip = [].
Proof.
  induction s as [|c s IH]; intros skip H.
  - cbn [scan]. rewrite here_logRegex_empty. by destruct skip.
  - cbn [scan]. destruct skip as [|n].
    + assert (here logRegex (String c s) = None) as ->.
      { apply here_logRegex_lineHead, exec_None_here, H.
        destruct (lines_head (String c s)) as [ls ->]. apply list_elem_of_here. }
      apply IH. intros l Hl. by apply (lines_tail c s).
    + apply IH. intros l Hl. by apply (lines_tail c s).
Qed.

(** C2 (the code departs from the claim): when no line of the input matches
    the extractor pattern, [input.match] is [null], and [parseText] throws
    at line 127, where it reads the length of the sequence. *)
Theorem parseText_without_candidates_throws settings data input fileName :
  (forall l, l ∈ lines input -> exec logRegex l = None) ->
  parseText settings data input fileName = Throw TypeError.
Proof.
  intros H. unfold parseText, extract, match_global.
  by rewrite (scan_no_match input 0 H).
Qed.

Lemma parseText_without_candidates_throws_witness :
  parseText perFile initialLogData ("engine started" +:+ nl +:+ "Logging off") None
  = Throw TypeError.
Proof.
  apply (parseText_without_candidates_throws perFile initialLogData
           ("engine started" +:+ nl +:+ "Logging off") None).
  intros l Hl. apply list_elem_of_In in Hl. vm_compute in Hl.
  destruct Hl as [<-|[<-|[]]]; vm_compute; reflexivity.
Defined.

(** ** Lines that differ in a bracketed prefix *)

Lemma scan_skip r x : forall y,
  scan r (x +:+ y) (String.length x) = scan r y 0.
Proof. induction x as [|c x IH]; intros y; simpl; [done|]. apply IH. Qed.

Lemma isCandidate_cons line :
  isCandidate line -> exists s3, line = "Log" +:+ s3.
Proof. intros (H & _ & _). by apply starts_with_Log. Qed.

Lemma drop_append n : forall x y,
  (n <= String.length x)%nat -> Str.drop n (x +:+ y) = Str.drop n x +:+ y.
Proof.
  induction n as [|n IH]; intros x y Hn.
  - by destruct x.
  - destruct x as [|c x]; simpl in *; [lia|]. apply IH. lia.
Qed.

(** A candidate at the start of the text is extracted whole, and the scan
    goes on behind it. *)
Lemma scan_line line rest :
  isCandidate line -> endsLine rest ->
  scan logRegex (line +:+ rest) 0 = line :: scan logRegex rest 0.
Proof.
  intros Hcand Hrest.
  destruct (isCandidate_cons line Hcand) as [s3 ->].
  destruct Hcand as (_ & Hcolon & Hdot).
  change (Str.drop 3 ("Log" +:+ s3)) with s3 in Hcolon.
  change (Str.all Char.dot ("Log" +:+ s3)) with (Str.all Char.dot s3) in Hdot.
  change (("Log" +:+ s3) +:+ rest) with (String "L" ("og" +:+ s3 +:+ rest)).
  cbn [scan]. rewrite here_logRegex.
  change (Str.starts_with "Log" (String "L" ("og" +:+ s3 +:+ rest))) with true.
  change (Str.drop 3 (String "L" ("og" +:+ s3 +:+ rest))) with (s3 +:+ rest).
  rewrite (lineHead_append s3 rest Hdot Hrest), Hcolon.
  change (lineHead (String "L" ("og" +:+ s3 +:+ rest)))
    with ("Log" +:+ lineHead (s3 +:+ rest)).
  rewrite (lineHead_append s3 rest Hdot Hrest).
  cbn [andb matched]. f_equal.
  change (Nat.pred (String.length ("Log" +:+ s3))) with (String.length ("og" +:+ s3)).
  change ("og" +:+ s3 +:+ rest) with (("og" +:+ s3) +:+ rest).
  apply scan_skip.
Qed.

Lemma contains_cons p c s :
  contains p (String c s) = false ->
  Str.starts_with p (String c s) = false /\ contains p s = false.
Proof. simpl. intros H. by apply orb_false_iff in H. Qed.

(** A stretch of text without the marker yields nothing and hides nothing,
    when the text behind it starts with the letter [L]. *)
Lemma scan_no_marker x : forall rest,
  contains "Log" x = false ->
  scan logRegex (x +:+ String "L" rest) 0 = scan logRegex (String "L" rest) 0.
Proof.
  induction x as [|c x IH]; intros rest Hx; [done|].
  apply contains_cons in Hx as [Hstart Hx].
  change (String c x +:+ String "L" rest) with (String c (x +:+ String "L" rest)).
  cbn [scan]. rewrite here_logRegex.
  assert (Str.starts_with "Log" (String c (x +:+ String "L" rest)) = false) as ->.
  { destruct x as [|a [|b x]]; simpl in *;
      repeat (match goal with
              | |- context [Ascii.eqb ?x ?y] => destruct (Ascii.eqb_spec x y); subst; simpl
              end); try done. }
  simpl. by apply IH.
Qed.

Lemma scan_line_terminator c s :
  Char.line_terminator c = true ->
  scan logRegex (String c s) 0 = scan logRegex s 0.
Proof.
  intros Hc. cbn [scan]. rewrite here_logRegex.
  assert (Str.starts_with "Log" (String c s) = false) as ->; [|done].
  simpl. destruct (Ascii.eqb_spec "L" c) as [<-|]; [discriminate Hc|done].
Qed.

Lemma scan_nl s : scan logRegex (nl +:+ s) 0 = scan logRegex s 0.
Proof. by apply scan_line_terminator. Qed.

Lemma parseLine_logText s : logText (parseLine s) = s.
Proof. unfold parseLine. by destruct (exec parseRegex s). Qed.

Lemma parseLine_count s : count (parseLine s) = 1.
Proof. unfold parseLine. by destruct (exec parseRegex s). Qed.

Lemma parseLine_siblings s : siblings (parseLine s) = [].
Proof. unfold parseLine. by destruct (exec parseRegex s). Qed.

(** Both orders of the two lines give the same two candidates. *)
Lemma scan_prefixed_pair A B line :
  isCandidate line ->
  contains "Log" (bracketPrefix A B) = false ->
  scan logRegex (bracketPrefix A B +:+ line +:+ nl +:+ line) 0 = [line; line] /\
  scan logRegex (line +:+ nl +:+ bracketPrefix A B +:+ line) 0 = [line; line].
Proof.
  intros Hcand Hprefix.
  assert (scan logRegex line 0 = [line]) as Hlast.
  { rewrite <- (append_nil_r line) at 1. by rewrite scan_line. }
  assert (forall rest, scan logRegex (bracketPrefix A B +:+ line +:+ rest) 0
                       = scan logRegex (line +:+ rest) 0) as Hskip.
  { intros rest. destruct (isCandidate_cons line Hcand) as [s3 ->].
    change (("Log" +:+ s3) +:+ rest) with (String "L" ("og" +:+ s3 +:+ rest)).
    by apply scan_no_marker. }
  split.
  - rewrite Hskip, scan_line by done. by rewrite scan_nl, Hlast.
  - rewrite scan_line by done. rewrite scan_nl.
    rewrite <- (append_nil_r line) at 2. rewrite Hskip.
    by rewrite append_nil_r, Hlast.
Qed.

(** The two lines alone, folded into a report without entries, leave one
    entry of count 2 with one sibling. *)
Lemma prefixed_pair_alone settings data A B line fileName input :
  isCandidate line ->
  contains "Log" (bracketPrefix A B) = false ->
  stripPrefix line = line ->
  invalidType (parseLine line) = false ->
  uniqueList (self data) = [] ->
  input = bracketPrefix A B +:+ line +:+ nl +:+ line \/
  input = line +:+ nl +:+ bracketPrefix A B +:+ line ->
  exists data' logInfo,
    parseText settings data input fileName = Ok (data', logInfo) /\
    uniqueList logInfo
    = [mkLog (category (parseLine line)) (type (parseLine line))
             (message (parseLine line)) line 2 [line]].
Proof.
  intros Hcand Hprefix Hstrip Hvalid Hempty Hinput.
  destruct (scan_prefixed_pair A B line Hcand Hprefix) as [H1 H2].
  assert (extract input = Some [line; line]) as Hextract.
  { unfold extract, match_global. by destruct Hinput as [-> | ->]; rewrite ?H1, ?H2. }
  unfold parseText. rewrite Hextract.
  destruct (processParsedLog_replicate settings data (parseLine line) 2 fileName)
    as (data' & logInfo & Hrun & Hunique).
  - lia.
  - exact Hempty.
  - apply parseLine_count.
  - apply parseLine_siblings.
  - by rewrite parseLine_logText.
  - exact Hvalid.
  - exists data', logInfo. split; [exact Hrun|].
    by rewrite Hunique, parseLine_logText.
Qed.

(** A prefix that holds the marker moves the start of the candidate into
    the prefix. *)
Lemma prefix_with_marker_stays_apart :
  exists data logInfo,
    parseText perFile initialLogData
      (bracketPrefix "Log" "2" +:+ "LogA: b" +:+ nl +:+ "LogA: b") None
    = Ok (data, logInfo) /\
    logText <$> uniqueList logInfo = ["Log][2]LogA: b"; "LogA: b"].
Proof. do 2 eexists. split; [vm_compute; reflexivity|]. vm_compute. auto. Qed.

(** A message that itself holds a bracketed pair in front of [Log] keeps
    the two lines apart: the stored text is stripped, the incoming one is
    not. *)
Lemma prefixed_lines_stay_apart :
  exists data logInfo,
    parseText perFile initialLogData
      (bracketPrefix "1" "2" +:+ "LogA: [x][y]LogB" +:+ nl +:+ "LogA: [x][y]LogB") None
    = Ok (data, logInfo) /\
    logText <$> uniqueList logInfo = ["LogA: [x][y]LogB"; "LogA: [x][y]LogB"] /\
    count <$> uniqueList logInfo = [1; 1].
Proof. do 2 eexists. split; [vm_compute; reflexivity|]. vm_compute. auto. Qed.

(** ** The sorter: arrays *)

Ltac flatten :=
  repeat (rewrite <- !app_assoc || rewrite <- !app_comm_cons); cbn [app].

Lemma get_of_nat (arr : list Z) n : get arr (Z.of_nat n) = arr !! n.
Proof.
  unfold get. destruct (Z.ltb_spec (Z.of_nat n) 0); [lia|]. by rewrite Nat2Z.id.
Qed.

Lemma insert_middle {A} (pre : list A) x v post n :
  n = length pre -> <[n := v]> (pre ++ x :: post) = pre ++ v :: post.
Proof.
  intros ->. replace (length pre) with (length pre + 0)%nat by lia.
  by rewrite insert_app_r.
Qed.

Lemma swap_of_nat (arr : list Z) i j a b :
  arr !! i = Some a -> arr !! j = Some b ->
  swap arr (Z.of_nat i) (Z.of_nat j) = <[j := a]> (<[i := b]> arr).
Proof. intros Hi Hj. unfold swap. by rewrite !get_of_nat, Hi, Hj, !Nat2Z.id. Qed.

Lemma swap_same (arr : list Z) i a :
  arr !! i = Some a -> swap arr (Z.of_nat i) (Z.of_nat i) = arr.
Proof.
  intros Hi. rewrite (swap_of_nat arr i i a a Hi Hi).
  rewrite list_insert_insert_eq. by apply list_insert_id.
Qed.

Lemma lookup_segment (pre mid post : list Z) x y :
  (pre ++ x :: mid ++ y :: post) !! length pre = Some x /\
  (pre ++ x :: mid ++ y :: post) !! (length pre + S (length mid))%nat = Some y.
Proof.
  split; [by apply list_lookup_middle|].
  rewrite app_comm_cons, app_assoc. apply list_lookup_middle.
  rewrite length_app. simpl. lia.
Qed.

(** Swapping the first and the last element of a segment. *)
Lemma swap_segment (pre mid post : list Z) x y :
  swap (pre ++ x :: mid ++ y :: post)
       (Z.of_nat (length pre)) (Z.of_nat (length pre + S (length mid)))
  = pre ++ y :: mid ++ x :: post.
Proof.
  destruct (lookup_segment pre mid post x y) as [Hx Hy].
  rewrite (swap_of_nat _ _ _ x y Hx Hy).
  rewrite (insert_middle pre x y) by done.
  rewrite !app_comm_cons, !app_assoc.
  apply insert_middle. rewrite length_app. simpl. lia.
Qed.

Lemma swap_segment_rev (pre mid post : list Z) x y :
  swap (pre ++ x :: mid ++ y :: post)
       (Z.of_nat (length pre + S (length mid))) (Z.of_nat (length pre))
  = pre ++ y :: mid ++ x :: post.
Proof.
  destruct (lookup_segment pre mid post x y) as [Hx Hy].
  rewrite (swap_of_nat _ _ _ y x Hy Hx).
  rewrite !app_comm_cons, !app_assoc.
  rewrite (insert_middle (pre ++ x :: mid) y x) by (rewrite length_app; simpl; lia).
  rewrite <- !app_assoc, <- !app_comm_cons.
  by apply insert_middle.
Qed.

(** ** The sorter: [partition] *)

(** The loop keeps the array in the shape
    [pre ++ A ++ B ++ rest ++ pivot :: post], with [A] the elements found to
    be at most the pivot, [B] those found to be greater and [rest] the ones
    not yet looked at. *)
Lemma partition_loop_spec rest : forall (pre A B post : list Z) pivot idx pIndex,
  idx = Z.of_nat (length pre + length A + length B) ->
  pIndex = Z.of_nat (length pre + length A) ->
  Forall (fun x => x <= pivot) A ->
  Forall (fun x => pivot < x) B ->
  exists A' B',
    partition_loop (length rest) (pre ++ A ++ B ++ rest ++ pivot :: post)
      (Some pivot) defaultComparer idx pIndex
    = (pre ++ A' ++ B' ++ pivot :: post, Z.of_nat (length pre + length A')) /\
    A' ++ B' ≡ₚ A ++ B ++ rest /\
    Forall (fun x => x <= pivot) A' /\
    Forall (fun x => pivot < x) B'.
Proof.
  induction rest as [|x rest IH]; intros pre A B post pivot idx pIndex Hidx Hp HA HB.
  - exists A, B. subst. simpl. by rewrite app_nil_r.
  - cbn [length partition_loop].
    assert ((pre ++ A ++ B ++ (x :: rest) ++ pivot :: post) !! (length pre + length A + length B)%nat
            = Some x) as Hx.
    { rewrite !app_assoc, <- (app_assoc _ (x :: rest)). apply list_lookup_middle.
      rewrite !length_app. lia. }
    rewrite Hidx, get_of_nat, Hx. cbn [defaultComparer].
    destruct (Z.leb_spec x pivot) as [Hle|Hgt].
    + (* [x] joins [A]; the first element of [B], if any, moves behind *)
      destruct B as [|b B].
      * rewrite Hp. replace (length pre + length A + length [])%nat
          with (length pre + length A)%nat in * by (simpl; lia).
        rewrite (swap_same _ _ x Hx).
        destruct (IH pre (A ++ [x]) [] post pivot
                    (Z.of_nat (length pre + length A) + 1)
                    (Z.of_nat (length pre + length A) + 1))
          as (A' & B' & Hrun & Hperm & HA' & HB').
        { rewrite length_app. simpl. lia. }
        { rewrite length_app. simpl. lia. }
        { apply Forall_app. split; [done|]. by constructor. }
        { constructor. }
        exists A', B'. split; [|split; [|done]].
        -- rewrite <- Hrun. f_equal. by flatten.
        -- rewrite Hperm. by flatten.
      * rewrite Hp.
        replace (pre ++ A ++ (b :: B) ++ (x :: rest) ++ pivot :: post)
          with ((pre ++ A) ++ b :: B ++ x :: (rest ++ pivot :: post))
          by (by flatten).
        replace (length pre + length A + length (b :: B))%nat
          with (length (pre ++ A) + S (length B))%nat
          by (rewrite length_app; simpl; lia).
        replace (length pre + length A)%nat with (length (pre ++ A))
          by (by rewrite length_app).
        rewrite swap_segment_rev.
        destruct (IH pre (A ++ [x]) (B ++ [b]) post pivot
                    (Z.of_nat (length (pre ++ A) + S (length B)) + 1)
                    (Z.of_nat (length (pre ++ A)) + 1))
          as (A' & B' & Hrun & Hperm & HA' & HB').
        { rewrite !length_app. simpl. lia. }
        { rewrite !length_app. simpl. lia. }
        { apply Forall_app. split; [done|]. by constructor. }
        { apply Forall_cons in HB as [Hb HB]. apply Forall_app. split; [done|].
          by constructor. }
        exists A', B'. split; [|split; [|done]].
        -- rewrite <- Hrun. f_equal. by flatten.
        -- rewrite Hperm. flatten. apply Permutation_app_head.
           rewrite <- (Permutation_middle B rest b), <- (Permutation_middle B rest x).
           apply Permutation_swap.
    + (* [x] joins [B] *)
      destruct (IH pre A (B ++ [x]) post pivot (idx + 1) pIndex)
        as (A' & B' & Hrun & Hperm & HA' & HB').
      { rewrite Hidx, length_app. simpl. lia. }
      { done. }
      { done. }
      { apply Forall_app. split; [done|]. constructor; [lia|done]. }
      exists A', B'. split; [|split; [|done]].
      * rewrite <- Hrun, Hidx. f_equal. by flatten.
      * rewrite Hperm. by flatten.
Qed.

(** [partition] puts the pivot between the elements that are at most the
    pivot and those that are greater, and returns its index. *)
Lemma partition_spec (pre mid post : list Z) pivot :
  exists A B,
    partition (pre ++ mid ++ pivot :: post)
      (Z.of_nat (length pre)) (Z.of_nat (length pre + length mid)) defaultComparer
    = (pre ++ A ++ pivot :: B ++ post, Z.of_nat (length pre + length A)) /\
    A ++ B ≡ₚ mid /\
    Forall (fun x => x <= pivot) A /\
    Forall (fun x => pivot < x) B.
Proof.
  unfold partition.
  assert ((pre ++ mid ++ pivot :: post) !! (length pre + length mid)%nat = Some pivot)
    as Hpivot.
  { rewrite app_assoc. apply list_lookup_middle. by rewrite length_app. }
  rewrite get_of_nat, Hpivot.
  replace (Z.to_nat (Z.of_nat (length pre + length mid) - Z.of_nat (length pre)))
    with (length mid) by lia.
  destruct (partition_loop_spec mid pre [] [] post pivot
              (Z.of_nat (length pre)) (Z.of_nat (length pre)))
    as (A' & B' & Hrun & Hperm & HA' & HB'); try (simpl; f_equal; lia); try constructor.
  cbn [app] in Hrun, Hperm. rewrite Hrun.
  assert (length mid = (length A' + length B')%nat) as Hlen.
  { by rewrite <- Hperm, length_app. }
  destruct B' as [|b B'].
  - exists A', []. split; [|by rewrite Hperm].
    f_equal. cbn [app]. rewrite app_nil_r in Hperm.
    replace (length pre + length mid)%nat with (length pre + length A')%nat
      by (simpl in Hlen; lia).
    apply (swap_same _ _ pivot).
    rewrite app_assoc. apply list_lookup_middle. by rewrite length_app.
  - exists A', (B' ++ [b]). split; [|split; [|split; [done|]]].
    + f_equal.
      replace (pre ++ A' ++ (b :: B') ++ pivot :: post)
        with ((pre ++ A') ++ b :: B' ++ pivot :: post) by (by flatten).
      replace (length pre + length A')%nat with (length (pre ++ A'))
        by (by rewrite length_app).
      replace (length pre + length mid)%nat with (length (pre ++ A') + S (length B'))%nat
        by (rewrite length_app; simpl in Hlen; lia).
      rewrite swap_segment. by flatten.
    + rewrite <- Hperm. apply Permutation_app_head.
      symmetry. apply Permutation_cons_append.
    + apply Forall_cons in HB' as [Hb HB']. apply Forall_app. split; [done|].
      by constructor.
Qed.

(** ** The sorter: [quickSort] *)

Lemma quickSort_short fuel (arr : list Z) start end_ comparer :
  end_ <= start -> quickSort fuel arr start end_ comparer = Ok arr.
Proof.
  intros H. destruct fuel; simpl; by destruct (Z.geb_spec start end_); try lia.
Qed.

(** Sorting a segment of the array: the segment [mid] becomes its ascending
    permutation and the rest of the array stays where it is.  The segment
    never needs more fuel than it has elements. *)
Lemma quickSort_spec fuel : forall (pre mid post : list Z),
  (length mid <= fuel)%nat ->
  exists mid',
    quickSort fuel (pre ++ mid ++ post)
      (Z.of_nat (length pre)) (Z.of_nat (length pre + length mid) - 1) defaultComparer
    = Ok (pre ++ mid' ++ post) /\
    mid' ≡ₚ mid /\
    StronglySorted Z.le mid'.
Proof.
  induction fuel as [|fuel IH]; intros pre mid post Hfuel.
  - destruct mid; [|simpl in Hfuel; lia].
    exists []. split; [|split; [done|constructor]].
    apply quickSort_short. simpl. lia.
  - destruct (decide (length mid <= 1)%nat) as [Hshort|Hlong].
    + exists mid. split; [|split; [done|]].
      * apply quickSort_short. lia.
      * destruct mid as [|x [|y mid]]; [constructor|repeat constructor|simpl in Hshort; lia].
    + (* the last element of the segment is the pivot *)
      destruct (exists_last (l := mid)) as (front & pivot & ->);
        [by intros ->; simpl in Hlong; lia|].
      rewrite length_app in *. cbn [length] in *.
      cbn [quickSort].
      destruct (Z.geb_spec (Z.of_nat (length pre))
                  (Z.of_nat (length pre + (length front + 1)) - 1)) as [Hge|_]; [lia|].
      destruct (partition_spec pre front post pivot) as (A & B & Hpart & Hperm & HA & HB).
      replace (pre ++ (front ++ [pivot]) ++ post) with (pre ++ front ++ pivot :: post)
        by (by flatten).
      replace (Z.of_nat (length pre + (length front + 1)) - 1)
        with (Z.of_nat (length pre + length front)) by lia.
      rewrite Hpart.
      assert (length front = (length A + length B)%nat) as Hlen.
      { by rewrite <- Hperm, length_app. }
      (* left of the pivot *)
      destruct (IH pre A (pivot :: B ++ post)) as (A' & HrunA & HpermA & HsortA); [lia|].
      rewrite HrunA. cbn [mbind Outcome_bind].
      (* right of the pivot *)
      assert (length A' = length A) as HlenA by (by rewrite HpermA).
      destruct (IH (pre ++ A' ++ [pivot]) B post) as (B' & HrunB & HpermB & HsortB); [lia|].
      replace ((pre ++ A' ++ [pivot]) ++ B ++ post) with (pre ++ A' ++ pivot :: B ++ post)
        in HrunB by (by flatten).
      replace (Z.of_nat (length (pre ++ A' ++ [pivot])))
        with (Z.of_nat (length pre + length A) + 1) in HrunB
        by (rewrite !length_app; simpl; lia).
      replace (Z.of_nat (length (pre ++ A' ++ [pivot]) + length B) - 1)
        with (Z.of_nat (length pre + length front)) in HrunB
        by (rewrite !length_app; simpl; lia).
      rewrite HrunB.
      exists (A' ++ pivot :: B'). split; [|split].
      * f_equal. by flatten.
      * rewrite HpermA, HpermB, <- Hperm, <- Permutation_middle.
        apply Permutation_cons_append.
      * apply StronglySorted_app_2; [|done|].
        -- intros x1 x2 H1 H2.
           assert (x1 <= pivot).
           { rewrite HpermA in H1. rewrite Forall_forall in HA. by apply HA. }
           apply elem_of_cons in H2 as [->|H2]; [done|].
           rewrite HpermB in H2. rewrite Forall_forall in HB.
           specialize (HB _ H2). lia.
        -- constructor; [done|].
           rewrite HpermB. eapply Forall_impl; [exact HB|]. simpl. lia.
Qed.

(** ** The sorter: grouping by count *)

Lemma filter_hasCount_snoc c (l : list LogObject) x :
  filter (hasCount c) (l ++ [x])
  = filter (hasCount c) l ++ (if decide (count x = c) then [x] else []).
Proof.
  rewrite filter_app. f_equal.
Qed.

Lemma filter_hasCount_nil c (l : list LogObject) :
  (forall e, e ∈ l -> count e <> c) -> filter (hasCount c) l = [].
Proof.
  induction l as [|e l IH]; intros H; [done|].
  rewrite filter_cons. rewrite decide_False.
  - apply IH. intros e' He'. apply H. by apply list_elem_of_further.
  - apply H. apply list_elem_of_here.
Qed.

(** After the grouping loop [numberArray] holds every count once and
    [countMap] maps a count to its entries in their input order. *)
Lemma group_spec uniqueList :
  NoDup (group uniqueList).1 /\
  (forall c, c ∈ (group uniqueList).1 <-> exists e, e ∈ uniqueList /\ count e = c) /\
  (forall c, c ∈ (group uniqueList).1 ->
     (group uniqueList).2 !! c = Some (filter (hasCount c) uniqueList)).
Proof.
  induction uniqueList as [|x l IH] using rev_ind.
  - simpl. split; [constructor|]. split.
    + intros c. split; [by intros ?%elem_of_nil|].
      by intros (e & ?%elem_of_nil & _).
    + by intros c ?%elem_of_nil.
  - unfold group in *. rewrite foldl_snoc.
    destruct (foldl group_step ([], ∅) l) as [numberArray countMap].
    simpl in IH. destruct IH as (Hnodup & Hmem & Hmap).
    unfold group_step. case_bool_decide as Hin; simpl.
    + split; [done|]. split.
      * intros c. rewrite Hmem. split.
        -- intros (e & He & Hc). exists e. split; [|done].
           apply elem_of_app. by left.
        -- intros (e & He & Hc). apply elem_of_app in He as [He|He]; [by exists e|].
           apply list_elem_of_singleton in He as ->. apply Hmem. by rewrite <- Hc.
      * intros c Hc. rewrite filter_hasCount_snoc.
        destruct (decide (count x = c)) as [<-|Hne].
        -- rewrite lookup_alter_eq, (Hmap _ Hc). done.
        -- rewrite lookup_alter_ne by done. rewrite (Hmap _ Hc). by rewrite app_nil_r.
    + split; [|split].
      * apply NoDup_app. split; [done|]. split; [|apply NoDup_singleton].
        intros c Hc ->%list_elem_of_singleton. done.
      * intros c. rewrite elem_of_app, Hmem, list_elem_of_singleton. split.
        -- intros [(e & He & Hc)| ->].
           ++ exists e. split; [|done]. apply elem_of_app. by left.
           ++ exists x. split; [|done]. apply elem_of_app. right.
              by apply list_elem_of_singleton.
        -- intros (e & He & Hc). apply elem_of_app in He as [He|He].
           ++ left. by exists e.
           ++ right. apply list_elem_of_singleton in He as ->. done.
      * intros c Hc. rewrite filter_hasCount_snoc.
        apply elem_of_app in Hc as [Hc| ->%list_elem_of_singleton].
        -- assert (count x <> c) as Hne by (intros Heq; apply Hin; by rewrite Heq).
           rewrite lookup_insert_ne by done. rewrite (Hmap _ Hc).
           rewrite decide_False by done. by rewrite app_nil_r.
        -- rewrite lookup_insert_eq, decide_True by done.
           rewrite filter_hasCount_nil; [done|].
           intros e He Hc. apply Hin. apply Hmem. by exists e.
Qed.

Lemma collect_foldl (countMap : gmap Z (list LogObject)) numberArray : forall newArray,
  foldl (fun newArray count => newArray ++ default [] (countMap !! count))
    newArray numberArray
  = newArray ++ (numberArray ≫= fun c => default [] (countMap !! c)).
Proof.
  induction numberArray as [|c rest IH]; intros newArray; simpl.
  - by rewrite app_nil_r.
  - rewrite IH. by rewrite <- app_assoc.
Qed.

Lemma collect_byCounts uniqueList (countMap : gmap Z (list LogObject)) numberArray :
  (forall c, c ∈ numberArray -> countMap !! c = Some (filter (hasCount c) uniqueList)) ->
  collect countMap numberArray = byCounts uniqueList numberArray.
Proof.
  intros H. unfold collect, byCounts. rewrite collect_foldl. simpl.
  induction numberArray as [|c rest IH]; [done|].
  simpl. rewrite H by apply list_elem_of_here. simpl. f_equal.
  apply IH. intros c' Hc'. apply H. by apply list_elem_of_further.
Qed.

(** ** The sorter: the buckets in ascending order *)

Lemma filter_bind {A B} (P : B -> Prop) `{forall x, Decision (P x)}
    (f : A -> list B) (l : list A) :
  filter P (l ≫= f) = l ≫= (fun a => filter P (f a)).
Proof.
  induction l as [|a l IH]; [done|].
  cbn [mbind list_bind]. by rewrite filter_app, IH.
Qed.

Lemma filter_hasCount_twice c c' (l : list LogObject) :
  filter (hasCount c) (filter (hasCount c') l)
  = if decide (c = c') then filter (hasCount c) l else [].
Proof.
  destruct (decide (c = c')) as [->|Hne].
  - rewrite list_filter_filter. apply list_filter_iff. intros e. tauto.
  - induction l as [|e l IH]; [done|].
    rewrite (filter_cons (hasCount c')).
    destruct (decide (hasCount c' e)) as [He|He]; [|exact IH].
    rewrite filter_cons, decide_False; [exact IH|].
    unfold hasCount in *. congruence.
Qed.

Lemma bind_one_bucket c (X : list LogObject) (counts : list Z) :
  NoDup counts ->
  counts ≫= (fun c' => if decide (c = c') then X else [])
  = if decide (c ∈ counts) then X else [].
Proof.
  induction 1 as [|c' counts Hnotin Hnodup IH]; [done|].
  cbn [mbind list_bind] in *. rewrite IH.
  destruct (decide (c = c')) as [->|Hne].
  - rewrite decide_False by done. rewrite decide_True by apply list_elem_of_here.
    by rewrite app_nil_r.
  - destruct (decide (c ∈ counts)) as [Hin|Hout].
    + rewrite decide_True by (by apply list_elem_of_further). done.
    + rewrite decide_False; [done|].
      intros [?|?]%elem_of_cons; done.
Qed.

(** The entries of one count keep their input order. *)
Lemma byCounts_filter uniqueList counts c :
  NoDup counts ->
  (forall e, e ∈ uniqueList -> count e ∈ counts) ->
  filter (hasCount c) (byCounts uniqueList counts) = filter (hasCount c) uniqueList.
Proof.
  intros Hnodup Hcover. unfold byCounts. rewrite filter_bind.
  erewrite list_bind_ext; [|intros c'; apply filter_hasCount_twice|reflexivity].
  rewrite bind_one_bucket by done.
  destruct (decide (c ∈ counts)) as [Hin|Hout]; [done|].
  symmetry. apply filter_hasCount_nil. intros e He Hc. apply Hout.
  rewrite <- Hc. by apply Hcover.
Qed.

Lemma byCounts_ext l1 l2 counts :
  (forall c, c ∈ counts -> filter (hasCount c) l1 = filter (hasCount c) l2) ->
  byCounts l1 counts = byCounts l2 counts.
Proof.
  intros H. unfold byCounts.
  induction counts as [|c counts IH]; [done|].
  cbn [mbind list_bind]. rewrite H by apply list_elem_of_here. f_equal.
  apply IH. intros c' Hc'. apply H. by apply list_elem_of_further.
Qed.

(** Nothing is lost and nothing is added. *)
Lemma byCounts_Permutation counts : forall uniqueList,
  NoDup counts ->
  (forall e, e ∈ uniqueList -> count e ∈ counts) ->
  byCounts uniqueList counts ≡ₚ uniqueList.
Proof.
  induction counts as [|c counts IH]; intros l Hnodup Hcover.
  - destruct l as [|e l]; [done|].
    specialize (Hcover e (list_elem_of_here _ _)). by apply elem_of_nil in Hcover.
  - apply NoDup_cons in Hnodup as [Hnotin Hnodup].
    unfold byCounts. cbn [mbind list_bind].
    change (counts ≫= fun c' => filter (hasCount c') l) with (byCounts l counts).
    rewrite (byCounts_ext l (filter (fun e => ~ hasCount c e) l)).
    + rewrite IH; [apply filter_app_complement|done|].
      intros e [Hne He]%list_elem_of_filter.
      pose proof (Hcover e He) as Hc. apply elem_of_cons in Hc as [Hc|Hc]; [|done].
      by destruct Hne.
    + intros c' Hc'. rewrite list_filter_filter. apply list_filter_iff.
      intros e. unfold hasCount. split; [|tauto].
      intros He. split; [done|]. intros Hc. apply Hnotin. by rewrite <- Hc, He.
Qed.

Lemma same_count_sorted c (l : list LogObject) :
  Forall (hasCount c) l -> StronglySorted countLe l.
Proof.
  induction 1 as [|e l He Hl IH]; constructor; [done|].
  eapply Forall_impl; [exact Hl|]. unfold hasCount, countLe in *. intros e' He'. lia.
Qed.

(** Ascending counts give ascending entries. *)
Lemma byCounts_sorted uniqueList counts :
  StronglySorted Z.le counts -> StronglySorted countLe (byCounts uniqueList counts).
Proof.
  induction 1 as [|c counts Hsorted IH Hle]; [constructor|].
  unfold byCounts. cbn [mbind list_bind].
  apply StronglySorted_app_2; [| |exact IH].
  - intros x1 x2 [H1 _]%list_elem_of_filter H2.
    apply list_elem_of_bind in H2 as (c' & [H2 _]%list_elem_of_filter & Hc').
    rewrite Forall_forall in Hle. specialize (Hle _ Hc').
    unfold hasCount, countLe in *. lia.
  - apply (same_count_sorted c). apply Forall_forall.
    by intros e [He _]%list_elem_of_filter.
Qed.

(** The sorter on a list with at least one entry. *)
Lemma sortLogsByCount_stable uniqueList :
  uniqueList <> [] ->
  exists sorted,
    sortLogsByCount uniqueList = Ok sorted /\ StableByCount uniqueList sorted.
Proof.
  intros Hne. unfold sortLogsByCount.
  destruct (group_spec uniqueList) as (Hnodup & Hmem & Hmap).
  destruct (group uniqueList) as [numberArray countMap]. simpl in *.
  assert (debugString uniqueList = Ok tt) as Hdebug by (by destruct uniqueList).
  destruct (quickSort_spec (length numberArray) [] numberArray [])
    as (counts & Hrun & Hperm & Hsorted); [lia|].
  cbn [app length Nat.add] in Hrun. rewrite !app_nil_r in Hrun.
  change (Z.of_nat 0) with 0 in Hrun. rewrite Hdebug, Hrun.
  exists (collect countMap counts). split; [done|].
  assert (NoDup counts) as Hnodup' by (by rewrite Hperm).
  assert (forall e, e ∈ uniqueList -> count e ∈ counts) as Hcover.
  { intros e He. rewrite Hperm. apply Hmem. by exists e. }
  rewrite (collect_byCounts uniqueList).
  - split; [|split].
    + apply StronglySorted_Sorted. by apply byCounts_sorted.
    + by apply byCounts_Permutation.
    + intros c. by apply byCounts_filter.
  - intros c Hc. apply Hmap. by rewrite <- Hperm.
Qed.

(** C7: the sorter returns the stable ascending-by-count permutation of the
    list it is given: every adjacent pair of the result is in order of
    count, nothing is lost or added, and the entries of any one count keep
    their input order.  The list has an entry: [run] calls the sorter only
    at lines 506 and 510, on lists that [parseText] has left with at least
    one unique entry (lemma [run_sorts_nonempty_lists]). *)
Theorem sortLogsByCount_stable_ascending uniqueList :
  uniqueList <> [] ->
  exists sorted,
    sortLogsByCount uniqueList = Ok sorted /\ StableByCount uniqueList sorted.
Proof. intros Hne. exact (sortLogsByCount_stable uniqueList Hne). Qed.

Lemma sortLogsByCount_stable_ascending_witness :
  exists sorted,
    sortLogsByCount threeEntries = Ok sorted /\ StableByCount threeEntries sorted.
Proof. apply (sortLogsByCount_stable_ascending threeEntries). discriminate. Defined.

(** * Further properties *)

(** ** The extractor, line by line *)

Lemma here_logRegex_first_line s :
  here logRegex s = None <-> here logRegex (lineHead s) = None.
Proof.
  split; [|apply here_logRegex_lineHead].
  rewrite !here_logRegex.
  rewrite (starts_with_lineHead "Log" s) by done.
  destruct (Str.starts_with "Log" s) eqn:Hlog; [|done].
  apply starts_with_Log in Hlog as [s3 ->].
  change (lineHead ("Log" +:+ s3)) with ("Log" +:+ lineHead s3).
  change (Str.drop 3 ("Log" +:+ lineHead s3)) with (lineHead s3).
  change (Str.drop 3 ("Log" +:+ s3)) with s3.
  rewrite lineHead_idem.
  by destruct (Str.any (Char.same ":") (lineHead s3)).
Qed.

Lemma lines_cons c s :
  Char.dot c = true ->
  lines (String c s) = String c (lineHead s) :: tail (lines s).
Proof.
  intros Hc. simpl. rewrite dot_line_terminator in Hc.
  destruct (Char.line_terminator c); [done|].
  by destruct (lines_head s) as [ls ->].
Qed.

Lemma lineMatch_empty : lineMatch "" = None.
Proof. reflexivity. Qed.

Lemma lineMatch_here c l m :
  Str.all Char.dot l = true -> Char.dot c = true ->
  here logRegex (String c l) = Some m ->
  lineMatch (String c l) = Some (String c l).
Proof.
  intros Hl Hc Hm. unfold lineMatch. cbn [exec]. rewrite Hm. simpl.
  apply here_logRegex_Some in Hm as [-> _]. f_equal.
  rewrite <- (append_nil_r (String c l)) at 1.
  apply lineHead_append; [|done]. simpl. by rewrite Hc, Hl.
Qed.

Lemma lineMatch_skip c l :
  here logRegex (String c l) = None -> lineMatch (String c l) = lineMatch l.
Proof.
  intros Hm. unfold lineMatch. cbn [exec]. rewrite Hm.
  by destruct (exec logRegex l).
Qed.

Lemma scan_rest_of_line s :
  scan logRegex s (String.length (lineHead s)) = scan logRegex (lineTail s) 0.
Proof. rewrite <- (lineHead_lineTail s) at 1. apply scan_skip. Qed.

Lemma scan_lines s :
  scan logRegex s 0 = omap lineMatch (lines s) /\
  scan logRegex (lineTail s) 0 = omap lineMatch (tail (lines s)).
Proof.
  induction s as [|c s [IHP IHQ]]; [done|].
  destruct (Char.dot c) eqn:Hc.
  - rewrite (lines_cons c s Hc). cbn [lineTail tail]. rewrite Hc. split; [|exact IHQ].
    cbn [scan omap list_omap].
    destruct (here logRegex (String c s)) as [m|] eqn:Hm.
    + assert (here logRegex (String c (lineHead s)) <> None) as Hline.
      { intros Hnone. replace (String c (lineHead s)) with (lineHead (String c s)) in Hnone
          by (simpl; by rewrite Hc).
        apply here_logRegex_first_line in Hnone. congruence. }
      destruct (here logRegex (String c (lineHead s))) as [m'|] eqn:Hm'; [|done].
      rewrite (lineMatch_here c (lineHead s) m' (lineHead_all_dot s) Hc Hm').
      apply here_logRegex_Some in Hm as [-> _].
      simpl. rewrite Hc. simpl. f_equal.
      rewrite scan_rest_of_line. exact IHQ.
    + assert (here logRegex (String c (lineHead s)) = None) as Hline.
      { replace (String c (lineHead s)) with (lineHead (String c s))
          by (simpl; by rewrite Hc).
        exact (proj1 (here_logRegex_first_line _) Hm). }
      rewrite (lineMatch_skip c (lineHead s) Hline).
      rewrite IHP. destruct (lines_head s) as [ls ->]. done.
  - assert (Char.line_terminator c = true) as Hterm.
    { rewrite dot_line_terminator in Hc. by destruct (Char.line_terminator c). }
    assert (lines (String c s) = "" :: lines s) as Hlines by (simpl; by rewrite Hterm).
    rewrite Hlines. cbn [lineTail tail]. rewrite Hc.
    rewrite (scan_line_terminator c s Hterm).
    cbn [omap list_omap]. rewrite lineMatch_empty. done.
Qed.

(** X1: the candidates are the leftmost matches of the lines of the input,
    line by line and in order: a line that matches the extractor pattern
    yields exactly one candidate, any other line yields none. *)
Theorem candidates_line_by_line input :
  candidates input = omap lineMatch (lines input).
Proof. rewrite candidates_scan. apply scan_lines. Qed.

(** ** The decomposer pattern *)


(** ** The decomposer pattern *)

Lemma here_parseRegex_unfold c0 s1 :
  here parseRegex ("Log" +:+ String c0 s1)
  = if Char.not_colon c0
    then star Char.not_colon s1 (kColon ("Log" +:+ String c0 s1) (String c0 s1))
    else None.
Proof. reflexivity. Qed.

Lemma here_parseRegex_no_marker s :
  Str.starts_with "Log" s = false -> here parseRegex s = None.
Proof.
  unfold here, parseRegex.
  destruct s as [|a [|b [|c s]]]; simpl;
    repeat (match goal with
            | |- context [Ascii.eqb ?x ?y] => destruct (Ascii.eqb_spec x y); subst; simpl
            end); try done.
Qed.

Lemma here_parseRegex_bare_marker : here parseRegex "Log" = None.
Proof. reflexivity. Qed.

Lemma takeWhile_dropWhile p s : takeWhile p s +:+ dropWhile p s = s.
Proof.
  induction s as [|c s IH]; simpl; [done|].
  destruct (p c); simpl; [by rewrite IH|done].
Qed.

Lemma takeWhile_all p s : Str.all p (takeWhile p s) = true.
Proof.
  induction s as [|c s IH]; simpl; [done|].
  destruct (p c) eqn:E; simpl; [by rewrite E|done].
Qed.

Lemma dropWhile_stops p s : stops p (dropWhile p s).
Proof.
  induction s as [|c s IH]; simpl; [done|].
  by destruct (p c) eqn:E.
Qed.

Lemma consumed_dropWhile p s : consumed s (dropWhile p s) = takeWhile p s.
Proof. rewrite <- (takeWhile_dropWhile p s) at 1. apply consumed_append. Qed.

Lemma consumed_lineTail s : consumed s (lineTail s) = lineHead s.
Proof. rewrite <- (lineHead_lineTail s) at 1. apply consumed_append. Qed.

(** The greedy repetition hands its continuation the longest stretch first;
    when that succeeds, nothing else is tried. *)
Lemma star_greedy {R} p s (k : string -> option R) r :
  k (dropWhile p s) = Some r -> star p s k = Some r.
Proof.
  induction s as [|c s IH]; simpl; [done|].
  destruct (p c); [|done]. intros H. by rewrite (IH H).
Qed.

(** When the continuation rejects every text that starts inside the
    stretch, only the longest stretch counts. *)
Lemma star_max {R} p s (k : string -> option R) :
  (forall c s', p c = true -> k (String c s') = None) ->
  star p s k = k (dropWhile p s).
Proof.
  intros Hk. induction s as [|c s IH]; simpl; [done|].
  destruct (p c) eqn:E; [|done].
  rewrite IH. destruct (k (dropWhile p s)); [done|]. by apply Hk.
Qed.

Lemma star_Some_inv {R} p s (k : string -> option R) r :
  star p s k = Some r -> exists s', k s' = Some r.
Proof.
  induction s as [|c s IH]; simpl; [by exists ""|].
  destruct (p c); [|by exists (String c s)].
  destruct (star p s k) eqn:E; [|by exists (String c s)].
  intros [= <-]. by apply IH.
Qed.

Lemma kMessage_result full g s :
  kMessage full g s
  = Some (Result "" (consumed full (lineTail s)) (lineTail s) (("message", lineHead s) :: g)).
Proof.
  unfold kMessage.
  rewrite (star_dot_total s
             (fun rest => Result "" (consumed full rest) rest (("message", consumed s rest) :: g))).
  by rewrite consumed_lineTail.
Qed.

Lemma kTypeEnd_inside full g body c s :
  Char.type_char c = true -> kTypeEnd full g body (String c s) = None.
Proof.
  intros Hc. unfold kTypeEnd.
  destruct (Ascii.eqb_spec ":" c) as [<-|]; [discriminate Hc|done].
Qed.

Lemma kTypeEnd_result full g body s :
  kTypeEnd full g body s
  = match s with
    | String d s' =>
        if Ascii.eqb ":" d && negb (Str.starts_with ":" s')
        then kMessage full (("type", consumed body s) :: g) (dropWhile Char.space s')
        else None
    | EmptyString => None
    end.
Proof.
  destruct s as [|d s']; [done|]. unfold kTypeEnd.
  destruct (Ascii.eqb ":" d); [|done]. simpl.
  assert (star Char.space s' (kMessage full (("type", consumed body (String d s')) :: g))
          = kMessage full (("type", consumed body (String d s')) :: g)
              (dropWhile Char.space s')) as Hstar.
  { rewrite (kMessage_result _ _ (dropWhile Char.space s')).
    apply star_greedy. apply kMessage_result. }
  destruct s' as [|d' s'']; [exact Hstar|].
  simpl. destruct (Ascii.eqb ":" d'); [done|]. exact Hstar.
Qed.

(** The groups of a match of the optional type group and the message. *)
Lemma kBody_groups full g rest :
  exists m, kBody full g (dropWhile Char.space rest) = Some m /\
    groups m
    = match typeSplit rest with
      | Some (token, text) => ("message", lineHead text) :: ("type", token) :: g
      | None => ("message", lineHead (dropWhile Char.space rest)) :: g
      end.
Proof.
  unfold kBody, typeSplit. set (body := dropWhile Char.space rest).
  rewrite (star_max Char.type_char body (kTypeEnd full g body))
    by (intros; by apply kTypeEnd_inside).
  rewrite kTypeEnd_result.
  destruct (dropWhile Char.type_char body) as [|d s'] eqn:Hdrop.
  - rewrite kMessage_result. by eexists.
  - destruct (Ascii.eqb ":" d && negb (Str.starts_with ":" s')).
    + rewrite kMessage_result. eexists. split; [done|]. simpl.
      by rewrite <- Hdrop, consumed_dropWhile.
    + rewrite kMessage_result. by eexists.
Qed.

Lemma kBody_Some full g body : exists m, kBody full g body = Some m.
Proof.
  unfold kBody. destruct (star Char.type_char body (kTypeEnd full g body)); [by eexists|].
  rewrite kMessage_result. by eexists.
Qed.

Lemma kColon_groups full cat rest :
  exists m, kColon full cat (":" +:+ rest) = Some m /\
    groups m
    = match typeSplit rest with
      | Some (token, text) =>
          [("message", lineHead text); ("type", token);
           ("logCategory", consumed cat (":" +:+ rest))]
      | None =>
          [("message", lineHead (dropWhile Char.space rest));
           ("logCategory", consumed cat (":" +:+ rest))]
      end.
Proof.
  destruct (kBody_groups full [("logCategory", consumed cat (":" +:+ rest))] rest)
    as (m & Hm & Hg).
  exists m. split; [|by rewrite Hg].
  change (kColon full cat (":" +:+ rest))
    with (star Char.space rest (kBody full [("logCategory", consumed cat (":" +:+ rest))])).
  by apply star_greedy.
Qed.

Lemma dropWhile_append p x y :
  Str.all p x = true -> stops p y -> dropWhile p (x +:+ y) = y.
Proof.
  induction x as [|c x IH]; simpl; intros Hx Hy.
  - destruct y as [|d y]; simpl; [done|]. simpl in Hy. by rewrite Hy.
  - apply andb_true_iff in Hx as [Hc Hx]. rewrite Hc. by apply IH.
Qed.

(** The groups that the decomposer pattern finds in a line of the shape
    [Log<category>:<rest>]. *)
Lemma here_parseRegex_groups cat rest :
  cat <> "" -> Str.all Char.not_colon cat = true ->
  exists m, here parseRegex ("Log" +:+ cat +:+ ":" +:+ rest) = Some m /\
    groups m
    = match typeSplit rest with
      | Some (token, text) =>
          [("message", lineHead text); ("type", token); ("logCategory", cat)]
      | None =>
          [("message", lineHead (dropWhile Char.space rest)); ("logCategory", cat)]
      end.
Proof.
  intros Hne Hcat. destruct cat as [|c0 cat]; [done|].
  simpl in Hcat. apply andb_true_iff in Hcat as [Hc0 Hcat].
  change ("Log" +:+ String c0 cat +:+ ":" +:+ rest)
    with ("Log" +:+ String c0 (cat +:+ ":" +:+ rest)).
  rewrite here_parseRegex_unfold, Hc0.
  destruct (kColon_groups ("Log" +:+ String c0 (cat +:+ ":" +:+ rest))
              (String c0 (cat +:+ ":" +:+ rest)) rest) as (m & Hm & Hg).
  exists m. split.
  - apply star_greedy. by rewrite dropWhile_append.
  - rewrite Hg.
    change (String c0 (cat +:+ ":" +:+ rest)) with (String c0 cat +:+ (":" +:+ rest)).
    by rewrite consumed_append.
Qed.

Lemma exec_here r s m : here r s = Some m -> exec r s = Some m.
Proof. intros H. destruct s; simpl; by rewrite H. Qed.

(** X2: a candidate of the shape [Log<category>:<rest>], with a non-empty
    category that holds no colon, is decomposed like this: the category is
    the trimmed text between the marker and the first colon; the type is the
    token in front of the next colon, when only white space separates it
    from the category's colon, it holds no colon, dash or white space and
    its colon is not doubled; the message is the trimmed rest of the line
    behind the type, or behind the category when there is no type. *)
Theorem parseLine_decomposes cat rest :
  cat <> "" -> Str.all Char.not_colon cat = true ->
  category (parseLine ("Log" +:+ cat +:+ ":" +:+ rest)) = Some (Str.trim cat) /\
  type (parseLine ("Log" +:+ cat +:+ ":" +:+ rest)) = Str.trim <$> typeToken rest /\
  message (parseLine ("Log" +:+ cat +:+ ":" +:+ rest)) = Some (Str.trim (messageText rest)).
Proof.
  intros Hne Hcat.
  destruct (here_parseRegex_groups cat rest Hne Hcat) as (m & Hm & Hg).
  unfold parseLine.
  rewrite (exec_here _ _ _ Hm).
  cbn [category type message]. rewrite Hg. unfold typeToken, messageText.
  by destruct (typeSplit rest) as [[token text]|].
Qed.

Lemma parseLine_decomposes_witness :
  category (parseLine ("Log" +:+ "Temp" +:+ ":" +:+ " Display: Hello world"))
  = Some (Str.trim "Temp") /\
  type (parseLine ("Log" +:+ "Temp" +:+ ":" +:+ " Display: Hello world"))
  = Str.trim <$> typeToken " Display: Hello world" /\
  message (parseLine ("Log" +:+ "Temp" +:+ ":" +:+ " Display: Hello world"))
  = Some (Str.trim (messageText " Display: Hello world")).
Proof.
  apply (parseLine_decomposes "Temp" " Display: Hello world").
  - discriminate.
  - vm_compute. reflexivity.
Defined.

Example typeToken_ex :
  (typeToken " Display: Hello world", messageText " Display: Hello world")
  = (Some "Display", "Hello world").
Proof. vm_compute. reflexivity. Qed.

Example typeToken_doubled_colon :
  (typeToken " std::vector: x", messageText " std::vector: x") = (None, "std::vector: x").
Proof. vm_compute. reflexivity. Qed.

Lemma kMessage_Some_groups full g s m :
  kMessage full g s = Some m -> groups m = ("message", lineHead s) :: g.
Proof. rewrite kMessage_result. by intros [= <-]. Qed.

Lemma here_parseRegex_Some_groups s m :
  here parseRegex s = Some m ->
  is_Some (namedGroup "logCategory" (groups m)) /\
  is_Some (namedGroup "message" (groups m)).
Proof.
  intros Hm.
  destruct (Str.starts_with "Log" s) eqn:Hlog;
    [|by rewrite (here_parseRegex_no_marker s Hlog) in Hm].
  apply starts_with_Log in Hlog as [s1 ->].
  destruct s1 as [|c0 s1]; [by vm_compute in Hm|].
  rewrite here_parseRegex_unfold in Hm.
  destruct (Char.not_colon c0); [|done].
  apply star_Some_inv in Hm as [s' Hm].
  unfold kColon in Hm. destruct s' as [|d s0]; [done|].
  destruct (Ascii.eqb ":" d); [|done].
  apply star_Some_inv in Hm as [body Hm].
  unfold kBody in Hm.
  destruct (star Char.type_char body _) as [x|] eqn:Htype.
  - injection Hm as ->.
    apply star_Some_inv in Htype as [s3 Htype].
    rewrite kTypeEnd_result in Htype.
    destruct s3 as [|d3 s4]; [done|].
    destruct (Ascii.eqb ":" d3 && negb (Str.starts_with ":" s4)); [|done].
    apply kMessage_Some_groups in Htype as ->. split; by eexists.
  - apply kMessage_Some_groups in Hm as ->. split; by eexists.
Qed.

Lemma exec_Some_inv r s m :
  exec r s = Some m -> exists s' m', here r s' = Some m' /\ groups m = groups m'.
Proof.
  revert m. induction s as [|c s IH]; intros m; simpl.
  - destruct (here r "") as [m'|] eqn:E; [|done]. intros [= <-]. by exists "", m'.
  - destruct (here r (String c s)) as [m'|] eqn:E.
    + intros [= <-]. by exists (String c s), m'.
    + destruct (exec r s) as [m0|]; [|done]. simpl. intros [= <-].
      destruct (IH m0 eq_refl) as (s' & m' & H1 & H2). by exists s', m'.
Qed.

(** X3: a record of [parseText] has both a category and a message, or none
    of its three fields: the decomposer pattern never leaves just one of the
    two out, so the warning of lines 153-161 always names "Category and
    Message". *)
Theorem parseLine_all_or_nothing logString :
  (is_Some (category (parseLine logString)) /\ is_Some (message (parseLine logString))) \/
  (category (parseLine logString) = None /\ type (parseLine logString) = None /\
   message (parseLine logString) = None).
Proof.
  unfold parseLine. destruct (exec parseRegex logString) as [m|] eqn:Hexec; [left|by right].
  apply exec_Some_inv in Hexec as (s' & m' & Hhere & Hg).
  apply here_parseRegex_Some_groups in Hhere as [[c Hc] [t Ht]].
  cbn [category message]. rewrite Hg, Hc, Ht. split; by eexists.
Qed.

(** ** Outcomes of [parseText] *)

Lemma processAll_invalid matchArray : forall logInfo,
  Exists (fun r => invalidType r = true) matchArray ->
  processAll logInfo matchArray = Throw ReferenceError.
Proof.
  induction matchArray as [|r rest IH]; intros logInfo Hex; [by apply Exists_nil in Hex|].
  simpl. unfold processOne. destruct (invalidType r) eqn:Hr; [done|].
  simpl. apply IH. apply Exists_cons in Hex as [Hex|Hex]; [congruence|done].
Qed.

Lemma valid_or_invalid (matchArray : list LogObject) :
  Forall (fun r => invalidType r = false) matchArray \/
  Exists (fun r => invalidType r = true) matchArray.
Proof.
  induction matchArray as [|r rest [IH|IH]].
  - left. constructor.
  - destruct (invalidType r) eqn:Hr.
    + right. by apply Exists_cons_hd.
    + left. by constructor.
  - right. by apply Exists_cons_tl.
Qed.

Lemma processParsedLog_invalid settings data matchArray fileName :
  Exists (fun r => invalidType r = true) matchArray ->
  processParsedLog settings data matchArray fileName = Throw ReferenceError.
Proof.
  intros Hex. unfold processParsedLog. by rewrite (processAll_invalid _ _ Hex).
Qed.

(** What a successful call of [processParsedLog] returns. *)
Lemma processParsedLog_Ok_inv settings data matchArray fileName data' logInfo :
  processParsedLog settings data matchArray fileName = Ok (data', logInfo) ->
  Forall (fun r => invalidType r = false) matchArray /\
  uniqueList logInfo = foldl foldUnique (uniqueList (baseInfo settings data)) matchArray /\
  totalCount logInfo
  = totalCount (baseInfo settings data) + Z.of_nat (length matchArray) /\
  typeCounts logInfo
  = foldl tallyType (typeCounts (baseInfo settings data)) (uniqueList logInfo).
Proof.
  intros Hrun.
  destruct (valid_or_invalid matchArray) as [Hvalid|Hinvalid];
    [|by rewrite (processParsedLog_invalid _ _ _ _ Hinvalid) in Hrun].
  split; [done|].
  unfold processParsedLog in Hrun. rewrite (processAll_valid _ _ Hvalid) in Hrun.
  unfold baseInfo. simpl in Hrun.
  assert (forall start, totalCount (foldl foldStep start matchArray) = totalCount start)
    as Htotal.
  { clear. induction matchArray as [|r rest IH]; intros start; [done|].
    simpl. rewrite IH. unfold foldStep, countCategory.
    destruct (hasKey _ _); [done|]. by destruct (truthy _). }
  assert (forall start, typeCounts (foldl foldStep start matchArray) = typeCounts start)
    as Htypes.
  { clear. induction matchArray as [|r rest IH]; intros start; [done|].
    simpl. rewrite IH. unfold foldStep, countCategory.
    destruct (hasKey _ _); [done|]. by destruct (truthy _). }
  destruct (consolidate settings).
  - injection Hrun as <- <-. simpl.
    rewrite foldStep_uniqueList, Htotal, Htypes. simpl. done.
  - destruct (truthy fileName); injection Hrun as <- <-; simpl;
      rewrite foldStep_uniqueList, Htotal, Htypes; simpl; (split; [done|split; [lia|done]]).
Qed.

(** X4: [parseText] ends in exactly one of three ways.  It throws a
    TypeError when the input has no candidate; it throws a ReferenceError
    when there are candidates and one of them has a type token with a
    character outside [\w\s]; in every other case it returns a report. *)
Theorem parseText_outcome settings data input fileName :
  match parseText settings data input fileName with
  | Ok _ =>
      candidates input <> [] /\
      Forall (fun c => invalidType (parseLine c) = false) (candidates input)
  | Throw e =>
      (e = TypeError /\ candidates input = []) \/
      (e = ReferenceError /\ candidates input <> [] /\
       Exists (fun c => invalidType (parseLine c) = true) (candidates input))
  | OutOfFuel => False
  end.
Proof.
  rewrite candidates_scan. unfold parseText, extract, match_global.
  destruct (scan logRegex input 0) as [|c cs] eqn:Hscan; [by left|].
  destruct (valid_or_invalid (parseLine <$> (c :: cs))) as [Hvalid|Hinvalid].
  - destruct (processParsedLog_uniqueList settings data (parseLine <$> (c :: cs)) fileName
                Hvalid) as (data' & logInfo & -> & _).
    split; [done|]. by apply Forall_fmap in Hvalid.
  - rewrite (processParsedLog_invalid _ _ _ _ Hinvalid).
    right. split; [done|]. split; [done|]. by apply Exists_fmap in Hinvalid.
Qed.

(** ** Nothing is lost in the fold *)

Lemma sumCounts_app l1 l2 : sumCounts (l1 ++ l2) = sumCounts l1 + sumCounts l2.
Proof. induction l1 as [|e l1 IH]; simpl; [done|]. unfold sumCounts in *. simpl. lia. Qed.

Lemma sumCounts_alter f (l : list LogObject) : forall i x,
  l !! i = Some x -> sumCounts (alter f i l) = sumCounts l - count x + count (f x).
Proof.
  induction l as [|e l IH]; intros i x Hx; [done|].
  destruct i as [|i]; simpl in *.
  - injection Hx as ->. unfold sumCounts. simpl. lia.
  - specialize (IH i x Hx). change (alter f i l) with (list_alter f i l) in IH. lia.
Qed.

Lemma foldUnique_sumCounts uniqueList info :
  count info = 1 -> sumCounts (foldUnique uniqueList info) = sumCounts uniqueList + 1.
Proof.
  intros Hcount. unfold foldUnique.
  destruct (list_find (sameLog info) uniqueList) as [[i x]|] eqn:Hfind.
  - apply list_find_Some in Hfind as (Hx & _ & _).
    rewrite (sumCounts_alter _ _ _ _ Hx). simpl. lia.
  - rewrite sumCounts_app. unfold sumCounts at 2. simpl. lia.
Qed.

Lemma foldUnique_all_sumCounts matchArray : forall uniqueList,
  Forall freshRecord matchArray ->
  sumCounts (foldl foldUnique uniqueList matchArray)
  = sumCounts uniqueList + Z.of_nat (length matchArray).
Proof.
  induction matchArray as [|r rest IH]; intros ul Hfresh; simpl; [lia|].
  apply Forall_cons in Hfresh as [[Hr _] Hrest].
  rewrite IH by done. rewrite foldUnique_sumCounts by done. lia.
Qed.

Lemma parseLine_fresh cs : Forall freshRecord (parseLine <$> cs).
Proof.
  apply Forall_fmap, Forall_forall. intros c _. split.
  - apply parseLine_count.
  - apply parseLine_siblings.
Qed.

Lemma parseText_Ok_inv settings data input fileName data' logInfo :
  parseText settings data input fileName = Ok (data', logInfo) ->
  processParsedLog settings data (parseLine <$> candidates input) fileName
  = Ok (data', logInfo).
Proof.
  rewrite candidates_scan. unfold parseText, extract, match_global.
  by destruct (scan logRegex input 0).
Qed.

Lemma parseText_Ok_counts settings data input fileName data' logInfo :
  parseText settings data input fileName = Ok (data', logInfo) ->
  totalCount logInfo
  = totalCount (baseInfo settings data) + Z.of_nat (length (candidates input)) /\
  sumCounts (uniqueList logInfo)
  = sumCounts (uniqueList (baseInfo settings data)) + Z.of_nat (length (candidates input)).
Proof.
  intros Hrun. apply parseText_Ok_inv in Hrun.
  apply processParsedLog_Ok_inv in Hrun as (_ & Hunique & Htotal & _).
  rewrite length_fmap in Htotal. split; [done|].
  rewrite Hunique, foldUnique_all_sumCounts by apply parseLine_fresh.
  by rewrite length_fmap.
Qed.

(** X5: a report accounts for every candidate.  When [parseText] returns,
    [totalCount] has grown by the number of candidates of the input, and so
    has the sum of the counts of the unique entries; in a per-file report
    both are that number. *)
Theorem parseText_counts settings data input fileName data' logInfo :
  parseText settings data input fileName = Ok (data', logInfo) ->
  totalCount logInfo
  = totalCount (baseInfo settings data) + Z.of_nat (length (candidates input)) /\
  sumCounts (uniqueList logInfo)
  = sumCounts (uniqueList (baseInfo settings data)) + Z.of_nat (length (candidates input)).
Proof. apply parseText_Ok_counts. Qed.

Lemma parseText_counts_witness :
  exists data' logInfo,
    parseText perFile initialLogData sampleText None = Ok (data', logInfo) /\
    totalCount logInfo = 0 + 4 /\
    sumCounts (uniqueList logInfo) = 0 + 4.
Proof.
  assert (exists r, parseText perFile initialLogData sampleText None = Ok r) as [[data' logInfo] H].
  { eexists. vm_compute. reflexivity. }
  exists data', logInfo. split; [exact H|].
  exact (parseText_counts perFile initialLogData sampleText None data' logInfo H).
Defined.

(** ** Unique entries keep their place *)

Lemma foldUnique_identity uniqueList info :
  identity <$> foldUnique uniqueList info
  = (identity <$> uniqueList)
    ++ match list_find (sameLog info) uniqueList with
       | Some _ => []
       | None => [identity info]
       end.
Proof.
  unfold foldUnique.
  destruct (list_find (sameLog info) uniqueList) as [[i x]|].
  - rewrite (list_fmap_alter identity (addSibling (logText info)) id).
    + rewrite list_alter_id by done. by rewrite app_nil_r.
    + by apply Forall_forall.
  - by rewrite fmap_app.
Qed.

Lemma foldUnique_all_identity matchArray : forall uniqueList,
  exists added,
    identity <$> foldl foldUnique uniqueList matchArray = (identity <$> uniqueList) ++ added /\
    added `sublist_of` (identity <$> matchArray).
Proof.
  induction matchArray as [|r rest IH]; intros ul.
  - exists []. simpl. split; [by rewrite app_nil_r|constructor].
  - simpl. destruct (IH (foldUnique ul r)) as (added & Hfold & Hsub).
    rewrite foldUnique_identity in Hfold.
    destruct (list_find (sameLog r) ul).
    + exists added. split; [by rewrite app_nil_r in Hfold|]. by constructor.
    + exists (identity r :: added). split; [by rewrite <- app_assoc in Hfold|].
      by constructor.
Qed.

(** X6: the fold never removes, reorders or rewrites a unique entry.  When
    [processParsedLog] returns, the entries it started from are still the
    first ones, with their category, type, message and raw text, and the
    entries behind them are records of the input in the order of the
    input. *)
Theorem unique_entries_keep_their_place settings data matchArray fileName data' logInfo :
  processParsedLog settings data matchArray fileName = Ok (data', logInfo) ->
  exists added,
    identity <$> uniqueList logInfo
    = (identity <$> uniqueList (baseInfo settings data)) ++ added /\
    added `sublist_of` (identity <$> matchArray).
Proof.
  intros Hrun. apply processParsedLog_Ok_inv in Hrun as (_ & -> & _).
  apply foldUnique_all_identity.
Qed.

Lemma unique_entries_keep_their_place_witness :
  exists data' logInfo,
    processParsedLog perFile initialLogData (parseLine <$> candidates sampleText) None
    = Ok (data', logInfo) /\
    exists added,
      identity <$> uniqueList logInfo
      = (identity <$> uniqueList (baseInfo perFile initialLogData)) ++ added /\
      added `sublist_of` (identity <$> (parseLine <$> candidates sampleText)).
Proof.
  assert (exists r, processParsedLog perFile initialLogData
                      (parseLine <$> candidates sampleText) None = Ok r)
    as [[data' logInfo] H].
  { eexists. vm_compute. reflexivity. }
  exists data', logInfo. split; [exact H|].
  exact (unique_entries_keep_their_place perFile initialLogData
           (parseLine <$> candidates sampleText) None data' logInfo H).
Defined.

(** ** The invariant of the entries *)

Lemma foldUnique_entryInvariant uniqueList info :
  Forall entryInvariant uniqueList -> freshRecord info ->
  Forall entryInvariant (foldUnique uniqueList info).
Proof.
  intros Hall [Hcount Hsib]. unfold foldUnique.
  destruct (list_find (sameLog info) uniqueList) as [[i x]|] eqn:Hfind.
  - apply list_find_Some in Hfind as (Hx & Hsame & _).
    apply Forall_alter; [done|].
    intros y Hy [Hc Hs]. assert (y = x) as -> by congruence.
    unfold entryInvariant, addSibling. simpl. split.
    + rewrite length_app. simpl. lia.
    + apply Forall_app. split; [done|]. constructor; [|done].
      unfold sameLog in Hsame. by rewrite Hsame.
  - apply Forall_app. split; [done|]. constructor; [|done].
    unfold entryInvariant. rewrite Hcount, Hsib. simpl. split; [lia|constructor].
Qed.

Lemma foldUnique_all_entryInvariant matchArray : forall uniqueList,
  Forall entryInvariant uniqueList -> Forall freshRecord matchArray ->
  Forall entryInvariant (foldl foldUnique uniqueList matchArray).
Proof.
  induction matchArray as [|r rest IH]; intros ul Hall Hfresh; [done|].
  apply Forall_cons in Hfresh as [Hr Hrest]. simpl.
  apply IH; [|done]. by apply foldUnique_entryInvariant.
Qed.

(** X7: every unique entry of a report of [parseText] has a count that is
    one more than the number of its siblings, and each of its siblings is
    the stripped raw text of the entry; in consolidated mode this holds
    after the call when it held for the entries before it. *)
Theorem parseText_keeps_entry_invariant settings data input fileName data' logInfo :
  Forall entryInvariant (uniqueList (baseInfo settings data)) ->
  parseText settings data input fileName = Ok (data', logInfo) ->
  Forall entryInvariant (uniqueList logInfo).
Proof.
  intros Hall Hrun. apply parseText_Ok_inv in Hrun.
  apply processParsedLog_Ok_inv in Hrun as (_ & -> & _).
  apply foldUnique_all_entryInvariant; [done|apply parseLine_fresh].
Qed.

Lemma parseText_keeps_entry_invariant_witness :
  exists data' logInfo,
    parseText consolidated initialLogData sampleText None = Ok (data', logInfo) /\
    Forall entryInvariant (uniqueList logInfo).
Proof.
  assert (exists r, parseText consolidated initialLogData sampleText None = Ok r)
    as [[data' logInfo] H].
  { eexists. vm_compute. reflexivity. }
  exists data', logInfo. split; [exact H|].
  apply (parseText_keeps_entry_invariant consolidated initialLogData sampleText None
           data' logInfo); [constructor|exact H].
Defined.

(** ** Type buckets *)








(** Two files with the same line in consolidated mode: the one unique entry
    has been tallied twice. *)
Example consolidated_tally_counts_again :
  exists data1 info1 data2 info2,
    parseText consolidated initialLogData "LogA: Error: x" None = Ok (data1, info1) /\
    parseText consolidated data1 "LogA: Error: x" None = Ok (data2, info2) /\
    length (uniqueList info2) = 1%nat /\
    typeCounts info2 !! "errors" = Some (Num 2).
Proof.
  do 4 eexists. split; [vm_compute; reflexivity|].
  split; [vm_compute; reflexivity|]. vm_compute. auto.
Qed.

(** ** [filterLog] *)

Lemma filterField_passes f value : filterField f value = false <-> passes f value.
Proof.
  unfold filterField, passes. destruct (ignore f); simpl; [by split; auto|].
  destruct value as [s|]; simpl.
  - destruct (bool_decide (s ∈ whitelist f)) eqn:Hw; simpl.
    + apply bool_decide_eq_true in Hw.
      destruct (bool_decide (s ∈ blacklist f)) eqn:Hb; simpl.
      * apply bool_decide_eq_true in Hb. split; [done|].
        intros [|(s' & [= <-] & _ & Hnot)]; done.
      * apply bool_decide_eq_false in Hb. split; [|done].
        intros _. right. by exists s.
    + apply bool_decide_eq_false in Hw. split; [done|].
      intros [|(s' & [= <-] & Hin & _)]; done.
  - destruct (allowUndefined f); simpl; (split; [done|]);
      intros [|(s' & ? & _)]; done.
Qed.

(** X9: [filterLog] shows an entry exactly when each of the two filters is
    switched off or finds the value present, on its allow-list and not on
    its deny-list.  An absent type or category is hidden by a filter that is
    switched on whatever [allowUndefined] says, because the allow-list never
    includes [undefined]. *)
Theorem filterLog_shows settings log :
  filterLog settings log = false <->
  passes (typeFilter settings) (type log) /\
  passes (categoryFilter settings) (category log).
Proof.
  rewrite <- !filterField_passes. unfold filterLog.
  destruct (filterField (typeFilter settings) (type log));
    destruct (filterField (categoryFilter settings) (category log));
    split; try done; by intros [? ?].
Qed.

(** ** [filterLogList] *)

Lemma filterTally_outcome newInfo log :
  if customType log then filterTally newInfo log = Throw ReferenceError
  else exists newInfo', filterTally newInfo log = Ok newInfo'.
Proof.
  unfold customType, filterTally.
  destruct (strictEq (type log) "Error"); simpl; [rewrite andb_false_r; by eexists|].
  destruct (strictEq (type log) "Warning"); simpl; [rewrite andb_false_r; by eexists|].
  destruct (truthy (type log)); simpl; [done|by eexists].
Qed.

Lemma kept_cons settings log rest :
  kept settings (log :: rest)
  = if filterLog settings log then kept settings rest else log :: kept settings rest.
Proof.
  unfold kept. rewrite filter_cons.
  destruct (filterLog settings log); [by rewrite decide_False|by rewrite decide_True].
Qed.

Lemma filterLoop_outcome settings logList : forall newInfo,
  match filterLoop settings newInfo logList with
  | Ok _ => Forall (fun log => customType log = false) (kept settings logList)
  | Throw e =>
      e = ReferenceError /\
      Exists (fun log => customType log = true) (kept settings logList)
  | OutOfFuel => False
  end.
Proof.
  induction logList as [|log rest IH]; intros newInfo; [by constructor|].
  simpl. unfold filterStep. rewrite kept_cons.
  destruct (filterLog settings log); simpl; [apply IH|].
  pose proof (filterTally_outcome
                (setTotalCount (totalCount newInfo + count log)
                   (setUniqueList (uniqueList newInfo ++ [log]) newInfo)) log) as Htally.
  simpl in Htally.
  destruct (customType log) eqn:Hcustom.
  - rewrite Htally. simpl. split; [done|]. by apply Exists_cons_hd.
  - destruct Htally as [tallied ->]. simpl.
    specialize (IH (filterCategory tallied log)).
    destruct (filterLoop settings (filterCategory tallied log) rest) as [r|e|].
    + by constructor.
    + destruct IH as [-> IH]. split; [done|]. by apply Exists_cons_tl.
    + done.
Qed.

(** X10: [filterLogList] throws a ReferenceError exactly when one of the
    entries that the filter lets through has a type other than "Error" and
    "Warning" (a non-empty one): the branch for such a type reads the
    unbound name [logInfo].  In every other case it returns a report. *)
Theorem filterLogList_outcome settings logList :
  match filterLogList settings logList with
  | Ok _ => Forall (fun log => customType log = false) (kept settings logList)
  | Throw e =>
      e = ReferenceError /\
      Exists (fun log => customType log = true) (kept settings logList)
  | OutOfFuel => False
  end.
Proof. apply filterLoop_outcome. Qed.

Lemma strictEq_spec v t : strictEq v t = true <-> v = Some t.
Proof.
  unfold strictEq. destruct v as [s|]; [|done].
  rewrite String.eqb_eq. split; congruence.
Qed.

Lemma withType_cons t e l :
  withType t (e :: l) = (if strictEq (type e) t then 1 else 0) + withType t l.
Proof.
  unfold withType. rewrite filter_cons.
  destruct (decide (type e = Some t)) as [H|H].
  - rewrite (proj2 (strictEq_spec _ _) H). simpl. lia.
  - destruct (strictEq (type e) t) eqn:E; [by apply strictEq_spec in E|]. lia.
Qed.

Lemma filterStep_typeCounts settings newInfo log newInfo' a w :
  filterStep settings newInfo log = Ok newInfo' ->
  typeCounts newInfo !! "errors" = Some (Num a) ->
  typeCounts newInfo !! "warnings" = Some (Num w) ->
  typeCounts newInfo' !! "errors" = Some (Num (a + withType "Error" (kept settings [log]))) /\
  typeCounts newInfo' !! "warnings"
  = Some (Num (w + withType "Warning" (kept settings [log]))) /\
  (forall k, k <> "errors" -> k <> "warnings" ->
     typeCounts newInfo' !! k = typeCounts newInfo !! k).
Proof.
  intros Hstep Herr Hwarn. unfold filterStep in Hstep. rewrite kept_cons.
  assert (forall i, typeCounts (filterCategory i log) = typeCounts i) as Hcat.
  { intros i. unfold filterCategory.
    destruct (categories i !! propertyKey (category log)) as [n|]; [|done].
    by destruct (n =? 0). }
  destruct (filterLog settings log); simpl in Hstep.
  - injection Hstep as <-. unfold kept, withType. simpl.
    rewrite Herr, Hwarn, !Z.add_0_r. done.
  - unfold filterTally in Hstep. simpl in Hstep.
    rewrite !withType_cons. unfold kept, withType at 1 2. simpl.
    destruct (strictEq (type log) "Error") eqn:HE.
    + injection Hstep as <-. rewrite Hcat. simpl.
      assert (strictEq (type log) "Warning" = false) as ->.
      { unfold strictEq in *. destruct (type log) as [s|]; [|done].
        apply String.eqb_eq in HE as ->. done. }
      rewrite lookup_insert_eq, Herr. rewrite lookup_insert_ne by done. rewrite Hwarn.
      simpl. split; [do 2 f_equal; lia|]. split; [do 2 f_equal; lia|].
      intros k Hk _. by rewrite lookup_insert_ne.
    + destruct (strictEq (type log) "Warning") eqn:HW.
      * injection Hstep as <-. rewrite Hcat. simpl.
        rewrite lookup_insert_eq, Hwarn. rewrite lookup_insert_ne by done. rewrite Herr.
        simpl. split; [do 2 f_equal; lia|]. split; [do 2 f_equal; lia|].
        intros k _ Hk. by rewrite lookup_insert_ne.
      * destruct (truthy (type log)); [done|].
        injection Hstep as <-. rewrite Hcat. simpl. rewrite Herr, Hwarn, !Z.add_0_r. done.
Qed.

Lemma filterLoop_typeCounts settings logList : forall newInfo newInfo' a w,
  filterLoop settings newInfo logList = Ok newInfo' ->
  typeCounts newInfo !! "errors" = Some (Num a) ->
  typeCounts newInfo !! "warnings" = Some (Num w) ->
  typeCounts newInfo' !! "errors"
  = Some (Num (a + withType "Error" (kept settings logList))) /\
  typeCounts newInfo' !! "warnings"
  = Some (Num (w + withType "Warning" (kept settings logList))) /\
  (forall k, k <> "errors" -> k <> "warnings" ->
     typeCounts newInfo' !! k = typeCounts newInfo !! k).
Proof.
  induction logList as [|log rest IH]; intros newInfo newInfo' a w Hrun Herr Hwarn.
  - injection Hrun as <-. unfold kept, withType. simpl.
    rewrite Herr, Hwarn, !Z.add_0_r. done.
  - simpl in Hrun.
    destruct (filterStep settings newInfo log) as [stepped| |] eqn:Hstep; [|done..].
    simpl in Hrun.
    destruct (filterStep_typeCounts _ _ _ _ a w Hstep Herr Hwarn) as (He & Hw & Hk).
    destruct (IH _ _ _ _ Hrun He Hw) as (He' & Hw' & Hk').
    assert (forall t, withType t (kept settings (log :: rest))
                      = withType t (kept settings [log]) + withType t (kept settings rest))
      as Hsplit.
    { intros t. rewrite !kept_cons. destruct (filterLog settings log).
      - unfold kept at 2, withType at 2. simpl. lia.
      - rewrite !withType_cons. unfold kept at 2, withType at 2. simpl. lia. }
    rewrite !Hsplit. split; [rewrite He'; do 2 f_equal; lia|].
    split; [rewrite Hw'; do 2 f_equal; lia|].
    intros k H1 H2. rewrite Hk' by done. by apply Hk.
Qed.

(** X11: when [filterLogList] returns, its report holds the entries that
    the filter lets through, in the order of the list; [totalCount] is the
    sum of their counts; the bucket [errors] is the number of those entries
    whose type is "Error" and [warnings] the number whose type is "Warning"
    (entries, not occurrences); [verbose] and [general] stay 0. *)
Theorem filterLogList_report settings logList newInfo :
  filterLogList settings logList = Ok newInfo ->
  uniqueList newInfo = kept settings logList /\
  totalCount newInfo = sumCounts (kept settings logList) /\
  typeCounts newInfo !! "errors" = Some (Num (withType "Error" (kept settings logList))) /\
  typeCounts newInfo !! "warnings"
  = Some (Num (withType "Warning" (kept settings logList))) /\
  typeCounts newInfo !! "verbose" = Some (Num 0) /\
  typeCounts newInfo !! "general" = Some (Num 0).
Proof.
  intros Hrun. unfold filterLogList in Hrun.
  destruct (filterLoop_total _ _ _ _ Hrun) as [Hu Ht].
  destruct (filterLoop_typeCounts _ _ _ _ 0 0 Hrun eq_refl eq_refl) as (He & Hw & Hk).
  split; [exact Hu|]. split; [simpl in Ht; lia|].
  split; [by rewrite He|]. split; [by rewrite Hw|].
  split; by rewrite Hk.
Qed.

Lemma filterLogList_report_witness :
  exists newInfo,
    filterLogList consolidated (parseLine <$> candidates errorsOnly) = Ok newInfo /\
    uniqueList newInfo = kept consolidated (parseLine <$> candidates errorsOnly) /\
    totalCount newInfo = sumCounts (kept consolidated (parseLine <$> candidates errorsOnly)) /\
    typeCounts newInfo !! "errors"
    = Some (Num (withType "Error" (kept consolidated (parseLine <$> candidates errorsOnly)))) /\
    typeCounts newInfo !! "warnings"
    = Some (Num (withType "Warning" (kept consolidated (parseLine <$> candidates errorsOnly)))) /\
    typeCounts newInfo !! "verbose" = Some (Num 0) /\
    typeCounts newInfo !! "general" = Some (Num 0).
Proof.
  assert (exists r, filterLogList consolidated (parseLine <$> candidates errorsOnly) = Ok r)
    as [newInfo H].
  { eexists. vm_compute. reflexivity. }
  exists newInfo. split; [exact H|].
  exact (filterLogList_report consolidated (parseLine <$> candidates errorsOnly) newInfo H).
Defined.

Lemma countsUnder_cons k e l :
  countsUnder k (e :: l)
  = (if decide (propertyKey (category e) = k) then count e else 0) + countsUnder k l.
Proof.
  unfold countsUnder. rewrite filter_cons.
  destruct (decide (propertyKey (category e) = k)); [done|lia].
Qed.

Lemma filterCategory_count newInfo log k :
  k <> "__proto__" ->
  categoryCount (filterCategory newInfo log) k
  = categoryCount newInfo k
    + (if decide (propertyKey (category log) = k) then count log else 0).
Proof.
  intros Hproto. unfold filterCategory, categoryCount.
  set (key := propertyKey (category log)).
  assert (forall v, default 0 (assign key v (categories newInfo) !! k)
                    = if decide (key = k) then v else default 0 (categories newInfo !! k))
    as Hassign.
  { intros v. unfold assign. destruct (decide (key = k)) as [->|Hne].
    - destruct (String.eqb_spec k "__proto__"); [done|]. by rewrite lookup_insert_eq.
    - destruct (String.eqb_spec key "__proto__"); [done|]. by rewrite lookup_insert_ne. }
  destruct (categories newInfo !! key) as [n|] eqn:Hkey.
  - destruct (Z.eqb_spec n 0) as [->|Hn]; simpl; rewrite Hassign;
      (destruct (decide (key = k)) as [<-|]; [rewrite Hkey; simpl; lia|lia]).
  - simpl. rewrite Hassign.
    destruct (decide (key = k)) as [<-|]; [rewrite Hkey; simpl; lia|lia].
Qed.

Lemma filterStep_categories settings newInfo log newInfo' k :
  k <> "__proto__" ->
  filterStep settings newInfo log = Ok newInfo' ->
  categoryCount newInfo' k = categoryCount newInfo k + countsUnder k (kept settings [log]).
Proof.
  intros Hproto Hstep. unfold filterStep in Hstep. rewrite kept_cons.
  destruct (filterLog settings log); simpl in Hstep.
  - injection Hstep as <-. unfold kept, countsUnder, sumCounts. simpl. lia.
  - destruct (filterTally _ log) as [tallied| |] eqn:Ht; [|done..].
    simpl in Hstep. injection Hstep as <-.
    rewrite filterCategory_count by done. rewrite countsUnder_cons.
    unfold kept, countsUnder, sumCounts. simpl.
    assert (categoryCount tallied k = categoryCount newInfo k) as ->; [|lia].
    unfold filterTally in Ht. unfold categoryCount.
    destruct (strictEq (type log) "Error"); [by injection Ht as <-|].
    destruct (strictEq (type log) "Warning"); [by injection Ht as <-|].
    destruct (truthy (type log)); [done|]. by injection Ht as <-.
Qed.

Lemma filterLoop_categories settings logList k : forall newInfo newInfo',
  k <> "__proto__" ->
  filterLoop settings newInfo logList = Ok newInfo' ->
  categoryCount newInfo' k = categoryCount newInfo k + countsUnder k (kept settings logList).
Proof.
  induction logList as [|log rest IH]; intros newInfo newInfo' Hproto Hrun.
  - injection Hrun as <-. unfold kept, countsUnder, sumCounts. simpl. lia.
  - simpl in Hrun.
    destruct (filterStep settings newInfo log) as [stepped| |] eqn:Hstep; [|done..].
    simpl in Hrun. rewrite (IH _ _ Hproto Hrun).
    rewrite (filterStep_categories _ _ _ _ _ Hproto Hstep).
    rewrite !kept_cons. destruct (filterLog settings log).
    + unfold kept at 1, countsUnder at 1, sumCounts. simpl. lia.
    + rewrite !countsUnder_cons. unfold kept at 1, countsUnder at 1, sumCounts. simpl. lia.
Qed.

(** X12: when [filterLogList] returns, the category mapping of its report
    gives every category the sum of the counts of the shown entries of that
    category (occurrences, not entries); the entries without a category are
    summed under the key "undefined".  The keys are those that
    [Object.prototype] does not define. *)
Theorem filterLogList_categories settings logList newInfo k :
  k ∉ inheritedNames ->
  filterLogList settings logList = Ok newInfo ->
  categoryCount newInfo k = countsUnder k (kept settings logList).
Proof.
  intros Hk Hrun.
  assert (k <> "__proto__") as Hproto.
  { intros ->. apply Hk. apply list_elem_of_In. simpl. auto 15. }
  rewrite (filterLoop_categories settings logList k emptyInfo newInfo Hproto Hrun).
  unfold categoryCount, emptyInfo. simpl. rewrite lookup_empty. simpl. lia.
Qed.

Lemma filterLogList_categories_witness :
  exists newInfo,
    filterLogList consolidated (parseLine <$> candidates errorsOnly) = Ok newInfo /\
    categoryCount newInfo "Core"
    = countsUnder "Core" (kept consolidated (parseLine <$> candidates errorsOnly)).
Proof.
  assert (exists r, filterLogList consolidated (parseLine <$> candidates errorsOnly) = Ok r)
    as [newInfo H].
  { eexists. vm_compute. reflexivity. }
  exists newInfo. split; [exact H|].
  apply (filterLogList_categories consolidated (parseLine <$> candidates errorsOnly)
           newInfo "Core"); [|exact H].
  intros Hin. apply list_elem_of_In in Hin. simpl in Hin.
  repeat (destruct Hin as [Hin|Hin]; [discriminate Hin|]). exact Hin.
Defined.

(** ** [partition] and [quickSort] on a whole array *)

(** X13: [partition] moves the last element of the range, the pivot, to its
    place: in front of it stand the elements of the range that are at most
    the pivot, behind it those that are greater, the returned index is where
    the pivot is, and the array outside the range is untouched. *)
Theorem partition_places_pivot (pre mid post : list Z) pivot :
  exists A B,
    partition (pre ++ mid ++ pivot :: post)
      (Z.of_nat (length pre)) (Z.of_nat (length pre + length mid)) defaultComparer
    = (pre ++ A ++ pivot :: B ++ post, Z.of_nat (length pre + length A)) /\
    A ++ B ≡ₚ mid /\
    Forall (fun x => x <= pivot) A /\
    Forall (fun x => pivot < x) B.
Proof. apply partition_spec. Qed.

(** X14: [quickSort(list, 0, list.length - 1)] sorts every array of
    numbers, with or without repeated values: the result is the ascending
    permutation of the array, and the recursion never goes deeper than the
    array is long. *)
Theorem quickSort_sorts (arr : list Z) :
  exists sorted,
    quickSort (length arr) arr 0 (Z.of_nat (length arr) - 1) defaultComparer = Ok sorted /\
    sorted ≡ₚ arr /\
    Sorted Z.le sorted.
Proof.
  destruct (quickSort_spec (length arr) [] arr []) as (sorted & Hrun & Hperm & Hsorted);
    [lia|].
  cbn [app length Nat.add] in Hrun. rewrite !app_nil_r in Hrun.
  change (Z.of_nat 0) with 0 in Hrun.
  exists sorted. split; [done|]. split; [done|]. by apply StronglySorted_Sorted.
Qed.

(** ** [getParseSummary] *)

Lemma reduce_high (rest : list LogObject) : forall first,
  let r := foldl (fun prev next => if count next >=? count prev then next else prev)
             first rest in
  r ∈ first :: rest /\ forall e, e ∈ first :: rest -> count e <= count r.
Proof.
  induction rest as [|x rest IH]; intros first; simpl.
  - split; [apply list_elem_of_here|].
    intros e ->%list_elem_of_singleton. lia.
  - destruct (IH (if count x >=? count first then x else first)) as [Hin Hmax].
    split.
    + apply elem_of_cons in Hin as [->|Hin].
      * destruct (count x >=? count first);
          [apply list_elem_of_further, list_elem_of_here|apply list_elem_of_here].
      * by do 2 apply list_elem_of_further.
    + intros e He.
      assert (count (if count x >=? count first then x else first)
              <= count (foldl (fun prev next => if count next >=? count prev then next else prev)
                          (if count x >=? count first then x else first) rest))
        as Hstep by apply Hmax, list_elem_of_here.
      apply elem_of_cons in He as [->|He];
        [|apply elem_of_cons in He as [->|He]].
      * destruct (Z.geb_spec (count x) (count first)); lia.
      * destruct (Z.geb_spec (count x) (count first)); lia.
      * by apply Hmax, list_elem_of_further.
Qed.

Lemma reduce_low (rest : list LogObject) : forall first,
  let r := foldl (fun prev next => if count next <=? count prev then next else prev)
             first rest in
  r ∈ first :: rest /\ forall e, e ∈ first :: rest -> count r <= count e.
Proof.
  induction rest as [|x rest IH]; intros first; simpl.
  - split; [apply list_elem_of_here|].
    intros e ->%list_elem_of_singleton. lia.
  - destruct (IH (if count x <=? count first then x else first)) as [Hin Hmin].
    split.
    + apply elem_of_cons in Hin as [->|Hin].
      * destruct (count x <=? count first);
          [apply list_elem_of_further, list_elem_of_here|apply list_elem_of_here].
      * by do 2 apply list_elem_of_further.
    + intros e He.
      assert (count (foldl (fun prev next => if count next <=? count prev then next else prev)
                       (if count x <=? count first then x else first) rest)
              <= count (if count x <=? count first then x else first))
        as Hstep by apply Hmin, list_elem_of_here.
      apply elem_of_cons in He as [->|He];
        [|apply elem_of_cons in He as [->|He]].
      * destruct (Z.leb_spec (count x) (count first)); lia.
      * destruct (Z.leb_spec (count x) (count first)); lia.
      * by apply Hmin, list_elem_of_further.
Qed.

Lemma getParseSummary_nonempty logInfo :
  uniqueList logInfo <> [] ->
  exists high low,
    getParseSummary logInfo = Ok (high, low) /\
    high ∈ count <$> uniqueList logInfo /\
    low ∈ count <$> uniqueList logInfo /\
    forall e, e ∈ uniqueList logInfo -> low <= count e <= high.
Proof.
  unfold getParseSummary.
  destruct (uniqueList logInfo) as [|first rest]; [done|]. intros _.
  destruct (reduce_high rest first) as [Hin Hmax].
  destruct (reduce_low rest first) as [Hin' Hmin].
  do 2 eexists. split; [reflexivity|].
  split; [by apply list_elem_of_fmap_2|]. split; [by apply list_elem_of_fmap_2|].
  intros e He. split; [by apply Hmin|by apply Hmax].
Qed.

(** X15: on a report with at least one unique entry the summary names the
    largest and the smallest count of the unique entries, in that order; on
    a report without unique entries it throws. *)
Theorem getParseSummary_range logInfo :
  (uniqueList logInfo = [] -> getParseSummary logInfo = Throw TypeError) /\
  (uniqueList logInfo <> [] ->
   exists high low,
     getParseSummary logInfo = Ok (high, low) /\
     high ∈ count <$> uniqueList logInfo /\
     low ∈ count <$> uniqueList logInfo /\
     forall e, e ∈ uniqueList logInfo -> low <= count e <= high).
Proof.
  split; [|apply getParseSummary_nonempty].
  unfold getParseSummary. by intros ->.
Qed.

Lemma getParseSummary_range_witness :
  exists high low,
    getParseSummary (mkInfo 3 threeEntries ∅ ∅ None None) = Ok (high, low) /\
    high ∈ count <$> threeEntries /\
    low ∈ count <$> threeEntries /\
    forall e, e ∈ threeEntries -> low <= count e <= high.
Proof.
  destruct (getParseSummary_range (mkInfo 3 threeEntries ∅ ∅ None None)) as [_ H].
  apply H. discriminate.
Defined.

Lemma foldUnique_length uniqueList info :
  (length uniqueList <= length (foldUnique uniqueList info))%nat /\
  (1 <= length (foldUnique uniqueList info))%nat.
Proof.
  unfold foldUnique.
  destruct (list_find (sameLog info) uniqueList) as [[i x]|] eqn:Hfind.
  - rewrite length_alter. split; [done|].
    apply list_find_Some in Hfind as (Hx & _). apply lookup_lt_Some in Hx. lia.
  - rewrite length_app. simpl. lia.
Qed.

Lemma foldUnique_all_length matchArray : forall uniqueList,
  (length uniqueList <= length (foldl foldUnique uniqueList matchArray))%nat.
Proof.
  induction matchArray as [|r rest IH]; intros ul; simpl; [done|].
  etrans; [|apply IH]. apply foldUnique_length.
Qed.

Lemma parseText_Ok_candidates settings data input fileName data' logInfo :
  parseText settings data input fileName = Ok (data', logInfo) -> candidates input <> [].
Proof.
  rewrite candidates_scan. unfold parseText, extract, match_global.
  by destruct (scan logRegex input 0).
Qed.

Lemma parseText_uniqueList_nonempty settings data input fileName data' logInfo :
  parseText settings data input fileName = Ok (data', logInfo) ->
  uniqueList logInfo <> [].
Proof.
  intros Hrun.
  pose proof (parseText_Ok_candidates _ _ _ _ _ _ Hrun) as Hne.
  apply parseText_Ok_inv in Hrun.
  apply processParsedLog_Ok_inv in Hrun as (_ & Hunique & _).
  destruct (candidates input) as [|c cs]; [done|].
  intros Hnil. apply (f_equal length) in Hunique. rewrite Hnil in Hunique.
  rewrite fmap_cons in Hunique. cbn [foldl] in Hunique.
  pose proof (foldUnique_all_length (parseLine <$> cs)
                (foldUnique (uniqueList (baseInfo settings data)) (parseLine c))) as Hlen.
  pose proof (foldUnique_length (uniqueList (baseInfo settings data)) (parseLine c)) as Hone.
  simpl in Hunique. lia.
Qed.

(** X16: the summary never changes what [parseText] does: a report that
    [parseText] returns has at least one unique entry, so the two [reduce]
    calls of the summary find an element to start from. *)
Theorem parseTextWithSummary_same settings data input fileName :
  parseTextWithSummary settings data input fileName
  = parseText settings data input fileName.
Proof.
  unfold parseTextWithSummary.
  destruct (parseText settings data input fileName) as [[data' logInfo]|e|] eqn:Hrun;
    [|done..].
  simpl. destruct (summarize settings); [|done].
  destruct (getParseSummary_nonempty logInfo) as (high & low & -> & _); [|done].
  by eapply parseText_uniqueList_nonempty.
Qed.

(** ** [loadText] *)

Lemma assign_lookup {V} (k k' : string) (v : V) (o : gmap string V) :
  k' <> "__proto__" ->
  assign k v o !! k' = if decide (k = k') then Some v else o !! k'.
Proof.
  intros Hproto. unfold assign. destruct (decide (k = k')) as [->|Hne].
  - destruct (String.eqb_spec k' "__proto__"); [done|]. by rewrite lookup_insert_eq.
  - destruct (String.eqb_spec k "__proto__"); [done|]. by rewrite lookup_insert_ne.
Qed.

Lemma assign_lookup_other {V} (k k' : string) (v : V) (o : gmap string V) :
  k <> k' -> assign k v o !! k' = o !! k'.
Proof.
  intros Hne. unfold assign.
  destruct (String.eqb_spec k "__proto__"); [done|]. by rewrite lookup_insert_ne.
Qed.

Lemma loadText_spec settings env fileNames : forall content,
  (forall f, f ∈ fileNames ->
     exists text, readFileSync env (getPathToFile settings env f) = Ok text) ->
  exists content',
    loadText settings env content fileNames = Ok content' /\
    (forall f text, f ∈ fileNames -> f <> "__proto__" ->
       readFileSync env (getPathToFile settings env f) = Ok text ->
       content' !! f = Some text) /\
    (forall f, f ∉ fileNames -> content' !! f = content !! f).
Proof.
  induction fileNames as [|f0 rest IH]; intros content Hread.
  - exists content. split; [done|]. split; [|done].
    by intros f text ?%elem_of_nil.
  - destruct (Hread f0 (list_elem_of_here _ _)) as [text0 Htext0].
    destruct (IH (assign f0 text0 content)) as (content' & Hrun & Hin & Hout).
    { intros f Hf. apply Hread. by apply list_elem_of_further. }
    exists content'. split; [simpl; by rewrite Htext0|]. split.
    + intros f text Hf Hproto Htext.
      destruct (decide (f ∈ rest)) as [Hrest|Hrest]; [by apply Hin|].
      apply elem_of_cons in Hf as [->|Hf]; [|done].
      rewrite (Hout f0 Hrest), assign_lookup by done.
      rewrite decide_True by done. congruence.
    + intros f Hf. apply not_elem_of_cons in Hf as [Hne Hf].
      rewrite (Hout f Hf). by apply assign_lookup_other.
Qed.

(** X17: when every file of the list can be read, [loadText] returns, the
    text of each file is stored under its name (a name other than
    [__proto__]), and the entries of [textContent] under other names are
    left as they were. *)
Theorem loadText_stores_texts settings env fileNames : forall content,
  (forall f, f ∈ fileNames ->
     exists text, readFileSync env (getPathToFile settings env f) = Ok text) ->
  exists content',
    loadText settings env content fileNames = Ok content' /\
    (forall f text, f ∈ fileNames -> f <> "__proto__" ->
       readFileSync env (getPathToFile settings env f) = Ok text ->
       content' !! f = Some text) /\
    (forall f, f ∉ fileNames -> content' !! f = content !! f).
Proof. apply loadText_spec. Qed.

Lemma loadText_stores_texts_witness :
  exists content',
    loadText perFile (mkEnv "C:" sampleFiles) ∅ ["a.log"; "b.log"] = Ok content' /\
    (forall f text, f ∈ ["a.log"; "b.log"] -> f <> "__proto__" ->
       readFileSync (mkEnv "C:" sampleFiles) (getPathToFile perFile (mkEnv "C:" sampleFiles) f)
       = Ok text ->
       content' !! f = Some text) /\
    (forall f, f ∉ ["a.log"; "b.log"] -> content' !! f = (∅ : gmap string string) !! f).
Proof.
  apply (loadText_stores_texts perFile (mkEnv "C:" sampleFiles) ["a.log"; "b.log"] ∅).
  intros f Hf. apply list_elem_of_In in Hf. simpl in Hf.
  destruct Hf as [<-|[<-|[]]]; eexists; vm_compute; reflexivity.
Defined.

(** ** Sorting again *)

Lemma sortLogsByCount_Ok_inv uniqueList sorted :
  sortLogsByCount uniqueList = Ok sorted ->
  uniqueList <> [] /\ StableByCount uniqueList sorted.
Proof.
  intros Hrun. destruct uniqueList as [|e rest]; [done|]. split; [done|].
  destruct (sortLogsByCount_stable (e :: rest)) as (sorted' & Hrun' & Hstable); [done|].
  congruence.
Qed.

#[local] Instance countLe_transitive : Transitive countLe.
Proof. intros a b c. unfold countLe. lia. Qed.

Lemma filter_hasCount_elem (l : list LogObject) e :
  e ∈ l -> e ∈ filter (hasCount (count e)) l.
Proof. intros He. by apply list_elem_of_filter. Qed.

(** Two lists in ascending order of count with the same entries, in the
    same order, under every count are one list. *)
Lemma sorted_by_count_unique l1 : forall l2,
  StronglySorted countLe l1 -> StronglySorted countLe l2 ->
  (forall c, filter (hasCount c) l1 = filter (hasCount c) l2) ->
  l1 = l2.
Proof.
  induction l1 as [|e1 l1 IH]; intros l2 Hs1 Hs2 Hfilter.
  - destruct l2 as [|e2 l2]; [done|].
    specialize (Hfilter (count e2)). rewrite filter_cons, decide_True in Hfilter by done.
    done.
  - destruct l2 as [|e2 l2].
    { specialize (Hfilter (count e1)). rewrite filter_cons, decide_True in Hfilter by done.
      done. }
    apply StronglySorted_cons in Hs1 as [Hmin1 Hs1].
    apply StronglySorted_cons in Hs2 as [Hmin2 Hs2].
    assert (count e1 = count e2) as Hcount.
    { apply Z.le_antisymm.
      - assert (e2 ∈ e1 :: l1) as Hin.
        { assert (e2 ∈ filter (hasCount (count e2)) (e1 :: l1)) as H.
          { rewrite Hfilter. apply filter_hasCount_elem, list_elem_of_here. }
          by apply list_elem_of_filter in H as [_ H]. }
        apply elem_of_cons in Hin as [->|Hin]; [lia|].
        rewrite Forall_forall in Hmin1. by apply Hmin1.
      - assert (e1 ∈ e2 :: l2) as Hin.
        { assert (e1 ∈ filter (hasCount (count e1)) (e2 :: l2)) as H.
          { rewrite <- Hfilter. apply filter_hasCount_elem, list_elem_of_here. }
          by apply list_elem_of_filter in H as [_ H]. }
        apply elem_of_cons in Hin as [->|Hin]; [lia|].
        rewrite Forall_forall in Hmin2. by apply Hmin2. }
    pose proof (Hfilter (count e1)) as Hhead.
    rewrite !filter_cons in Hhead.
    rewrite decide_True in Hhead by done.
    rewrite decide_True in Hhead by (unfold hasCount; congruence).
    injection Hhead as <- Htail.
    f_equal. apply IH; [done..|].
    intros c. destruct (decide (c = count e1)) as [->|Hne]; [done|].
    specialize (Hfilter c). rewrite !filter_cons in Hfilter.
    rewrite !decide_False in Hfilter by (unfold hasCount; congruence). done.
Qed.

(** X18: sorting is idempotent: the list that [sortLogsByCount] returns is
    returned unchanged when it is sorted again. *)
Theorem sortLogsByCount_idempotent uniqueList sorted :
  sortLogsByCount uniqueList = Ok sorted -> sortLogsByCount sorted = Ok sorted.
Proof.
  intros Hrun. apply sortLogsByCount_Ok_inv in Hrun as [Hne (Hsorted & Hperm & Hfilter)].
  assert (sorted <> []) as Hne'.
  { intros ->. by apply Permutation_nil_l in Hperm. }
  destruct (sortLogsByCount_stable sorted Hne') as (again & Hrun' & Hsorted' & _ & Hfilter').
  rewrite Hrun'. f_equal.
  apply sorted_by_count_unique;
    [apply Sorted_StronglySorted; [apply _|assumption]
    |apply Sorted_StronglySorted; [apply _|assumption]
    |done].
Qed.

Lemma sortLogsByCount_idempotent_witness :
  exists sorted,
    sortLogsByCount threeEntries = Ok sorted /\ sortLogsByCount sorted = Ok sorted.
Proof.
  assert (exists r, sortLogsByCount threeEntries = Ok r) as [sorted H].
  { eexists. vm_compute. reflexivity. }
  exists sorted. split; [exact H|].
  exact (sortLogsByCount_idempotent threeEntries sorted H).
Defined.

(** ** What a run leaves behind *)

Lemma StronglySorted_filter {A} (R : relation A) (P : A -> Prop)
    `{forall x, Decision (P x)} (l : list A) :
  StronglySorted R l -> StronglySorted R (filter P l).
Proof.
  induction 1 as [|x l Hsorted IH Hhd]; [constructor|].
  rewrite filter_cons. destruct (decide (P x)); [|done].
  constructor; [done|].
  apply Forall_forall. intros y [_ Hy]%list_elem_of_filter.
  rewrite Forall_forall in Hhd. by apply Hhd.
Qed.

Lemma kept_sorted settings (l : list LogObject) :
  Sorted countLe l -> Sorted countLe (kept settings l).
Proof.
  intros Hsorted. apply StronglySorted_Sorted. unfold kept.
  apply StronglySorted_filter. by apply Sorted_StronglySorted; [apply _|].
Qed.

(** X19: a consolidated run that completes leaves the unique entries of
    [logData] in ascending order of count, and its report shows, in that
    order, the entries that the filter lets through; the total of the report
    is the sum of their counts, and each of them has the type "Error", the
    type "Warning" or no type. *)
Theorem run_consolidated_report settings env st fileList result :
  consolidate settings = true ->
  fileList <> [] ->
  run settings env st fileList = Ok result ->
  exists newInfo,
    report result = Some newInfo /\
    Sorted countLe (uniqueList (self (logData (final result)))) /\
    uniqueList newInfo = kept settings (uniqueList (self (logData (final result)))) /\
    Sorted countLe (uniqueList newInfo) /\
    totalCount newInfo = sumCounts (uniqueList newInfo) /\
    Forall (fun e => customType e = false) (uniqueList newInfo).
Proof.
  intros Hmode Hne Hrun. unfold run in Hrun.
  destruct fileList as [|f rest]; [done|].
  remember (f :: rest) as l eqn:Hl.
  destruct (loadText settings env (textContent st) l) as [content| |]; [|done..].
  simpl in Hrun.
  destruct (parseFiles settings env _ l) as [st'| |]; [|done..].
  simpl in Hrun. rewrite Hmode in Hrun.
  destruct (sortLogsByCount (uniqueList (self (logData st')))) as [sorted| |] eqn:Hsort;
    [|done..].
  simpl in Hrun.
  destruct (filterLogList settings sorted) as [filtered| |] eqn:Hfilter; [|done..].
  simpl in Hrun. injection Hrun as <-. simpl.
  apply sortLogsByCount_Ok_inv in Hsort as [_ (Hsorted & _)].
  pose proof (filterLoop_outcome settings sorted emptyInfo) as Hout.
  unfold filterLogList in Hfilter. rewrite Hfilter in Hout.
  destruct (filterLoop_total _ _ _ _ Hfilter) as [Hu Ht]. simpl in Hu, Ht.
  exists filtered. split; [done|]. split; [done|]. split; [done|].
  rewrite Hu. split; [by apply kept_sorted|]. split; [lia|done].
Qed.

Lemma run_consolidated_report_witness :
  exists result newInfo,
    run consolidated (mkEnv "C:" errorFiles) initialState ["a.log"] = Ok result /\
    report result = Some newInfo /\
    Sorted countLe (uniqueList (self (logData (final result)))) /\
    uniqueList newInfo = kept consolidated (uniqueList (self (logData (final result)))) /\
    Sorted countLe (uniqueList newInfo) /\
    totalCount newInfo = sumCounts (uniqueList newInfo) /\
    Forall (fun e => customType e = false) (uniqueList newInfo).
Proof.
  assert (exists r, run consolidated (mkEnv "C:" errorFiles) initialState ["a.log"] = Ok r)
    as [result H].
  { eexists. vm_compute. reflexivity. }
  destruct (run_consolidated_report consolidated (mkEnv "C:" errorFiles) initialState
              ["a.log"] result eq_refl ltac:(discriminate) H) as (newInfo & Hreport).
  by exists result, newInfo.
Defined.

Lemma sortEach_sorted dataList : forall sortedList,
  sortEach dataList = Ok sortedList ->
  Forall (fun d => Sorted countLe (uniqueList d)) sortedList /\
  sourceFile <$> sortedList = sourceFile <$> dataList /\
  totalCount <$> sortedList = totalCount <$> dataList.
Proof.
  induction dataList as [|d rest IH]; intros sortedList Hrun.
  - injection Hrun as <-. split; [constructor|done].
  - simpl in Hrun.
    destruct (sortLogsByCount (uniqueList d)) as [sorted| |] eqn:Hsort; [|done..].
    simpl in Hrun. destruct (sortEach rest) as [rest'| |]; [|done..].
    simpl in Hrun. injection Hrun as <-.
    destruct (IH rest' eq_refl) as (Hall & Hsrc & Htot).
    apply sortLogsByCount_Ok_inv in Hsort as [_ (Hsorted & _)].
    split; [by constructor|]. rewrite !fmap_cons. by rewrite Hsrc, Htot.
Qed.

(** X20: a per-file run that completes produces no consolidated report and
    leaves every report of [logData.dataList] with its unique entries in
    ascending order of count. *)
Theorem run_per_file_sorted settings env st fileList result :
  consolidate settings = false ->
  fileList <> [] ->
  run settings env st fileList = Ok result ->
  report result = None /\
  Forall (fun d => Sorted countLe (uniqueList d)) (dataList (logData (final result))).
Proof.
  intros Hmode Hne Hrun. unfold run in Hrun.
  destruct fileList as [|f rest]; [done|].
  remember (f :: rest) as l eqn:Hl.
  destruct (loadText settings env (textContent st) l) as [content| |]; [|done..].
  simpl in Hrun.
  destruct (parseFiles settings env _ l) as [st'| |]; [|done..].
  simpl in Hrun. rewrite Hmode in Hrun.
  destruct (sortEach (dataList (logData st'))) as [lists| |] eqn:Hsort; [|done..].
  simpl in Hrun. injection Hrun as <-. simpl. split; [done|].
  by apply sortEach_sorted in Hsort as [Hall _].
Qed.

Lemma run_per_file_sorted_witness :
  exists result,
    run perFile (mkEnv "C:" sampleFiles) initialState ["a.log"; "b.log"] = Ok result /\
    report result = None /\
    Forall (fun d => Sorted countLe (uniqueList d)) (dataList (logData (final result))).
Proof.
  assert (exists r, run perFile (mkEnv "C:" sampleFiles) initialState ["a.log"; "b.log"] = Ok r)
    as [result H].
  { eexists. vm_compute. reflexivity. }
  exists result. split; [exact H|].
  exact (run_per_file_sorted perFile (mkEnv "C:" sampleFiles) initialState
           ["a.log"; "b.log"] result eq_refl ltac:(discriminate) H).
Defined.

Lemma parseText_per_file settings data input fileName :
  consolidate settings = false ->
  fileName <> "" ->
  candidates input <> [] ->
  Forall (fun c => invalidType (parseLine c) = false) (candidates input) ->
  exists logInfo,
    parseText settings data input (Some fileName)
    = Ok (mkData (self data) (dataList data ++ [logInfo]), logInfo) /\
    sourceFile logInfo = Some fileName /\
    uniqueList logInfo <> [] /\
    totalCount logInfo = Z.of_nat (length (candidates input)).
Proof.
  intros Hmode Hname Hne Hvalid.
  assert (exists logInfo,
    parseText settings data input (Some fileName)
    = Ok (mkData (self data) (dataList data ++ [logInfo]), logInfo) /\
    sourceFile logInfo = Some fileName) as (logInfo & Hrun & Hsource).
  { rewrite candidates_scan in Hne, Hvalid. unfold parseText, extract, match_global.
    destruct (scan logRegex input 0) as [|c cs]; [done|].
    unfold processParsedLog.
    rewrite processAll_valid by by apply Forall_fmap.
    rewrite Hmode. simpl.
    destruct (String.eqb_spec fileName ""); [done|]. simpl.
    eexists. split; reflexivity. }
  exists logInfo. split; [done|]. split; [done|].
  split; [by eapply parseText_uniqueList_nonempty|].
  apply parseText_Ok_inv, processParsedLog_Ok_inv in Hrun as (_ & _ & Htotal & _).
  rewrite length_fmap in Htotal. unfold baseInfo in Htotal.
  rewrite Hmode in Htotal. simpl in Htotal. lia.
Qed.

Lemma existsSync_readable env path text :
  readFileSync env path = Ok text -> existsSync env path = true.
Proof.
  destruct path as [p|]; [|done]. simpl.
  destruct (files env !! p) as [[?|]|] eqn:Hfile; [|done..].
  intros _. by apply bool_decide_eq_true_2.
Qed.

Lemma parseFiles_per_file settings env content fileList : forall data,
  consolidate settings = false ->
  (forall f text, f ∈ fileList -> f <> "__proto__" ->
     readFileSync env (getPathToFile settings env f) = Ok text ->
     content !! f = Some text) ->
  Forall (processable settings env) fileList ->
  exists reports,
    parseFiles settings env (mkState data content) fileList
    = Ok (mkState (mkData (self data) (dataList data ++ reports)) content) /\
    sourceFile <$> reports = Some <$> fileList /\
    totalCount <$> reports = candidateCount settings env <$> fileList /\
    Forall (fun d => uniqueList d <> []) reports.
Proof.
  induction fileList as [|f rest IH]; intros data Hmode Hcontent Hfiles.
  - exists []. rewrite app_nil_r. by destruct data.
  - apply Forall_cons in Hfiles as [(Hname & Hproto & text & Hread & Hne & Hvalid) Hrest].
    destruct (parseText_per_file settings data text f Hmode Hname Hne Hvalid)
      as (logInfo & Hrun & Hsource & Hunique & Htotal).
    destruct (IH (mkData (self data) (dataList data ++ [logInfo])) Hmode)
      as (reports & Hruns & Hsources & Htotals & Huniques); [|done|].
    { intros f' text' Hf'. apply Hcontent. by apply list_elem_of_further. }
    exists (logInfo :: reports). split.
    + cbn [parseFiles]. rewrite (existsSync_readable _ _ _ Hread).
      cbn [textContent logData].
      rewrite (Hcontent f text (list_elem_of_here _ _) Hproto Hread), Hrun.
      simpl. rewrite Hruns. simpl. by rewrite <- app_assoc.
    + rewrite !fmap_cons, Hsources, Htotals, Hsource, Htotal.
      unfold candidateCount. rewrite Hread. by split_and!; [..|constructor].
Qed.

Lemma sortEach_nonempty dataList :
  Forall (fun d => uniqueList d <> []) dataList ->
  exists sortedList, sortEach dataList = Ok sortedList.
Proof.
  induction 1 as [|d rest Hd _ [sortedList IH]]; [by eexists|].
  destruct (sortLogsByCount_stable (uniqueList d) Hd) as (sorted & Hsort & _).
  eexists. simpl. rewrite Hsort. simpl. rewrite IH. reflexivity.
Qed.

(** X21: a per-file run over processable files completes when every report
    already in [logData.dataList] has a unique entry.  It appends one report
    per file, in the order of the list, each named after its file and
    counting the candidates of its file; the consolidated report
    [logData.self] is left as it was, and every report is in ascending order
    of count. *)
Theorem run_per_file_completes settings env st fileList :
  consolidate settings = false ->
  fileList <> [] ->
  Forall (processable settings env) fileList ->
  Forall (fun d => uniqueList d <> []) (dataList (logData st)) ->
  exists result,
    run settings env st fileList = Ok result /\
    report result = None /\
    self (logData (final result)) = self (logData st) /\
    sourceFile <$> dataList (logData (final result))
    = (sourceFile <$> dataList (logData st)) ++ (Some <$> fileList) /\
    totalCount <$> dataList (logData (final result))
    = (totalCount <$> dataList (logData st)) ++ (candidateCount settings env <$> fileList) /\
    Forall (fun d => Sorted countLe (uniqueList d)) (dataList (logData (final result))).
Proof.
  intros Hmode Hne Hfiles Hold. unfold run.
  destruct fileList as [|f rest]; [done|].
  remember (f :: rest) as l eqn:Hl.
  destruct (loadText_spec settings env l (textContent st))
    as (content & -> & Hcontent & _).
  { intros f' Hf'. rewrite Forall_forall in Hfiles.
    destruct (Hfiles f' Hf') as (_ & _ & text & Hread & _). by exists text. }
  simpl.
  destruct (parseFiles_per_file settings env content l (logData st) Hmode Hcontent Hfiles)
    as (reports & -> & Hsources & Htotals & Huniques).
  simpl. rewrite Hmode.
  destruct (sortEach_nonempty (dataList (logData st) ++ reports)) as [lists Hsort].
  { by apply Forall_app. }
  rewrite Hsort. simpl. eexists. split; [reflexivity|]. simpl.
  apply sortEach_sorted in Hsort as (Hsorted & Hsrc & Htot).
  rewrite Hsrc, Htot, !fmap_app, Hsources, Htotals. done.
Qed.

Lemma run_per_file_completes_witness :
  exists result,
    run perFile (mkEnv "C:" sampleFiles) initialState ["a.log"; "b.log"] = Ok result /\
    report result = None /\
    self (logData (final result)) = self initialLogData /\
    sourceFile <$> dataList (logData (final result)) = [Some "a.log"; Some "b.log"] /\
    totalCount <$> dataList (logData (final result)) = [4; 1] /\
    Forall (fun d => Sorted countLe (uniqueList d)) (dataList (logData (final result))).
Proof.
  apply (run_per_file_completes perFile (mkEnv "C:" sampleFiles) initialState
           ["a.log"; "b.log"] eq_refl).
  - discriminate.
  - repeat constructor; try discriminate; eexists;
      (split; [vm_compute; reflexivity|]); (split; [discriminate|]);
      vm_compute; repeat constructor.
  - constructor.
Defined.

Lemma loadText_Ok_inv settings env fileNames : forall content content',
  loadText settings env content fileNames = Ok content' ->
  forall f, f ∈ fileNames ->
    exists text, readFileSync env (getPathToFile settings env f) = Ok text.
Proof.
  induction fileNames as [|f0 rest IH]; intros content content' Hrun f Hf.
  - by apply elem_of_nil in Hf.
  - simpl in Hrun.
    destruct (readFileSync env (getPathToFile settings env f0)) as [text0| |] eqn:Hread;
      [|done..].
    apply elem_of_cons in Hf as [->|Hf]; [by exists text0|]. by eapply IH.
Qed.

Lemma sumCounts_Permutation l1 l2 : l1 ≡ₚ l2 -> sumCounts l1 = sumCounts l2.
Proof.
  unfold sumCounts. induction 1; simpl; lia.
Qed.

Lemma parseText_consolidated settings data input fileName data' logInfo :
  consolidate settings = true ->
  parseText settings data input fileName = Ok (data', logInfo) ->
  data' = mkData logInfo (dataList data) /\
  totalCount logInfo = totalCount (self data) + Z.of_nat (length (candidates input)) /\
  sumCounts (uniqueList logInfo)
  = sumCounts (uniqueList (self data)) + Z.of_nat (length (candidates input)).
Proof.
  intros Hmode Hrun.
  destruct (parseText_Ok_counts _ _ _ _ _ _ Hrun) as [Htotal Hsum].
  unfold baseInfo in Htotal, Hsum. rewrite Hmode in Htotal, Hsum.
  split; [|done].
  apply parseText_Ok_inv in Hrun. unfold processParsedLog in Hrun.
  destruct (processAll _ _) as [info| |]; [|done..].
  simpl in Hrun. rewrite Hmode in Hrun. by injection Hrun as <- <-.
Qed.

Lemma parseFiles_consolidated settings env content fileList : forall data st',
  consolidate settings = true ->
  (forall f, f ∈ fileList ->
     exists text, readFileSync env (getPathToFile settings env f) = Ok text /\
                  content !! f = Some text) ->
  parseFiles settings env (mkState data content) fileList = Ok st' ->
  totalCount (self (logData st'))
  = totalCount (self data) + candidateTotal settings env fileList /\
  sumCounts (uniqueList (self (logData st')))
  = sumCounts (uniqueList (self data)) + candidateTotal settings env fileList /\
  dataList (logData st') = dataList data.
Proof.
  induction fileList as [|f rest IH]; intros data st' Hmode Hcontent Hrun.
  - injection Hrun as <-. simpl. split_and!; [lia..|done].
  - destruct (Hcontent f (list_elem_of_here _ _)) as (text & Hread & Hlookup).
    cbn [parseFiles] in Hrun. rewrite (existsSync_readable _ _ _ Hread) in Hrun.
    cbn [textContent logData] in Hrun. rewrite Hlookup in Hrun.
    destruct (parseText settings data text (Some f)) as [[data1 logInfo]| |] eqn:Hparse;
      [|done..].
    simpl in Hrun.
    destruct (parseText_consolidated _ _ _ _ _ _ Hmode Hparse) as (-> & Htotal & Hsum).
    apply IH in Hrun as (Htotal' & Hsum' & Hlist); [|done|].
    2: { intros f' Hf'. apply Hcontent. by apply list_elem_of_further. }
    simpl in Htotal', Hsum', Hlist.
    cbn [candidateTotal foldr]. unfold candidateCount at 1 3. rewrite Hread.
    fold (candidateTotal settings env rest). split_and!; [lia..|done].
Qed.

(** X22: nothing is lost across the files of a consolidated run.  When the
    run completes over files none of which is named [__proto__], the total
    of [logData.self] and the sum of the counts of its unique entries have
    both grown by the number of candidates in all the files, and
    [logData.dataList] is left as it was. *)
Theorem run_consolidated_totals settings env st fileList result :
  consolidate settings = true ->
  "__proto__" ∉ fileList ->
  run settings env st fileList = Ok result ->
  totalCount (self (logData (final result)))
  = totalCount (self (logData st)) + candidateTotal settings env fileList /\
  sumCounts (uniqueList (self (logData (final result))))
  = sumCounts (uniqueList (self (logData st))) + candidateTotal settings env fileList /\
  dataList (logData (final result)) = dataList (logData st).
Proof.
  intros Hmode Hproto Hrun. unfold run in Hrun.
  destruct fileList as [|f rest].
  { injection Hrun as <-. simpl. split_and!; [lia..|done]. }
  remember (f :: rest) as l eqn:Hl.
  destruct (loadText settings env (textContent st) l) as [content| |] eqn:Hload; [|done..].
  simpl in Hrun.
  destruct (parseFiles settings env _ l) as [st'| |] eqn:Hparse; [|done..].
  simpl in Hrun. rewrite Hmode in Hrun.
  destruct (sortLogsByCount (uniqueList (self (logData st')))) as [sorted| |] eqn:Hsort;
    [|done..].
  simpl in Hrun.
  destruct (filterLogList settings sorted) as [filtered| |]; [|done..].
  simpl in Hrun. injection Hrun as <-. simpl.
  apply sortLogsByCount_Ok_inv in Hsort as [_ (_ & Hperm & _)].
  rewrite (sumCounts_Permutation _ _ Hperm).
  apply parseFiles_consolidated in Hparse; [done..|].
  intros f' Hf'.
  destruct (loadText_Ok_inv _ _ _ _ _ Hload f' Hf') as [text Hread].
  exists text. split; [done|].
  destruct (loadText_spec settings env l (textContent st)) as (content' & Hload' & Hin & _).
  { by eapply loadText_Ok_inv. }
  assert (content' = content) as -> by congruence.
  apply Hin; [done| |done]. intros ->. done.
Qed.

Lemma run_consolidated_totals_witness :
  exists result,
    run consolidated (mkEnv "C:" errorFiles) initialState ["a.log"] = Ok result /\
    totalCount (self (logData (final result))) = 0 + 3 /\
    sumCounts (uniqueList (self (logData (final result)))) = 0 + 3 /\
    dataList (logData (final result)) = [].
Proof.
  assert (exists r, run consolidated (mkEnv "C:" errorFiles) initialState ["a.log"] = Ok r)
    as [result H].
  { eexists. vm_compute. reflexivity. }
  exists result. split; [exact H|].
  refine (run_consolidated_totals consolidated (mkEnv "C:" errorFiles) initialState
            ["a.log"] result eq_refl _ H).
  intros Hin. apply list_elem_of_In in Hin. simpl in Hin. by destruct Hin as [?|[]].
Defined.

(** * Lines among other lines *)

(** ** The lines of a text *)

Lemma lines_all_dot s : Forall (fun l => Str.all Char.dot l = true) (lines s).
Proof.
  induction s as [|c s IH]; [by repeat constructor|].
  simpl. destruct (Char.line_terminator c) eqn:Hc; [by constructor|].
  destruct (lines s) as [|l ls]; simpl.
  - repeat constructor. simpl. by rewrite dot_line_terminator, Hc.
  - apply Forall_cons in IH as [Hl Hls]. constructor; [|done].
    simpl. by rewrite dot_line_terminator, Hc.
Qed.

Lemma lines_single s : Str.all Char.dot s = true -> lines s = [s].
Proof.
  induction s as [|c s IH]; [done|]. simpl. intros H.
  apply andb_true_iff in H as [Hc Hs]. rewrite dot_line_terminator in Hc.
  destruct (Char.line_terminator c); [done|]. by rewrite (IH Hs).
Qed.

Lemma candidates_lines input : candidates input = omap lineMatch (lines input).
Proof. rewrite candidates_scan. apply scan_lines. Qed.

(** A line that is a candidate, with or without the bracketed prefix in
    front of it, yields that candidate. *)
Lemma lineMatch_scan l c :
  Str.all Char.dot l = true -> scan logRegex l 0 = [c] -> lineMatch l = Some c.
Proof.
  intros Hl Hscan. destruct (scan_lines l) as [Hlines _].
  rewrite (lines_single l Hl), Hscan in Hlines. simpl in Hlines.
  destruct (lineMatch l); by simplify_eq.
Qed.

Lemma lineMatch_candidate line : isCandidate line -> lineMatch line = Some line.
Proof.
  intros Hcand. apply lineMatch_scan; [by destruct Hcand as (_ & _ & ?)|].
  rewrite <- (append_nil_r line) at 1. by rewrite scan_line.
Qed.

Lemma lineMatch_prefixed A B line :
  isCandidate line ->
  contains "Log" (bracketPrefix A B) = false ->
  Str.all Char.dot (bracketPrefix A B +:+ line) = true ->
  lineMatch (bracketPrefix A B +:+ line) = Some line.
Proof.
  intros Hcand Hprefix Hdot. apply lineMatch_scan; [done|].
  destruct (isCandidate_cons line Hcand) as [s3 Hline].
  rewrite Hline at 1.
  change ("Log" +:+ s3) with (String "L" ("og" +:+ s3)).
  rewrite scan_no_marker by done.
  change (String "L" ("og" +:+ s3)) with ("Log" +:+ s3). rewrite <- Hline.
  rewrite <- (append_nil_r line) at 1. by rewrite scan_line.
Qed.

(** ** The entry that a record is folded into *)

Lemma sameLog_addSibling info text e : sameLog info (addSibling text e) <-> sameLog info e.
Proof. done. Qed.

Lemma firstMatch_alter info i j f (l : list LogObject) :
  (forall e, sameLog info (f e) <-> sameLog info e) ->
  firstMatch info i l -> firstMatch info i (alter f j l).
Proof.
  intros Hf [e He]. apply list_find_Some in He as (Hi & HP & Hmin).
  exists (if decide (j = i) then f e else e).
  apply list_find_Some. split_and!.
  - destruct (decide (j = i)) as [->|Hne].
    + by rewrite list_lookup_alter_eq, Hi.
    + by rewrite list_lookup_alter_ne.
  - destruct (decide (j = i)); [by apply Hf|done].
  - intros k y Hk Hlt. destruct (decide (j = k)) as [->|Hne].
    + rewrite list_lookup_alter_eq in Hk.
      destruct (l !! k) as [z|] eqn:Hz; [|done]. simpl in Hk. injection Hk as <-.
      rewrite Hf. by eapply Hmin.
    + rewrite list_lookup_alter_ne in Hk by done. by eapply Hmin.
Qed.

Lemma firstMatch_foldUnique info i uniqueList other :
  firstMatch info i uniqueList -> firstMatch info i (foldUnique uniqueList other).
Proof.
  intros Hfirst. unfold foldUnique.
  destruct (list_find (sameLog other) uniqueList) as [[j found]|].
  - apply firstMatch_alter; [|done]. intros e. apply sameLog_addSibling.
  - destruct Hfirst as [e He]. exists e. by apply list_find_app_l.
Qed.

Lemma firstMatch_fold info i others : forall uniqueList,
  firstMatch info i uniqueList -> firstMatch info i (foldl foldUnique uniqueList others).
Proof.
  induction others as [|other rest IH]; intros uniqueList Hfirst; [done|].
  simpl. by apply IH, firstMatch_foldUnique.
Qed.

(** The record goes to the entry that line 208 finds. *)
Lemma foldUnique_found info i uniqueList :
  firstMatch info i uniqueList ->
  countAt (foldUnique uniqueList info) i = countAt uniqueList i + 1 /\
  exists e, foldUnique uniqueList info !! i = Some e /\ logText info ∈ siblings e.
Proof.
  intros [found Hfound]. unfold foldUnique, countAt. rewrite Hfound.
  apply list_find_Some in Hfound as (Hi & _).
  rewrite list_lookup_alter_eq, Hi. simpl. split; [done|].
  eexists. split; [done|]. simpl. apply elem_of_app. right. by apply list_elem_of_singleton.
Qed.

(** A record whose raw text survives the stripping is found again at the
    entry that took it first. *)
Lemma foldUnique_lands info uniqueList :
  stripPrefix (logText info) = logText info ->
  count info = 1 ->
  exists i,
    countAt (foldUnique uniqueList info) i = countAt uniqueList i + 1 /\
    firstMatch info i (foldUnique uniqueList info).
Proof.
  intros Hstrip Hcount.
  destruct (list_find (sameLog info) uniqueList) as [[i found]|] eqn:Hfind.
  - assert (firstMatch info i uniqueList) as Hfirst by by exists found.
    exists i. split; [by apply foldUnique_found|by apply firstMatch_foldUnique].
  - exists (length uniqueList). unfold foldUnique, countAt. rewrite Hfind.
    rewrite list_lookup_middle by done.
    rewrite lookup_ge_None_2 by done. simpl. split; [lia|].
    exists info. apply list_find_Some. split_and!.
    + by apply list_lookup_middle.
    + exact Hstrip.
    + intros j y Hj Hlt. rewrite lookup_app_l in Hj by done.
      apply list_find_None in Hfind. rewrite Forall_forall in Hfind.
      apply Hfind. by eapply list_elem_of_lookup_2.
Qed.

(** An entry keeps its siblings, and its count never goes down. *)
Lemma foldUnique_keeps uniqueList other i e text :
  0 <= count other ->
  uniqueList !! i = Some e -> text ∈ siblings e ->
  countAt uniqueList i <= countAt (foldUnique uniqueList other) i /\
  exists e', foldUnique uniqueList other !! i = Some e' /\ text ∈ siblings e'.
Proof.
  intros Hother Hi Htext. unfold foldUnique, countAt.
  destruct (list_find (sameLog other) uniqueList) as [[j found]|].
  - destruct (decide (j = i)) as [->|Hne].
    + rewrite list_lookup_alter_eq, Hi. simpl. split; [lia|].
      eexists. split; [done|]. simpl. apply elem_of_app. by left.
    + rewrite list_lookup_alter_ne by done. rewrite Hi. split; [done|]. by exists e.
  - rewrite (lookup_app_l_Some _ _ _ _ Hi), Hi. split; [done|]. by exists e.
Qed.

Lemma fold_keeps others : forall uniqueList i e text,
  Forall freshRecord others ->
  uniqueList !! i = Some e -> text ∈ siblings e ->
  countAt uniqueList i <= countAt (foldl foldUnique uniqueList others) i /\
  exists e', foldl foldUnique uniqueList others !! i = Some e' /\ text ∈ siblings e'.
Proof.
  induction others as [|other rest IH]; intros uniqueList i e text Hfresh Hi Htext.
  - split; [done|]. by exists e.
  - apply Forall_cons in Hfresh as [[Hcount _] Hrest]. simpl.
    destruct (foldUnique_keeps uniqueList other i e text) as (Hle & e1 & Hi1 & Htext1);
      [lia|done..|].
    destruct (IH _ i e1 text Hrest Hi1 Htext1) as (Hle' & e' & Hi' & Htext').
    split; [lia|]. by exists e'.
Qed.

Lemma fold_count_grows others : forall uniqueList i,
  Forall freshRecord others ->
  countAt uniqueList i <= countAt (foldl foldUnique uniqueList others) i.
Proof.
  induction others as [|other rest IH]; intros uniqueList i Hfresh; [done|].
  apply Forall_cons in Hfresh as [[Hcount _] Hrest]. simpl.
  etrans; [|by apply IH]. unfold foldUnique, countAt.
  destruct (list_find (sameLog other) uniqueList) as [[j found]|].
  - destruct (decide (j = i)) as [->|Hne].
    + rewrite list_lookup_alter_eq. destruct (uniqueList !! i); simpl; lia.
    + by rewrite list_lookup_alter_ne.
  - destruct (uniqueList !! i) as [e|] eqn:Hi.
    + by rewrite (lookup_app_l_Some _ _ _ _ Hi).
    + simpl. destruct ((uniqueList ++ [other]) !! i) as [e|] eqn:Hi'; [|done].
      simpl. apply lookup_snoc_Some in Hi' as [[_ ?]|[_ <-]]; [congruence|lia].
Qed.

(** Two copies of a record, with other records before, between and behind
    them, go to one entry. *)
Lemma fold_pair_together info uniqueList between after :
  stripPrefix (logText info) = logText info ->
  freshRecord info -> Forall freshRecord between -> Forall freshRecord after ->
  let atFirst := uniqueList in
  let atSecond := foldl foldUnique (foldUnique atFirst info) between in
  let final := foldl foldUnique (foldUnique atSecond info) after in
  exists i e,
    countAt (foldUnique atFirst info) i = countAt atFirst i + 1 /\
    countAt (foldUnique atSecond info) i = countAt atSecond i + 1 /\
    final !! i = Some e /\
    stripPrefix (logText e) = logText info /\
    logText info ∈ siblings e /\
    countAt atFirst i + 2 <= count e.
Proof.
  intros Hstrip [Hcount _] Hbetween Hafter. simpl.
  destruct (foldUnique_lands info uniqueList Hstrip Hcount) as (i & Hone & Hfirst).
  pose proof (firstMatch_fold info i between _ Hfirst) as Hsecond.
  destruct (foldUnique_found info i _ Hsecond) as (Htwo & e2 & Hi2 & Htext2).
  destruct (fold_keeps after _ i e2 (logText info) Hafter Hi2 Htext2)
    as (Hle & e & Hi & Htext).
  pose proof (firstMatch_fold info i after _ (firstMatch_foldUnique info i _ info Hsecond))
    as [e' Hfinal].
  apply list_find_Some in Hfinal as (Hi' & Hsame & _).
  assert (e' = e) as -> by congruence.
  exists i, e. split_and!; [done..|].
  pose proof (fold_count_grows between (foldUnique uniqueList info) i Hbetween) as Hmid.
  unfold countAt in Hle at 2. rewrite Hi in Hle. simpl in Hle. lia.
Qed.

(** ** Lines that differ in a bracketed prefix, among other lines *)

Lemma entriesAfter_app settings data ls ls' :
  entriesAfter settings data (ls ++ ls')
  = foldl foldUnique (entriesAfter settings data ls) (parseLine <$> omap lineMatch ls').
Proof. unfold entriesAfter. by rewrite omap_app, fmap_app, foldl_app. Qed.

Lemma entriesAfter_snoc settings data ls l c :
  lineMatch l = Some c ->
  entriesAfter settings data (ls ++ [l])
  = foldUnique (entriesAfter settings data ls) (parseLine c).
Proof. intros Hl. rewrite entriesAfter_app. simpl. by rewrite Hl. Qed.

(** The report of a text whose type tokens pass the validation. *)
Lemma parseText_entries settings data input fileName :
  candidates input <> [] ->
  Forall (fun c => invalidType (parseLine c) = false) (candidates input) ->
  exists data' logInfo,
    parseText settings data input fileName = Ok (data', logInfo) /\
    uniqueList logInfo = entriesAfter settings data (lines input).
Proof.
  intros Hne Hvalid.
  destruct (processParsedLog_uniqueList settings data (parseLine <$> candidates input) fileName)
    as (data' & logInfo & Hrun & Hunique); [by apply Forall_fmap|].
  exists data', logInfo. split.
  - rewrite candidates_scan in Hrun, Hne. unfold parseText, extract, match_global.
    by destruct (scan logRegex input 0).
  - rewrite Hunique. unfold entriesAfter, baseInfo. rewrite <- candidates_lines.
    by destruct (consolidate settings).
Qed.

(** C9, as the code has it: two lines of the input that differ only in a
    prefix [[A][B]] right in front of the marker give the same candidate,
    and the aggregator folds both into the same unique entry, whatever
    lines stand before, between and behind them and whatever the report
    holds already: each of the two raises the count of the entry at one
    position [i] by one, and in the report that entry, whose stripped text
    is the line, has the line among its siblings and a count that has grown
    by two at least.  This needs that the line from the marker on is a
    candidate (a colon follows, on one line), that the prefix does not
    itself hold the marker, that the stripping of line 208 finds nothing to
    take out of the line (the stored text is stripped, the incoming one is
    compared as it is), and that the type tokens of the text pass the
    validation of line 228. *)
Theorem prefixed_lines_fold_together settings data A B line fileName input
    before first between second after :
  isCandidate line ->
  contains "Log" (bracketPrefix A B) = false ->
  stripPrefix line = line ->
  (first = bracketPrefix A B +:+ line /\ second = line) \/
  (first = line /\ second = bracketPrefix A B +:+ line) ->
  lines input = before ++ [first] ++ between ++ [second] ++ after ->
  Forall (fun c => invalidType (parseLine c) = false) (candidates input) ->
  exists data' logInfo i e,
    parseText settings data input fileName = Ok (data', logInfo) /\
    uniqueList logInfo = entriesAfter settings data (lines input) /\
    lineMatch first = Some line /\
    lineMatch second = Some line /\
    countAt (entriesAfter settings data (before ++ [first])) i
    = countAt (entriesAfter settings data before) i + 1 /\
    countAt (entriesAfter settings data (before ++ [first] ++ between ++ [second])) i
    = countAt (entriesAfter settings data (before ++ [first] ++ between)) i + 1 /\
    uniqueList logInfo !! i = Some e /\
    stripPrefix (logText e) = line /\
    line ∈ siblings e /\
    countAt (entriesAfter settings data before) i + 2 <= count e.
Proof.
  intros Hcand Hprefix Hstrip Horder Hlines Hvalid.
  assert (lineMatch first = Some line /\ lineMatch second = Some line) as [Hfirst Hsecond].
  { pose proof (lines_all_dot input) as Hdot. rewrite Hlines in Hdot.
    rewrite !Forall_app, !Forall_singleton in Hdot.
    destruct Hdot as (_ & Hdot1 & _ & Hdot2 & _).
    destruct Horder as [[-> ->]|[-> ->]]; split;
      by (apply lineMatch_candidate || apply lineMatch_prefixed). }
  assert (candidates input <> []) as Hne.
  { rewrite candidates_lines, Hlines, !omap_app. simpl. rewrite Hfirst.
    by destruct (omap lineMatch before). }
  destruct (parseText_entries settings data input fileName Hne Hvalid)
    as (data' & logInfo & Hrun & Hunique).
  destruct (fold_pair_together (parseLine line) (entriesAfter settings data before)
              (parseLine <$> omap lineMatch between) (parseLine <$> omap lineMatch after))
    as (i & e & Hone & Htwo & Hi & Hsame & Htext & Hcount).
  { by rewrite parseLine_logText. }
  { split; [apply parseLine_count|apply parseLine_siblings]. }
  { apply parseLine_fresh. }
  { apply parseLine_fresh. }
  rewrite parseLine_logText in Hsame, Htext.
  assert (entriesAfter settings data (before ++ [first])
          = foldUnique (entriesAfter settings data before) (parseLine line)) as E1
    by by apply entriesAfter_snoc.
  assert (entriesAfter settings data (before ++ [first] ++ between)
          = foldl foldUnique (foldUnique (entriesAfter settings data before) (parseLine line))
              (parseLine <$> omap lineMatch between)) as E2.
  { by rewrite app_assoc, entriesAfter_app, E1. }
  assert (entriesAfter settings data (before ++ [first] ++ between ++ [second])
          = foldUnique (entriesAfter settings data (before ++ [first] ++ between))
              (parseLine line)) as E3.
  { rewrite !app_assoc. rewrite (entriesAfter_snoc _ _ _ second line Hsecond).
    by rewrite <- !app_assoc. }
  assert (entriesAfter settings data (lines input)
          = foldl foldUnique
              (entriesAfter settings data (before ++ [first] ++ between ++ [second]))
              (parseLine <$> omap lineMatch after)) as E4.
  { rewrite Hlines, <- entriesAfter_app. by rewrite <- !app_assoc. }
  exists data', logInfo, i, e.
  rewrite Hunique, E4, E3, E2, E1. by split_and!.
Qed.

Lemma prefixed_lines_fold_together_witness :
  exists data' logInfo i e,
    parseText perFile initialLogData
      ("LogX: y" +:+ nl +:+ "[1][2]LogA: b" +:+ nl +:+ "LogA: b") None
    = Ok (data', logInfo) /\
    uniqueList logInfo
    = entriesAfter perFile initialLogData ["LogX: y"; "[1][2]LogA: b"; "LogA: b"] /\
    lineMatch "[1][2]LogA: b" = Some "LogA: b" /\
    lineMatch "LogA: b" = Some "LogA: b" /\
    countAt (entriesAfter perFile initialLogData ["LogX: y"; "[1][2]LogA: b"]) i
    = countAt (entriesAfter perFile initialLogData ["LogX: y"]) i + 1 /\
    countAt (entriesAfter perFile initialLogData ["LogX: y"; "[1][2]LogA: b"; "LogA: b"]) i
    = countAt (entriesAfter perFile initialLogData ["LogX: y"; "[1][2]LogA: b"]) i + 1 /\
    uniqueList logInfo !! i = Some e /\
    stripPrefix (logText e) = "LogA: b" /\
    "LogA: b" ∈ siblings e /\
    countAt (entriesAfter perFile initialLogData ["LogX: y"]) i + 2 <= count e.
Proof.
  apply (prefixed_lines_fold_together perFile initialLogData "1" "2" "LogA: b" None
           ("LogX: y" +:+ nl +:+ "[1][2]LogA: b" +:+ nl +:+ "LogA: b")
           ["LogX: y"] "[1][2]LogA: b" [] "LogA: b" []).
  - vm_compute. auto.
  - vm_compute. reflexivity.
  - vm_compute. reflexivity.
  - left. split; reflexivity.
  - vm_compute. reflexivity.
  - vm_compute. repeat constructor.
Defined.

(** The entries of the sample: the line and its prefixed copy are the
    second entry, behind the entry of the line in front of them. *)
Example prefixed_lines_among_others :
  exists data logInfo,
    parseText perFile initialLogData
      ("LogX: y" +:+ nl +:+ "[1][2]LogA: b" +:+ nl +:+ "LogA: b") None
    = Ok (data, logInfo) /\
    logText <$> uniqueList logInfo = ["LogX: y"; "LogA: b"] /\
    count <$> uniqueList logInfo = [1; 2].
Proof. do 2 eexists. split; [vm_compute; reflexivity|]. vm_compute. auto. Qed.

(** * What the sorter receives *)

(** Where a report of [parseText] goes: it replaces the consolidated report,
    or joins the per-file reports. *)
Lemma parseText_data settings data input fileName data' logInfo :
  parseText settings data input fileName = Ok (data', logInfo) ->
  uniqueList logInfo <> [] /\
  data' = if consolidate settings then mkData logInfo (dataList data)
          else mkData (self data) (dataList data ++ [logInfo]).
Proof.
  intros Hrun. split; [by eapply parseText_uniqueList_nonempty|].
  apply parseText_Ok_inv in Hrun. unfold processParsedLog in Hrun.
  destruct (processAll _ _) as [info| |]; [|done..].
  simpl in Hrun. destruct (consolidate settings).
  - by injection Hrun as <- <-.
  - destruct (truthy fileName); by injection Hrun as <- <-.
Qed.

Lemma parseFiles_lists_nonempty settings env content fileList : forall data st',
  parseFiles settings env (mkState data content) fileList = Ok st' ->
  Forall (fun d => uniqueList d <> []) (dataList data) ->
  Forall (fun d => uniqueList d <> []) (dataList (logData st')) /\
  (consolidate settings = true ->
   fileList <> [] \/ uniqueList (self data) <> [] ->
   uniqueList (self (logData st')) <> []).
Proof.
  induction fileList as [|f rest IH]; intros data st' Hrun Hold.
  - injection Hrun as <-. split; [done|]. by intros _ [?|?].
  - cbn [parseFiles] in Hrun.
    destruct (existsSync env (getPathToFile settings env f)); [|done].
    cbn [textContent logData] in Hrun.
    destruct (content !! f) as [text|]; [|done].
    destruct (parseText settings data text (Some f)) as [[data1 logInfo]| |] eqn:Hparse;
      [|done..].
    simpl in Hrun.
    destruct (parseText_data _ _ _ _ _ _ Hparse) as [Hne Hdata].
    apply IH in Hrun as [Hlists Hself].
    + split; [done|]. intros Hmode _. apply Hself; [done|]. right.
      rewrite Hdata, Hmode. done.
    + rewrite Hdata. destruct (consolidate settings); simpl; [done|].
      apply Forall_app. split; [done|]. by constructor.
Qed.

(** From the initial state of the module, [run] hands to the sorter, at
    line 506 and at line 510, only lists that have an entry. *)
Lemma run_sorts_nonempty_lists settings env content fileList st' :
  fileList <> [] ->
  parseFiles settings env (mkState initialLogData content) fileList = Ok st' ->
  if consolidate settings then uniqueList (self (logData st')) <> []
  else Forall (fun d => uniqueList d <> []) (dataList (logData st')).
Proof.
  intros Hne Hrun.
  apply parseFiles_lists_nonempty in Hrun as [Hlists Hself]; [|constructor].
  destruct (consolidate settings); [|done]. apply Hself; [done|by left].
Qed.

(** So a run from the initial state never stops in the sorter: when the
    files are loaded and parsed, both sorting loops return. *)
Lemma run_sorter_returns settings env content fileList st' :
  fileList <> [] ->
  parseFiles settings env (mkState initialLogData content) fileList = Ok st' ->
  if consolidate settings
  then exists sorted,
         sortLogsByCount (uniqueList (self (logData st'))) = Ok sorted /\
         StableByCount (uniqueList (self (logData st'))) sorted
  else exists lists, sortEach (dataList (logData st')) = Ok lists.
Proof.
  intros Hne Hrun. pose proof (run_sorts_nonempty_lists _ _ _ _ _ Hne Hrun) as Hlists.
  destruct (consolidate settings).
  - by apply sortLogsByCount_stable.
  - by apply sortEach_nonempty.
Qed.
